(** * Salesforce documentation search: chunker, intent classifier,
    retrieval engine and index builder

  A shallow embedding of the search core of the repository
  ([src/utils/chunker.ts], [src/utils/intent.ts], [src/db/queries.ts],
  [src/db/database.ts], [scripts/build-index.ts]) together with the
  properties its specification states about it.

  Conventions of the embedding:
  - a JavaScript string is the list of its code units, restricted to the
    Latin-1 range (one [ascii] per code unit);
  - JavaScript numbers that hold sizes, weights and counts are integers
    ([Z] or [nat]); relevance scores are exact rationals ([Q]);
  - module-level mutable state (the database handle, the LRU cache) and
    the file system are threaded explicitly. *)

From Stdlib Require Import ZArith QArith Qminmax Lia Ascii String.
From Stdlib Require Import Sorting.Sorted Sorting.Permutation.
From stdpp Require Import gmap strings list.

Local Open Scope Z_scope.
Local Open Scope list_scope.
Local Open Scope bool_scope.

(* ================================================================== *)
(** * JavaScript strings *)
(* ================================================================== *)

Abbreviation str := (list ascii).

(** String literals of the source are written [js "..."]. *)
Definition js (s : string) : str := list_ascii_of_string s.
Definition jss (l : list string) : list str := map js l.

Module JS.

Definition code (c : ascii) : N := N_of_ascii c.

(** The line feed character. *)
Definition LF : ascii := ascii_of_N 10.

Definition inRange (lo hi : N) (c : ascii) : bool :=
  ((lo <=? code c) && (code c <=? hi))%N.

(** [\s] of regular expressions and the characters [trim] strips:
    TAB, LF, VT, FF, CR, SPACE and NBSP (the Latin-1 part of
    WhiteSpace and LineTerminator). *)
Definition isWhiteSpace (c : ascii) : bool :=
  inRange 9 13 c || (code c =? 32)%N || (code c =? 160)%N.

(** Line terminators, for [^], [$] under the [m] flag and for [.]. *)
Definition isLineTerminator (c : ascii) : bool :=
  (code c =? 10)%N || (code c =? 13)%N.

(** [String.prototype.toLowerCase] on one Latin-1 code unit.  On this
    range lower-casing works code unit by code unit and keeps the length
    of a string; beyond it (U+0130, for one) it can lengthen a string. *)
Definition toLowerChar (c : ascii) : ascii :=
  if inRange 65 90 c || (inRange 192 222 c && negb (code c =? 215)%N)
  then ascii_of_N (code c + 32) else c.

Definition toLowerCase (s : str) : str := map toLowerChar s.

Fixpoint trimStart (s : str) : str :=
  match s with
  | c :: s' => if isWhiteSpace c then trimStart s' else s
  | [] => []
  end.

Definition trimEnd (s : str) : str := rev (trimStart (rev s)).

Definition trim (s : str) : str := trimEnd (trimStart s).

(** [s.substring(a, b)] for [0 <= a <= b]; positions beyond the end are
    clamped, as in JavaScript. *)
Definition substring (s : str) (a b : nat) : str := take (b - a) (drop a s).

(** [s.substring(a)] for a JavaScript number [a] (negative is clamped
    to 0, beyond the end gives the empty string). *)
Definition substringFrom (s : str) (a : Z) : str := drop (Z.to_nat a) s.

Definition eqChar (a b : ascii) : bool := (code a =? code b)%N.

Fixpoint startsWith (s p : str) : bool :=
  match p, s with
  | [], _ => true
  | _ :: _, [] => false
  | a :: p', b :: s' => eqChar a b && startsWith s' p'
  end.

(** [s.includes(p)] *)
Fixpoint includes (s p : str) : bool :=
  startsWith s p ||
  match s with
  | [] => false
  | _ :: s' => includes s' p
  end.

(** [s.indexOf(c)] for a one-character pattern; [-1] when absent. *)
Fixpoint indexOfChar (s : str) (c : ascii) : Z :=
  match s with
  | [] => -1
  | b :: s' =>
      if eqChar b c then 0
      else let r := indexOfChar s' c in if r <? 0 then -1 else r + 1
  end.

(** [[...new Set(xs)]]: duplicates removed, first occurrences kept in
    order. *)
Fixpoint uniqAcc {A} `{EqDecision A} (seen xs : list A) : list A :=
  match xs with
  | [] => []
  | x :: xs' =>
      if bool_decide (x ∈ seen) then uniqAcc seen xs'
      else x :: uniqAcc (x :: seen) xs'
  end.

Definition uniq {A} `{EqDecision A} (xs : list A) : list A := uniqAcc [] xs.

(** [xs.join(sep)] *)
Fixpoint join (sep : str) (xs : list str) : str :=
  match xs with
  | [] => []
  | [x] => x
  | x :: xs' => x ++ sep ++ join sep xs'
  end.

End JS.

(* ================================================================== *)
(** * Regular expressions

  The fragment of ECMAScript regular expressions the sources use:
  character classes, greedy bounded repetition of a class, sequence,
  ordered alternation, the anchors [^] and [$] under the [m] flag and
  capture groups.  Matching is the backtracking semantics of the
  language, written in continuation-passing style. *)
(* ================================================================== *)

Module Regex.

Inductive regex : Type :=
| Eps
| Cls (p : ascii → bool)
| Rep (p : ascii → bool) (lo : nat) (hi : option nat)
| Seq (r1 r2 : regex)
| Alt (r1 r2 : regex)
| Bol
| Eol
| Grp (g : nat) (r : regex).

(** Captures: group number to (start, end). *)
Definition caps := list (nat * (nat * nat)).

Definition capture (c : caps) (g : nat) : option (nat * nat) :=
  snd <$> List.find (λ e, Nat.eqb (fst e) g) c.

(** Result of a match attempt: end position and captures. *)
Definition mres : Type := nat * caps.

(** Length of the longest prefix of [s] whose characters satisfy [p]. *)
Fixpoint run (p : ascii → bool) (s : str) : nat :=
  match s with
  | c :: s' => if p c then S (run p s') else 0%nat
  | [] => 0%nat
  end.

(** Greedy repetition gives back one character at a time: try the
    continuation after [lo + d] characters, then [lo + d - 1], ...,
    down to [lo]. *)
Fixpoint backoff {A} (k : nat → option A) (i lo d : nat) : option A :=
  match k (i + lo + d)%nat with
  | Some r => Some r
  | None =>
      match d with
      | O => None
      | S d' => backoff k i lo d'
      end
  end.

Definition atLineStart (s : str) (i : nat) : bool :=
  match i with
  | O => true
  | S j => match s !! j with
           | Some c => JS.isLineTerminator c
           | None => false
           end
  end.

Definition atLineEnd (s : str) (i : nat) : bool :=
  match s !! i with
  | Some c => JS.isLineTerminator c
  | None => Nat.eqb i (length s)
  end.

Fixpoint rmatch (r : regex) (s : str) (k : nat → caps → option mres)
    (i : nat) (c : caps) : option mres :=
  match r with
  | Eps => k i c
  | Cls p =>
      match s !! i with
      | Some ch => if p ch then k (S i) c else None
      | None => None
      end
  | Rep p lo hi =>
      let n := run p (drop i s) in
      let n := match hi with Some h => Nat.min n h | None => n end in
      if (n <? lo)%nat then None
      else backoff (λ j, k j c) i lo (n - lo)
  | Seq r1 r2 => rmatch r1 s (λ j c', rmatch r2 s k j c') i c
  | Alt r1 r2 =>
      match rmatch r1 s k i c with
      | Some x => Some x
      | None => rmatch r2 s k i c
      end
  | Bol => if atLineStart s i then k i c else None
  | Eol => if atLineEnd s i then k i c else None
  | Grp g r => rmatch r s (λ j c', k j ((g, (i, j)) :: c')) i c
  end.

(** A match attempt anchored at position [i]. *)
Definition matchAt (r : regex) (s : str) (i : nat) : option mres :=
  rmatch r s (λ j c, Some (j, c)) i [].

(** One found match: start index, end index, captures. *)
Record found := { m_index : nat; m_end : nat; m_caps : caps }.

(** Leftmost match among the start positions [i, i+1, ..., i+n]. *)
Fixpoint scan (r : regex) (s : str) (n i : nat) : option found :=
  match matchAt r s i with
  | Some (e, c) => Some {| m_index := i; m_end := e; m_caps := c |}
  | None =>
      match n with
      | O => None
      | S n' => scan r s n' (S i)
      end
  end.

(** [RegExp.prototype.exec] of a global regular expression whose
    [lastIndex] is [from]. *)
Definition exec (r : regex) (s : str) (from : nat) : option found :=
  if (length s <? from)%nat then None
  else scan r s (length s - from) from.

(** The successive matches that repeated [exec] calls of a global
    regular expression return: the start positions are swept from
    left to right, those below the current [lastIndex] are skipped,
    and a match moves [lastIndex] to its end (one further after an
    empty match). [n] counts the start positions still to visit. *)
Fixpoint sweep (r : regex) (s : str) (n q lastIndex : nat) : list found :=
  let next :=
    if (q <? lastIndex)%nat then None else matchAt r s q in
  match next with
  | Some (e, c) =>
      let m := {| m_index := q; m_end := e; m_caps := c |} in
      let li := if Nat.eqb e q then S q else e in
      match n with
      | O => [m]
      | S n' => m :: sweep r s n' (S q) li
      end
  | None =>
      match n with
      | O => []
      | S n' => sweep r s n' (S q) lastIndex
      end
  end.

Definition matches (r : regex) (s : str) : list found :=
  sweep r s (length s) 0 0.

(** The same matches as the source loops over them,
    [while ((m = r.exec(s)) !== null) { ... }], each [exec] resuming at
    the end of the previous match; [fuel] bounds the iterations.  For a
    pattern that cannot match the empty string the loop ends within
    [length s + 1] iterations and visits exactly [matches r s]
    (lemma [matches_execLoop] below). *)
Fixpoint execLoop (r : regex) (s : str) (fuel from : nat) : list found :=
  match fuel with
  | O => []
  | S fuel' =>
      match exec r s from with
      | None => []
      | Some m => m :: execLoop r s fuel' (m_end m)
      end
  end.

(** The least number of characters a match of [r] consumes. *)
Fixpoint minLen (r : regex) : nat :=
  match r with
  | Eps | Bol | Eol => 0
  | Cls _ => 1
  | Rep _ lo _ => lo
  | Seq r1 r2 => minLen r1 + minLen r2
  | Alt r1 r2 => Nat.min (minLen r1) (minLen r2)
  | Grp _ r => minLen r
  end.

(** [s.match(r)] for a global [r]: the matched substrings, or [null]. *)
Definition matchAll (r : regex) (s : str) : option (list str) :=
  match matches r s with
  | [] => None
  | ms => Some (map (λ m, JS.substring s (m_index m) (m_end m)) ms)
  end.

(** [s.split(r)] for a regular expression without capture groups
    (the algorithm of RegExp.prototype[Symbol.split]): [q] sweeps the
    positions below the length, [p] is the end of the last separator. *)
Fixpoint splitLoop (r : regex) (s : str) (n q p : nat) : list str :=
  match n with
  | O => [JS.substring s p (length s)]
  | S n' =>
      if (q <? p)%nat then splitLoop r s n' (S q) p
      else
        match matchAt r s q with
        | None => splitLoop r s n' (S q) p
        | Some (e, _) =>
            let e := Nat.min e (length s) in
            if Nat.eqb e p then splitLoop r s n' (S q) p
            else JS.substring s p q :: splitLoop r s n' (S q) e
        end
  end.

Definition split (r : regex) (s : str) : list str :=
  match s with
  | [] => match matchAt r s 0 with Some _ => [] | None => [s] end
  | _ => splitLoop r s (length s) 0 0
  end.

(** A dynamically built pattern for a literal, as
    [new RegExp(escape(term), 'i')]: under the [i] flag two Latin-1
    code units match when they have the same case folding. *)
Definition ciChar (a b : ascii) : bool :=
  JS.eqChar (JS.toLowerChar a) (JS.toLowerChar b).

Definition literal_i (t : str) : regex :=
  foldr (λ ch r, Seq (Cls (ciChar ch)) r) Eps t.

End Regex.

(* ================================================================== *)
(** * Text chunker ([src/utils/chunker.ts]) *)
(* ================================================================== *)

Module Chunker.
Import Regex.

(** [ChunkOptions]: every field may be left out. *)
Record ChunkOptions := {
  o_maxChunkSize : option Z;
  o_overlapSize : option Z;
  o_preserveCodeBlocks : option bool;
  o_preserveTables : option bool
}.

(** [Required<ChunkOptions>] *)
Record Options := {
  maxChunkSize : Z;
  overlapSize : Z;
  preserveCodeBlocks : bool;
  preserveTables : bool
}.

Record Chunk := {
  index : nat;
  content : str;
  sectionTitle : option str
}.

Definition DEFAULT_OPTIONS : Options :=
  {| maxChunkSize := 1500; overlapSize := 200;
     preserveCodeBlocks := true; preserveTables := true |}.

(** [{ ...DEFAULT_OPTIONS, ...options }] *)
Definition withDefaults (options : ChunkOptions) : Options :=
  {| maxChunkSize :=
       default (maxChunkSize DEFAULT_OPTIONS) (o_maxChunkSize options);
     overlapSize :=
       default (overlapSize DEFAULT_OPTIONS) (o_overlapSize options);
     preserveCodeBlocks :=
       default (preserveCodeBlocks DEFAULT_OPTIONS) (o_preserveCodeBlocks options);
     preserveTables :=
       default (preserveTables DEFAULT_OPTIONS) (o_preserveTables options) |}.

(** The options value [{}], the default of [chunkText]'s parameter. *)
Definition noChunkOptions : ChunkOptions :=
  {| o_maxChunkSize := None; o_overlapSize := None;
     o_preserveCodeBlocks := None; o_preserveTables := None |}.

(** The options value [{ maxChunkSize: m, overlapSize: o }]. *)
Definition sizes (m o : Z) : ChunkOptions :=
  {| o_maxChunkSize := Some m; o_overlapSize := Some o;
     o_preserveCodeBlocks := None; o_preserveTables := None |}.

Record section := {
  title : option str;
  body : str
}.

Definition len (s : str) : Z := Z.of_nat (length s).

(** ** Character classes of the patterns *)

Definition isHash (c : ascii) : bool := (JS.code c =? 35)%N.
Definition isDot (c : ascii) : bool := negb (JS.isLineTerminator c).
Definition isUpper (c : ascii) : bool := JS.inRange 65 90 c.
Definition isUpperOrSpace (c : ascii) : bool :=
  isUpper c || JS.isWhiteSpace c.
Definition isNewline (c : ascii) : bool := (JS.code c =? 10)%N.
Definition isStop (c : ascii) : bool :=
  (JS.code c =? 46)%N || (JS.code c =? 33)%N || (JS.code c =? 63)%N.
Definition notStop (c : ascii) : bool := negb (isStop c).

(** [/^(?:#{1,3}\s+(.+)|([A-Z][A-Z\s]{5,}[A-Z]))$/gm] *)
Definition headingPattern : regex :=
  Seq Bol
    (Seq (Alt (Seq (Rep isHash 1 (Some 3%nat))
                 (Seq (Rep JS.isWhiteSpace 1 None)
                    (Grp 1 (Rep isDot 1 None))))
            (Grp 2 (Seq (Cls isUpper)
                      (Seq (Rep isUpperOrSpace 5 None) (Cls isUpper)))))
       Eol).

(** [/\n\n+/] *)
Definition paragraphBreak : regex := Seq (Cls isNewline) (Rep isNewline 1 None).

(** [/[^.!?]+[.!?]+/g] *)
Definition sentencePattern : regex :=
  Seq (Rep notStop 1 None) (Rep isStop 1 None).

(** [/\s+/] *)
Definition spaces : regex := Rep JS.isWhiteSpace 1 None.

(** ** splitBySections *)

(** [(match[1] || match[2]).trim()]: group 1 when it took part in the
    match with a non-empty text, else group 2. *)
Definition matchTitle (text : str) (m : found) : str :=
  let grp g :=
    match capture (m_caps m) g with
    | Some (a, b) => JS.substring text a b
    | None => []
    end in
  JS.trim (match grp 1%nat with [] => grp 2%nat | t => t end).

(** State of the [while] loop: [lastIndex], [lastTitle], [sections]. *)
Definition sectionState : Type := nat * option str * list section.

Definition pushSection (t : option str) (c : str) (ss : list section)
  : list section :=
  if (50 <? length c)%nat then ss ++ [ {| title := t; body := c |} ] else ss.

Definition sectionStep (text : str) (st : sectionState) (m : found)
  : sectionState :=
  let '(lastIndex, lastTitle, sections) := st in
  let sections :=
    if (lastIndex <? m_index m)%nat
    then pushSection lastTitle
           (JS.trim (JS.substring text lastIndex (m_index m))) sections
    else sections in
  (m_end m, Some (matchTitle text m), sections).

Definition splitBySections (text : str) : list section :=
  let '(lastIndex, lastTitle, sections) :=
    fold_left (sectionStep text) (matches headingPattern text)
      (0%nat, None, []) in
  let sections :=
    if (lastIndex <? length text)%nat
    then pushSection lastTitle
           (JS.trim (JS.substring text lastIndex (length text))) sections
    else sections in
  match sections with
  | [] => [ {| title := None; body := text |} ]
  | _ => sections
  end.

(** ** splitLongParagraph *)

(** State of the packing loops: [chunks], [currentChunk]. *)
Definition packState : Type := list str * str.

Definition wordStep (opts : Options) (st : packState) (word : str)
  : packState :=
  let '(chunks, currentChunk) := st in
  if maxChunkSize opts <? len currentChunk + len word
  then (chunks ++ [JS.trim currentChunk], word)
  else (chunks,
        currentChunk ++ (match currentChunk with [] => [] | _ => js " " end)
          ++ word).

Definition sentenceStep (opts : Options) (st : packState)
    (sentence : str) : packState :=
  let '(chunks, currentChunk) := st in
  if maxChunkSize opts <? len currentChunk + len sentence
  then
    let chunks :=
      if 0 <? len currentChunk then chunks ++ [JS.trim currentChunk]
      else chunks in
    if maxChunkSize opts <? len sentence
    then fold_left (wordStep opts) (split spaces sentence) (chunks, [])
    else (chunks, sentence)
  else (chunks, currentChunk ++ sentence).

Definition flush (st : packState) : list str :=
  let '(chunks, currentChunk) := st in
  if 0 <? len currentChunk then chunks ++ [JS.trim currentChunk]
  else chunks.

Definition splitLongParagraph (para : str) (opts : Options)
  : list str :=
  let sentences :=
    match matchAll sentencePattern para with
    | Some ss => ss
    | None => [para]
    end in
  flush (fold_left (sentenceStep opts) sentences ([], [])).

(** ** addOverlap *)

Definition overlapOf (prevChunk : str) (overlapSize : Z) : str :=
  JS.substringFrom prevChunk (Z.max 0 (len prevChunk - overlapSize)).

Definition withOverlap (overlapSize : Z) (prevChunk chunk : str) : str :=
  let overlap := overlapOf prevChunk overlapSize in
  let lastSpace := JS.indexOfChar overlap " "%char in
  if 0 <? lastSpace
  then JS.substringFrom overlap (lastSpace + 1) ++ js " [...] " ++ chunk
  else chunk.

(** The loop body for [i > 0], along the list of (previous, current). *)
Fixpoint overlapFrom (overlapSize : Z) (prevChunk : str)
    (chunks : list str) : list str :=
  match chunks with
  | [] => []
  | chunk :: rest =>
      withOverlap overlapSize prevChunk chunk
        :: overlapFrom overlapSize chunk rest
  end.

Definition addOverlap (chunks : list str) (overlapSize : Z) : list str :=
  if (length chunks <=? 1)%nat || (overlapSize =? 0) then chunks
  else
    match chunks with
    | [] => []
    | first :: rest => first :: overlapFrom overlapSize first rest
    end.

(** ** chunkSection *)

Definition paragraphStep (opts : Options) (st : packState)
    (para : str) : packState :=
  let '(chunks, currentChunk) := st in
  if maxChunkSize opts <? len currentChunk + len para
  then
    let chunks :=
      if 0 <? len currentChunk then chunks ++ [JS.trim currentChunk]
      else chunks in
    if maxChunkSize opts <? len para
    then
      let subChunks := splitLongParagraph para opts in
      (chunks ++ removelast subChunks, List.last subChunks [])
    else (chunks, para)
  else (chunks,
        currentChunk
          ++ (match currentChunk with [] => [] | _ => [JS.LF; JS.LF] end)
          ++ para).

Definition chunkSection (text : str) (opts : Options) : list str :=
  if len text <=? maxChunkSize opts then [text]
  else
    addOverlap
      (flush (fold_left (paragraphStep opts) (split paragraphBreak text)
                ([], [])))
      (overlapSize opts).

(** ** chunkText *)

Definition chunkStep (t : option str) (chunks : list Chunk) (c : str)
  : list Chunk :=
  chunks ++ [ {| index := length chunks; content := JS.trim c;
                 sectionTitle := t |} ].

Definition chunkText (text : str) (options : ChunkOptions) : list Chunk :=
  let opts := withDefaults options in
  fold_left
    (λ chunks s, fold_left (chunkStep (title s)) (chunkSection (body s) opts) chunks)
    (splitBySections text) [].

End Chunker.


(* ================================================================== *)
(** * Intent classifier and query expander ([src/utils/intent.ts]) *)
(* ================================================================== *)

Module Intent.

Inductive Confidence := high | medium | low.

Global Instance Confidence_eq_dec : EqDecision Confidence.
Proof. solve_decision. Defined.

Record DetectedIntent := {
  category : option str;
  subcategory : option str;
  confidence : Confidence;
  matchedPatterns : list str;
  totalWeight : Z
}.

Record QueryExpansion := {
  expandedTerms : list str;
  detectedConcepts : list str;
  suggestedCategory : option str;
  x_confidence : Confidence;
  reasoning : str
}.

Record IntentPattern := {
  keywords : list str;
  p_category : str;
  p_subcategory : str;
  weight : Z
}.

Definition pat (kws : list string) (cat sub : string) (w : Z) : IntentPattern :=
  {| keywords := jss kws; p_category := js cat; p_subcategory := js sub;
     weight := w |}.

Definition INTENT_PATTERNS : list IntentPattern := [
  (* Core Platform - Apex *)
  pat ["apex"; "trigger"; "class"; "soql in apex"] "core_platform" "apex" 10;
  pat ["batch apex"; "queueable"; "schedulable"; "future method"] "core_platform" "apex" 12;
  pat ["apex test"; "test class"; "testmethod"; "test.starttest"] "core_platform" "apex" 10;
  pat ["apex governor"; "limits"; "governor limits"] "core_platform" "apex" 10;
  (* Core Platform - LWC *)
  pat ["lwc"; "lightning web component"; "web component"] "core_platform" "lightning" 10;
  pat ["@wire"; "@api"; "@track"; "lightning-"] "core_platform" "lightning" 10;
  pat ["lwc lifecycle"; "connectedcallback"; "renderedcallback"] "core_platform" "lightning" 12;
  (* Core Platform - Aura *)
  pat ["aura"; "aura component"; "lightning component"; "component bundle"] "core_platform" "lightning" 8;
  (* Core Platform - Visualforce *)
  pat ["visualforce"; "apex:page"; "apex:form"; "vf page"] "core_platform" "visualforce" 10;
  (* Core Platform - SOQL/SOSL *)
  pat ["soql"; "select from"; "where clause"; "relationship query"] "core_platform" "soql_sosl" 10;
  pat ["sosl"; "find"; "search query"] "core_platform" "soql_sosl" 10;
  (* Core Platform - Formulas *)
  pat ["formula"; "formula field"; "validation rule"; "workflow rule"] "core_platform" "formulas" 8;
  (* APIs - REST *)
  pat ["rest api"; "restful"; "/services/data/"; "sobject"] "apis" "rest_api" 10;
  pat ["composite api"; "composite request"; "batch request"] "apis" "rest_api" 12;
  (* APIs - SOAP *)
  pat ["soap api"; "enterprise wsdl"; "partner wsdl"] "apis" "soap_api" 10;
  (* APIs - Metadata *)
  pat ["metadata api"; "deploy"; "retrieve"; "package.xml"] "apis" "metadata_api" 10;
  (* APIs - Bulk *)
  pat ["bulk api"; "bulk 2.0"; "bulk data"; "data loader"] "apis" "bulk_api" 10;
  (* APIs - Streaming *)
  pat ["streaming api"; "pushtopic"; "platform event"; "cdc"; "change data capture"] "apis" "streaming_api" 10;
  (* APIs - Tooling *)
  pat ["tooling api"; "execute anonymous"; "debug log"; "apextestrun"] "apis" "tooling_api" 10;
  (* APIs - Chatter/Connect *)
  pat ["chatter api"; "connect api"; "feed item"] "apis" "specialized_apis" 8;
  (* APIs - Analytics *)
  pat ["analytics api"; "reports api"; "dashboard api"; "wave"] "apis" "specialized_apis" 8;
  (* Dev Tools - CLI *)
  pat ["sfdx"; "sf cli"; "salesforce cli"; "dx"] "dev_tools" "sfdx_cli" 10;
  pat ["scratch org"; "dev hub"; "source push"; "source pull"] "dev_tools" "sfdx_cli" 10;
  (* Dev Tools - Packaging *)
  pat ["package"; "unlocked package"; "2gp"; "managed package"] "dev_tools" "packaging" 10;
  pat ["isvforce"; "appexchange"; "security review"] "dev_tools" "packaging" 8;
  (* Dev Tools - DevOps *)
  pat ["devops"; "ci/cd"; "deployment"; "git"; "version control"] "dev_tools" "devops" 8;
  (* Dev Tools - Mobile *)
  pat ["mobile sdk"; "salesforce mobile"; "mobile app"] "dev_tools" "mobile_sdk" 8;
  (* Security *)
  pat ["security"; "permission"; "sharing"; "fls"; "field level security"] "security" "security" 10;
  pat ["oauth"; "connected app"; "jwt"; "authentication"] "security" "security" 10;
  pat ["encryption"; "shield"; "platform encryption"] "security" "security" 10;
  (* Integration *)
  pat ["integration"; "callout"; "external service"; "http"] "integration" "integration" 8;
  pat ["mulesoft"; "anypoint"; "heroku"] "integration" "integration" 8;
  pat ["external object"; "odata"; "salesforce connect"] "integration" "integration" 8;
  (* Clouds *)
  pat ["sales cloud"; "opportunity"; "lead"; "account"; "contact"] "clouds" "sales_cloud" 6;
  pat ["service cloud"; "case"; "knowledge"; "omni-channel"] "clouds" "service_cloud" 6;
  pat ["experience cloud"; "community"; "site"; "portal"] "clouds" "experience_cloud" 8;
  pat ["marketing cloud"; "journey builder"; "email studio"] "clouds" "marketing_cloud" 8;
  pat ["crm analytics"; "tableau crm"; "einstein analytics"] "clouds" "analytics_cloud" 8;
  (* Best Practices *)
  pat ["best practice"; "pattern"; "anti-pattern"; "design pattern"] "best_practices" "best_practices" 6;
  pat ["performance"; "optimization"; "bulkification"] "best_practices" "best_practices" 6;
  (* Release Notes *)
  pat ["release notes"; "new feature"; "summer"; "winter"; "spring"] "release_notes" "release_notes" 8
].

(** A [Record<string, string[]>] table. *)
Definition table (l : list (string * list string)) : gmap str (list str) :=
  list_to_map (map (λ e, (js (fst e), jss (snd e))) l).

Definition labels (l : list (string * string)) : gmap str str :=
  list_to_map (map (λ e, (js (fst e), js (snd e))) l).

Definition SYNONYMS : gmap str (list str) := table [
  ("lwc", ["lightning web component"; "web component"; "lightning-"]);
  ("apex", ["salesforce apex"; "apex class"; "apex trigger"]);
  ("trigger", ["apex trigger"; "before trigger"; "after trigger"]);
  ("soql", ["salesforce query"; "select from"; "query"]);
  ("rest api", ["restful api"; "rest endpoint"; "/services/data/"]);
  ("bulk api", ["bulk 2.0"; "bulk data load"; "data loader api"]);
  ("permission", ["permission set"; "profile"; "sharing rules"]);
  ("deploy", ["deployment"; "change set"; "metadata deploy"]);
  ("test", ["test class"; "unit test"; "apex test"; "testmethod"]);
  ("callout", ["http callout"; "external callout"; "web service"]);
  ("authentication", ["oauth"; "login"; "sso"; "connected app"]);
  ("governor limits", ["limits"; "dml limits"; "soql limits"])
].

(** ** detectIntent *)

(** An entry of the [scores] map. *)
Record Score := {
  s_weight : Z;
  s_category : str;
  s_subcategory : str
}.

(** The [scores] map keeps its keys in insertion order, which is the
    order [scores.values()] is traversed in. *)
Definition Scores := list (str * Score).

Definition scoreKey (p : IntentPattern) : str :=
  p_category p ++ js ":" ++ p_subcategory p.

(** [existing = scores.get(key) || {weight: 0, ...}; existing.weight += w;
    scores.set(key, existing)] *)
Fixpoint addScore (key : str) (p : IntentPattern) (w : Z) (scores : Scores)
  : Scores :=
  match scores with
  | [] => [ (key, {| s_weight := 0 + w; s_category := p_category p;
                     s_subcategory := p_subcategory p |}) ]
  | (k, sc) :: rest =>
      if bool_decide (k = key)
      then (k, {| s_weight := s_weight sc + w; s_category := s_category sc;
                  s_subcategory := s_subcategory sc |}) :: rest
      else (k, sc) :: addScore key p w rest
  end.

Definition matchedKeywords (queryLower : str) (p : IntentPattern) : list str :=
  List.filter (λ kw, JS.includes queryLower (JS.toLowerCase kw)) (keywords p).

(** State of the scan over the patterns:
    [matchedPatterns], [totalWeight], [scores]. *)
Definition scanState : Type := list str * Z * Scores.

Definition patternStep (queryLower : str) (st : scanState) (p : IntentPattern)
  : scanState :=
  let '(matched, total, scores) := st in
  let mk := matchedKeywords queryLower p in
  if (0 <? length mk)%nat
  then (matched ++ mk,
        total + weight p * Z.of_nat (length mk),
        addScore (scoreKey p) p (weight p * Z.of_nat (length mk)) scores)
  else st.

Definition scanPatterns (queryLower : str) : scanState :=
  fold_left (patternStep queryLower) INTENT_PATTERNS ([], 0, []).

Definition betterScore (best : option Score) (score : Score) : option Score :=
  match best with
  | None => Some score
  | Some b => if s_weight b <? s_weight score then Some score else best
  end.

Definition bestMatch (scores : Scores) : option Score :=
  fold_left betterScore (map snd scores) None.

Definition confidenceOf (totalWeight : Z) : Confidence :=
  if 15 <=? totalWeight then high
  else if 7 <=? totalWeight then medium
  else low.

Definition detectIntent (query : str) : DetectedIntent :=
  let queryLower := JS.toLowerCase query in
  let '(matched, total, scores) := scanPatterns queryLower in
  let best := bestMatch scores in
  {| category := s_category <$> best;
     subcategory := s_subcategory <$> best;
     confidence := confidenceOf total;
     matchedPatterns := JS.uniq matched;
     totalWeight := total |}.

(** ** describeIntent *)

Definition categoryLabels : gmap str str := labels [
  ("core_platform", "Core Platform Development");
  ("apis", "API Reference");
  ("dev_tools", "Development Tools");
  ("clouds", "Cloud Products");
  ("security", "Security & Permissions");
  ("integration", "Integration Patterns");
  ("best_practices", "Best Practices");
  ("release_notes", "Release Notes")
].

Definition subcategoryLabels : gmap str str := labels [
  ("apex", "Apex Development");
  ("lightning", "Lightning (LWC/Aura)");
  ("visualforce", "Visualforce");
  ("soql_sosl", "SOQL/SOSL Queries");
  ("formulas", "Formulas");
  ("rest_api", "REST API");
  ("soap_api", "SOAP API");
  ("metadata_api", "Metadata API");
  ("bulk_api", "Bulk API");
  ("streaming_api", "Streaming API");
  ("tooling_api", "Tooling API");
  ("specialized_apis", "Specialized APIs");
  ("sfdx_cli", "Salesforce CLI");
  ("packaging", "Packaging");
  ("devops", "DevOps");
  ("mobile_sdk", "Mobile SDK");
  ("security", "Security");
  ("integration", "Integration");
  ("sales_cloud", "Sales Cloud");
  ("service_cloud", "Service Cloud");
  ("experience_cloud", "Experience Cloud");
  ("marketing_cloud", "Marketing Cloud");
  ("analytics_cloud", "CRM Analytics");
  ("best_practices", "Best Practices");
  ("release_notes", "Release Notes")
].

(** JavaScript truthiness of an optional string: defined and non-empty. *)
Definition truthy (o : option str) : bool :=
  match o with
  | Some (_ :: _) => true
  | _ => false
  end.

(** [a || b] on strings. *)
Definition orElse (a : option str) (b : str) : str :=
  match a with
  | Some (c :: s) => c :: s
  | _ => b
  end.

Definition describeIntent (intent : DetectedIntent) : str :=
  match category intent with
  | Some (c :: cs) =>
      let cat := c :: cs in
      let categoryLabel := orElse (categoryLabels !! cat) cat in
      let subcategoryLabel :=
        match subcategory intent with
        | Some (s :: ss) => orElse (subcategoryLabels !! (s :: ss)) (s :: ss)
        | _ => []
        end in
      match subcategoryLabel with
      | _ :: _ =>
          if bool_decide (subcategoryLabel = categoryLabel) then categoryLabel
          else categoryLabel ++ js " - " ++ subcategoryLabel
      | [] => categoryLabel
      end
  | _ => js "General Salesforce documentation search"
  end.

(** ** expandQueryToKeywords *)

Definition getCategoryTerms (sub : str) : list str :=
  default []
    (table [
       ("apex", ["trigger"; "class"; "test"; "governor limits"; "batch"; "future"]);
       ("lightning", ["lwc"; "@wire"; "@api"; "component"; "aura"; "lightning-"]);
       ("visualforce", ["apex:page"; "controller"; "extension"; "apex:form"]);
       ("soql_sosl", ["SELECT"; "FROM"; "WHERE"; "relationship"; "aggregate"]);
       ("rest_api", ["endpoint"; "sobject"; "composite"; "JSON"; "HTTP"]);
       ("bulk_api", ["job"; "batch"; "CSV"; "data load"]);
       ("metadata_api", ["package.xml"; "deploy"; "retrieve"; "manifest"]);
       ("streaming_api", ["PushTopic"; "CDC"; "Platform Event"; "subscribe"]);
       ("tooling_api", ["ApexTestRun"; "debug"; "execute anonymous"]);
       ("sfdx_cli", ["sf"; "scratch org"; "source push"; "dev hub"]);
       ("security", ["permission set"; "sharing"; "FLS"; "profile"; "oauth"]);
       ("integration", ["callout"; "HTTP"; "external service"; "named credential"])
     ] !! sub).

Definition buildReasoning (query : str) (intent : DetectedIntent)
    (concepts : list str) : str :=
  let parts1 :=
    match concepts with
    | [] => []
    | _ => [ js "Detected concepts: " ++ JS.join (js ", ") (take 5 concepts) ]
    end in
  let parts2 :=
    match category intent with
    | Some (c :: cs) => [ js "Suggested category: " ++ (c :: cs) ]
    | _ => []
    end in
  let parts3 :=
    match confidence intent with
    | high => [ js "High confidence match - specific documentation area identified" ]
    | medium => [ js "Medium confidence - multiple possible areas detected" ]
    | low => [ js "Low confidence - broad search recommended" ]
    end in
  match JS.join (js ". ") (parts1 ++ parts2 ++ parts3) with
  | [] => js "General search across all documentation"
  | r => r
  end.

(** [s.split(/\s+/).filter(t => t.length > n)] *)
Definition wordsLongerThan (n : nat) (s : str) : list str :=
  List.filter (λ t, (n <? length t)%nat) (Regex.split Chunker.spaces s).

Definition expandQueryToKeywords (query : str) (context : option str)
  : QueryExpansion :=
  let intent := detectIntent query in
  let detectedConcepts := matchedPatterns intent in
  let synonyms :=
    concat (map (λ concept, default [] (SYNONYMS !! JS.toLowerCase concept))
              detectedConcepts) in
  let queryTerms := wordsLongerThan 2 query in
  let contextTerms :=
    match context with
    | Some (c :: cs) => take 5 (wordsLongerThan 2 (c :: cs))
    | _ => []
    end in
  let categoryTerms :=
    match subcategory intent with
    | Some (s :: ss) => getCategoryTerms (s :: ss)
    | _ => []
    end in
  let expanded := synonyms ++ queryTerms ++ contextTerms ++ categoryTerms in
  {| expandedTerms := take 20 (JS.uniq expanded);
     detectedConcepts := JS.uniq detectedConcepts;
     suggestedCategory := category intent;
     x_confidence := confidence intent;
     reasoning := buildReasoning query intent detectedConcepts |}.

End Intent.

(* ================================================================== *)
(** * The persistent store ([src/db/database.ts])

    The sql.js database is modelled by its two tables.  A database
    created by [new Database()] has no tables; every statement over
    [documents] or [chunks] throws on it. *)
(* ================================================================== *)

Module Store.

Record DocumentRow := {
  id : Z;
  file_name : str;
  file_path : str;
  category : str;
  subcategory : option str;
  doc_type : str;
  title : str;
  description : option str;
  keywords : option (list str);   (* the JSON array held by the column *)
  api_version : option str;
  page_count : option Z;
  size_bytes : option Z;
  priority : option Z
}.

Record ChunkRow := {
  document_id : Z;
  chunk_index : Z;
  content : str;
  content_lower : str;
  section_title : option str;
  page_number : option Z
}.

Record Database := {
  hasSchema : bool;
  documents : list DocumentRow;
  chunks : list ChunkRow
}.

(** [new SQL.Database()]: no tables.  It also stands for a database
    read from a torn file: every statement throws on both. *)
Definition emptyDatabase : Database :=
  {| hasSchema := false; documents := []; chunks := [] |}.

(** The file at [DB_PATH]: absent; present but unreadable
    ([readFileSync] throws); torn by a failed write (it reads, but as a
    database on which every statement throws); or holding the export of
    a database.  [db.export()] followed by [new Database(buffer)] gives
    the database back. *)
Inductive Disk :=
| Missing
| Unreadable
| Torn
| File (d : Database).

End Store.

(* ================================================================== *)
(** * Retrieval engine ([src/db/queries.ts]) *)
(* ================================================================== *)

Module Search.
Import Store.

Record SearchOptions := {
  o_category : option str;
  o_subcategory : option str;
  o_docType : option str;
  o_maxResults : option Z;
  o_intent : option str;
  o_keywords : option (list str);
  o_minScore : option Z
}.

Definition noOptions : SearchOptions :=
  {| o_category := None; o_subcategory := None; o_docType := None;
     o_maxResults := None; o_intent := None; o_keywords := None;
     o_minScore := None |}.

Record DocumentMetadata := {
  m_id : Z;
  m_fileName : str;
  m_filePath : str;
  m_category : str;
  m_subcategory : option str;
  m_docType : str;
  m_title : str;
  m_description : option str;
  m_keywords : list str;
  m_apiVersion : option str;
  m_priority : Z
}.

Record IntentInfo := {
  i_category : option str;
  i_subcategory : option str;
  i_confidence : Intent.Confidence;
  i_description : str
}.

Record SearchResult := {
  document : DocumentMetadata;
  chunk : str;
  score : Q;
  matchDensity : Q;
  sectionTitle : option str;
  highlights : list str;
  detectedIntent : option IntentInfo
}.

(** ** Sanitization and tokenization *)

Definition MAX_QUERY_LENGTH : nat := 500.

Definition isAngle (c : ascii) : bool :=
  (JS.code c =? 60)%N || (JS.code c =? 62)%N.

Definition isControl (c : ascii) : bool := (JS.code c <=? 31)%N.

Definition isQuote (c : ascii) : bool := (JS.code c =? 39)%N.

Definition sanitizeQuery (query : str) : str :=
  let query :=
    if (MAX_QUERY_LENGTH <? length query)%nat
    then JS.substring query 0 MAX_QUERY_LENGTH else query in
  let query :=
    JS.trim
      (List.filter (λ c, negb (isControl c))
         (List.filter (λ c, negb (isAngle c)) query)) in
  concat (map (λ c, if isQuote c then [c; c] else [c]) query).

(** [query.toLowerCase().split(/\s+/).filter(w => w.length > 1)] *)
Definition searchTermsOf (query : str) : list str :=
  List.filter (λ w, (1 <? length w)%nat)
    (Regex.split Chunker.spaces (JS.toLowerCase query)).

Definition buildSearchPatterns (query : str) : list str :=
  map (λ w, js "%" ++ w ++ js "%") (searchTermsOf query).

(** ** The storage engine's side of a query *)

(** SQLite folds the case of the 26 ASCII letters only. *)
Definition sqlFold (c : ascii) : ascii :=
  if JS.inRange 65 90 c then ascii_of_N (JS.code c + 32) else c.

Definition isPercent (c : ascii) : bool := (JS.code c =? 37)%N.
Definition isUnderscore (c : ascii) : bool := (JS.code c =? 95)%N.

(** [s LIKE pat]: [%] matches any run of characters, [_] exactly one. *)
Fixpoint like (pat : str) : str → bool :=
  match pat with
  | [] => λ s, match s with [] => true | _ => false end
  | p :: pat' =>
      if isPercent p
      then fix anySuffix (s : str) : bool :=
             like pat' s ||
             match s with
             | [] => false
             | _ :: s' => anySuffix s'
             end
      else λ s,
             match s with
             | [] => false
             | c :: s' =>
                 (isUnderscore p || JS.eqChar (sqlFold p) (sqlFold c))
                 && like pat' s'
             end
  end.

(** [FROM chunks c JOIN documents d ON c.document_id = d.id] *)
Definition joined (d : Database) : list (DocumentRow * ChunkRow) :=
  concat
    (map (λ c,
       map (λ doc, (doc, c))
         (List.filter (λ doc, id doc =? document_id c) (documents d)))
       (chunks d)).

(** A stable sort: [before y x] says that [y] must come strictly before
    [x]; elements that are not ordered keep their relative order. *)
Fixpoint insertBy {A} (before : A → A → bool) (x : A) (l : list A) : list A :=
  match l with
  | [] => [x]
  | y :: l' => if before y x then y :: insertBy before x l' else x :: l
  end.

Definition sortBy {A} (before : A → A → bool) (l : list A) : list A :=
  foldr (insertBy before) [] l.

(** [ORDER BY d.priority DESC]: NULL sorts after every number. *)
Definition priorityBefore (y x : DocumentRow * ChunkRow) : bool :=
  match priority (fst y), priority (fst x) with
  | Some py, Some px => px <? py
  | Some _, None => true
  | None, _ => false
  end.

(** The number bound to [LIMIT ?] must be a 64-bit integer or convert
    to one without loss; on any other the statement throws ("datatype
    mismatch").  Among the integers these are the ones strictly between
    -2^63 and 2^63: the bounds themselves do not pass as numbers of
    JavaScript. *)
Definition bindsLimit (n : Z) : bool := (- 2 ^ 63 <? n) && (n <? 2 ^ 63).

(** [LIMIT n] for an [n] that binds: a negative [n] means no limit. *)
Definition limit {A} (n : Z) (l : list A) : list A :=
  if n <? 0 then l else take (Z.to_nat n) l.

Definition selectRows (d : Database) (patterns : list str)
    (category subcategory : option str) (sampleSize : Z)
  : list (DocumentRow * ChunkRow) :=
  let wanted (r : DocumentRow * ChunkRow) :=
    existsb (λ p, like p (content_lower (snd r))) patterns
    && match category with
       | Some (c :: cs) => bool_decide (Store.category (fst r) = c :: cs)
       | _ => true
       end
    && match subcategory with
       | Some (s :: ss) =>
           bool_decide (Store.subcategory (fst r) = Some (s :: ss))
       | _ => true
       end in
  limit sampleSize (sortBy priorityBefore (List.filter wanted (joined d))).

(** ** Scoring *)

(** [s.indexOf(p)] *)
Fixpoint indexOf (s p : str) : option nat :=
  if JS.startsWith s p then Some 0%nat
  else match s with
       | [] => None
       | _ :: s' => S <$> indexOf s' p
       end.

Definition snippet (content : str) (idx wordLen : nat) : str :=
  let start := (idx - 100)%nat in
  let stop := Nat.min (length content) (idx + wordLen + 100) in
  (if (0 <? start)%nat then js "..." else [])
    ++ JS.substring content start stop
    ++ (if (stop <? length content)%nat then js "..." else []).

Fixpoint highlightLoop (content contentLower : str) (words : list str)
    (acc : list str) : list str :=
  match words with
  | [] => acc
  | word :: rest =>
      match indexOf contentLower word with
      | Some idx =>
          let acc := acc ++ [snippet content idx (length word)] in
          if (2 <=? length acc)%nat then acc
          else highlightLoop content contentLower rest acc
      | None => highlightLoop content contentLower rest acc
      end
  end.

Definition extractHighlights (content query : str) : list str :=
  match content with
  | [] => []
  | _ =>
      highlightLoop content (JS.toLowerCase content)
        (List.filter (λ w, (2 <? length w)%nat)
           (Regex.split Chunker.spaces (JS.toLowerCase query)))
        []
  end.

(** [contentLower.match(new RegExp(escape(term), 'gi'))]: the escaped
    term is a literal, so the matches are its non-overlapping
    occurrences, found from left to right. *)
Definition occurrences (contentLower term : str) : nat :=
  length (Regex.matches (Regex.literal_i term) contentLower).

(** The loop over the search terms: [matchCount], [totalOccurrences]. *)
Definition termStep (contentLower : str) (st : nat * nat) (term : str)
  : nat * nat :=
  let '(matchCount, totalOccurrences) := st in
  if JS.includes contentLower term
  then (S matchCount, (totalOccurrences + occurrences contentLower term)%nat)
  else st.

Definition ofNat (n : nat) : Q := inject_Z (Z.of_nat n).

Definition densityOf (matchCount nTerms : nat) : Q :=
  if (0 <? nTerms)%nat then (ofNat matchCount / ofNat nTerms)%Q else 0%Q.

Definition bonusOf (totalOccurrences : nat) : Q :=
  Qmin (ofNat totalOccurrences * (1 # 10))%Q 2%Q.

(** [(getValue('priority') as number) || 1] *)
Definition priorityOf (d : DocumentRow) : Z :=
  match priority d with
  | Some p => if p =? 0 then 1 else p
  | None => 1
  end.

(** What the closure [executeSearch] captures from [searchDocuments]. *)
Record Ctx := {
  sanitizedQuery : str;
  intent : Intent.DetectedIntent;
  intentDescription : str;
  usedIntentFilter : bool;
  searchPatterns : list str;
  searchTerms : list str
}.

Definition toResult (ctx : Ctx) (r : DocumentRow * ChunkRow) : SearchResult :=
  let '(d, c) := r in
  let contentLower := content_lower c in
  let prio := priorityOf d in
  let '(matchCount, totalOccurrences) :=
    fold_left (termStep contentLower) (searchTerms ctx) (0%nat, 0%nat) in
  let density := densityOf matchCount (length (searchTerms ctx)) in
  let occurrenceBonus := bonusOf totalOccurrences in
  let relevanceScore :=
    (density * 10 + inject_Z prio * (2 # 10) + occurrenceBonus)%Q in
  {| document :=
       {| m_id := id d; m_fileName := file_name d; m_filePath := file_path d;
          m_category := Store.category d; m_subcategory := Store.subcategory d;
          m_docType := doc_type d; m_title := title d;
          m_description := description d;
          m_keywords := default [] (keywords d);
          m_apiVersion := api_version d; m_priority := prio |};
     chunk := content c;
     score := relevanceScore;
     matchDensity := density;
     sectionTitle := section_title c;
     highlights := extractHighlights (content c) (sanitizedQuery ctx);
     detectedIntent :=
       if usedIntentFilter ctx
       then Some {| i_category := Intent.category (intent ctx);
                    i_subcategory := Intent.subcategory (intent ctx);
                    i_confidence := Intent.confidence (intent ctx);
                    i_description := intentDescription ctx |}
       else None |}.

(** [results.sort((a, b) => b.score - a.score)] *)
Definition scoreBefore (y x : SearchResult) : bool :=
  negb (Qle_bool (score y) (score x)).

Definition executeSearch (ctx : Ctx) (d : Database)
    (category subcategory : option str) (sampleSize : Z)
  : list SearchResult :=
  sortBy scoreBefore
    (map (toResult ctx)
       (selectRows d (searchPatterns ctx) category subcategory sampleSize)).

(** ** Fallback widening *)

Definition count {A} (l : list A) : Z := Z.of_nat (length l).

(** Storage events a search can cause. *)
Inductive Event :=
| LoadStore
| Query (category subcategory : option str) (sampleSize : Z).

(** [isFiltered ? Math.max(maxResults * 10, 100)
                : Math.max(maxResults * 50, 500)] *)
Definition sampleSizeFor (effectiveCategory effectiveSubcategory : option str)
    (maxResults : Z) : Z :=
  if Intent.truthy effectiveCategory || Intent.truthy effectiveSubcategory
  then Z.max (maxResults * 10) 100
  else Z.max (maxResults * 50) 500.

(** The body of the [try] block up to the truncation: the result list
    and the queries that were run, in order. *)
Definition widen (ctx : Ctx) (d : Database)
    (effectiveCategory effectiveSubcategory : option str) (maxResults : Z)
  : list SearchResult * list Event :=
  let sampleSize :=
    sampleSizeFor effectiveCategory effectiveSubcategory maxResults in
  let results :=
    executeSearch ctx d effectiveCategory effectiveSubcategory sampleSize in
  let ev1 := [Query effectiveCategory effectiveSubcategory sampleSize] in
  if usedIntentFilter ctx && (count results <? maxResults)
  then
    let categoryResults := executeSearch ctx d effectiveCategory None sampleSize in
    let ev2 := ev1 ++ [Query effectiveCategory None sampleSize] in
    let results :=
      if count results <? count categoryResults then categoryResults
      else results in
    if count results <? maxResults
    then
      let unfilteredResults := executeSearch ctx d None None 500 in
      let ev3 := ev2 ++ [Query None None 500] in
      (if count results <? count unfilteredResults then unfilteredResults
       else results, ev3)
    else (results, ev2)
  else (results, ev1).

(** [results.slice(0, n)] for a JavaScript integer [n]. *)
Definition slice0 {A} (l : list A) (n : Z) : list A :=
  if n <? 0 then take (Z.to_nat (count l + n)) l else take (Z.to_nat n) l.

(** ** The result cache (the [lru-cache] package: [max] 500 entries,
    [ttl] five minutes).  Entries are kept most recently used first. *)

Record CacheKey := {
  k_query : str;
  k_options : SearchOptions;
  k_effectiveCategory : option str;
  k_effectiveSubcategory : option str
}.

Global Instance SearchOptions_eq_dec : EqDecision SearchOptions.
Proof. solve_decision. Defined.

Global Instance CacheKey_eq_dec : EqDecision CacheKey.
Proof. solve_decision. Defined.

Record Entry := {
  e_key : CacheKey;
  e_value : list SearchResult;
  e_start : Z
}.

Definition Cache := list Entry.

Definition CACHE_MAX : nat := 500.
Definition CACHE_TTL : Z := 1000 * 60 * 5.

Definition hasKey (k : CacheKey) (e : Entry) : bool := bool_decide (e_key e = k).

Definition cacheDelete (k : CacheKey) (c : Cache) : Cache :=
  List.filter (λ e, negb (hasKey k e)) c.

(** [!!ttl && !!start && now - start > ttl]: the [ttl] is not zero; an
    entry started while the clock read 0 never becomes stale. *)
Definition isStale (now : Z) (e : Entry) : bool :=
  negb (e_start e =? 0) && (CACHE_TTL <? now - e_start e).

(** [cache.get(k)]: a stale entry is deleted and reported as absent; a
    live one becomes the most recently used. *)
Definition cacheGet (now : Z) (k : CacheKey) (c : Cache)
  : option (list SearchResult) * Cache :=
  match List.find (hasKey k) c with
  | None => (None, c)
  | Some e =>
      if isStale now e then (None, cacheDelete k c)
      else (Some (e_value e), e :: cacheDelete k c)
  end.

(** [cache.set(k, v)]: the entry is (re)started at [now]; a new key in a
    full cache evicts the least recently used entry. *)
Definition cacheSet (now : Z) (k : CacheKey) (v : list SearchResult)
    (c : Cache) : Cache :=
  let e := {| e_key := k; e_value := v; e_start := now |} in
  match List.find (hasKey k) c with
  | Some _ => e :: cacheDelete k c
  | None =>
      if (CACHE_MAX <=? length c)%nat then e :: removelast c else e :: c
  end.

(** ** Module state and [getDatabase] *)

Record World := {
  SQL : bool;                 (* the sql.js module has been initialised *)
  db : option Database;       (* the memory-resident store *)
  searchCache : Cache;
  trace : list Event
}.

Definition initialWorld : World :=
  {| SQL := false; db := None; searchCache := []; trace := [] |}.

(** What the environment answers: whether [initSqlJs()] resolves, and
    the file at [DB_PATH]. *)
Record Env := {
  sqlLoads : bool;
  disk : Disk
}.

Inductive Outcome :=
| Ok (results : list SearchResult)
| LoadFailed
| SearchFailed.

Definition getDatabase (env : Env) (w : World) : option Database * World :=
  match db w with
  | Some d => (Some d, w)
  | None =>
      if SQL w || sqlLoads env
      then
        let w1 := {| SQL := true; db := None; searchCache := searchCache w;
                     trace := trace w ++ [LoadStore] |} in
        match disk env with
        | File d =>
            (Some d, {| SQL := true; db := Some d;
                        searchCache := searchCache w1; trace := trace w1 |})
        | Missing =>
            (Some emptyDatabase,
             {| SQL := true; db := Some emptyDatabase;
                searchCache := searchCache w1; trace := trace w1 |})
        | Torn =>
            (Some emptyDatabase,
             {| SQL := true; db := Some emptyDatabase;
                searchCache := searchCache w1; trace := trace w1 |})
        | Unreadable => (None, w1)
        end
      else (None, w)
  end.

(** ** searchDocuments *)

(** Filter resolution: the effective category and subcategory, and
    whether the intent filter was used. *)
Definition resolveFilters (options : SearchOptions)
    (intent : Intent.DetectedIntent) : option str * option str * bool :=
  if negb (Intent.truthy (o_category options))
     && negb (Intent.truthy (o_subcategory options))
     && negb (bool_decide (Intent.confidence intent = Intent.low))
     && Intent.truthy (Intent.subcategory intent)
  then (Intent.category intent, Intent.subcategory intent, true)
  else (o_category options, o_subcategory options, false).

(** [options.maxResults || 5] *)
Definition maxResultsOf (options : SearchOptions) : Z :=
  match o_maxResults options with
  | Some n => if n =? 0 then 5 else n
  | None => 5
  end.

(** The values [searchDocuments] derives from the sanitized query. *)
Definition ctxFor (sanitized : str) (options : SearchOptions) : Ctx :=
  let intent := Intent.detectIntent sanitized in
  {| sanitizedQuery := sanitized;
     intent := intent;
     intentDescription := Intent.describeIntent intent;
     usedIntentFilter := snd (resolveFilters options intent);
     searchPatterns := buildSearchPatterns sanitized;
     searchTerms := searchTermsOf sanitized |}.

Definition ctxOf (query : str) (options : SearchOptions) : Ctx :=
  ctxFor (sanitizeQuery query) options.

Definition cacheKeyOf (query : str) (options : SearchOptions) : CacheKey :=
  let ctx := ctxOf query options in
  let '(effectiveCategory, effectiveSubcategory, _) :=
    resolveFilters options (intent ctx) in
  {| k_query := sanitizedQuery ctx; k_options := options;
     k_effectiveCategory := effectiveCategory;
     k_effectiveSubcategory := effectiveSubcategory |}.

Definition withCache (w : World) (c : Cache) : World :=
  {| SQL := SQL w; db := db w; searchCache := c; trace := trace w |}.

Definition withTrace (w : World) (evs : list Event) : World :=
  {| SQL := SQL w; db := db w; searchCache := searchCache w;
     trace := trace w ++ evs |}.

Definition searchDocuments (env : Env) (now : Z) (query : str)
    (options : SearchOptions) (w : World) : Outcome * World :=
  match getDatabase env w with
  | (None, w) => (LoadFailed, w)
  | (Some d, w) =>
      let ctx := ctxOf query options in
      let '(effectiveCategory, effectiveSubcategory, _) :=
        resolveFilters options (intent ctx) in
      let cacheKey := cacheKeyOf query options in
      match cacheGet now cacheKey (searchCache w) with
      | (Some cached, c) => (Ok cached, withCache w c)
      | (None, c) =>
          let w := withCache w c in
          let maxResults := maxResultsOf options in
          match searchPatterns ctx with
          | [] => (Ok [], w)
          | _ =>
              (* the first statement throws when the tables are missing
                 and when its sample size does not bind to LIMIT; the
                 later ones take the same sample size, or 500 *)
              let sampleSize :=
                sampleSizeFor effectiveCategory effectiveSubcategory
                  maxResults in
              if hasSchema d && bindsLimit sampleSize
              then
                let '(results, evs) :=
                  widen ctx d effectiveCategory effectiveSubcategory
                    maxResults in
                let topResults := slice0 results maxResults in
                let w := withTrace w evs in
                (Ok topResults,
                 withCache w (cacheSet now cacheKey topResults (searchCache w)))
              else
                (SearchFailed,
                 withTrace w
                   [Query effectiveCategory effectiveSubcategory sampleSize])
          end
      end
  end.

(** The list a cache miss computes, and stores, for a key. *)
Definition computed (d : Database) (k : CacheKey) : list SearchResult :=
  let maxResults := maxResultsOf (k_options k) in
  slice0
    (fst (widen (ctxFor (k_query k) (k_options k)) d
            (k_effectiveCategory k) (k_effectiveSubcategory k) maxResults))
    maxResults.

(** Worlds a process can be in: it starts in [initialWorld] and runs
    searches. *)
Inductive reachable : World → Prop :=
| reach_init : reachable initialWorld
| reach_search env now query options w :
    reachable w →
    reachable (snd (searchDocuments env now query options w)).

End Search.

(* ================================================================== *)
(** * Index builder ([scripts/build-index.ts]) *)
(* ================================================================== *)

Module Build.
Import Store.

(** The classification [categorizeDocument] gives a file name. *)
Record Classification := {
  cl_category : str;
  cl_subcategory : str;
  cl_docType : str;
  cl_priority : Z;
  cl_keywords : list str
}.

(** A PDF found by [findPdfs]: its path, its base name, and what
    reading, parsing and cleaning it gives -- the cleaned text, the page
    count and the file size -- or [None] when one of them throws. *)
Record Pdf := {
  pdf_path : str;
  pdf_name : str;
  pdf_text : option (str * Z * Z)
}.

(** The file system as the builder sees it. *)
Record FS := {
  dataDir : bool;      (* [DATA_DIR] exists *)
  dbFile : Disk        (* the file at [DB_PATH] *)
}.

(** What the environment answers during one run. *)
Record Env := {
  mkdirOk : bool;                    (* [mkdirSync(DATA_DIR)] succeeds *)
  unlinkOk : bool;                   (* [unlinkSync(DB_PATH)] succeeds *)
  sqlLoads : bool;                   (* [initSqlJs()] resolves *)
  pdfDir : option (list Pdf);        (* [findPdfs(PDF_DIR)], [None] if it throws *)
  releaseNotesDir : option (list Pdf);
  exportOk : bool;                   (* the count queries and [db.export()] succeed *)
  writeOk : bool;                    (* [writeFileSync(DB_PATH, buffer)] succeeds *)
  tornWrite : bool                   (* a failed write leaves a partial file *)
}.

Record Stats := {
  documentsIndexed : nat;
  documentsFailed : nat;
  totalChunks : nat
}.

Inductive Stage :=
| AtMkdir | AtUnlink | AtInitSql | AtScan | AtExport | AtWrite.

Inductive Outcome :=
| Built (s : Stats)
| Failed (at_ : Stage).

Section Builder.

(** [categorizeDocument] and [generateTitle] only look at the file
    name; what they compute plays no part below. *)
Variable categorizeDocument : str → Classification.
Variable generateTitle : str → str.

(** The schema statements of [buildIndex]. *)
Definition createSchema (d : Database) : Database :=
  {| hasSchema := true; documents := documents d; chunks := chunks d |}.

(** [INSERT INTO documents ...]: fails on a duplicate [file_name]; the
    new row gets the next [AUTOINCREMENT] id. *)
Definition insertDocument (d : Database) (p : Pdf) (pages size : Z)
  : option (Z * Database) :=
  if existsb (λ r, bool_decide (file_name r = pdf_name p)) (documents d)
  then None
  else
    let cl := categorizeDocument (pdf_name p) in
    let newId := Z.of_nat (length (documents d)) + 1 in
    let row :=
      {| id := newId; file_name := pdf_name p; file_path := pdf_path p;
         category := cl_category cl; subcategory := Some (cl_subcategory cl);
         doc_type := cl_docType cl; title := generateTitle (pdf_name p);
         description := None; keywords := Some (cl_keywords cl);
         api_version := None;
         page_count := Some pages;
         size_bytes := Some size; priority := Some (cl_priority cl) |} in
    Some (newId,
          {| hasSchema := hasSchema d; documents := documents d ++ [row];
             chunks := chunks d |}).

Definition insertChunk (documentId : Z) (d : Database) (c : Chunker.Chunk)
  : Database :=
  if (50 <? length (Chunker.content c))%nat
  then
    {| hasSchema := hasSchema d; documents := documents d;
       chunks := chunks d ++
         [ {| document_id := documentId;
              chunk_index := Z.of_nat (Chunker.index c);
              content := Chunker.content c;
              content_lower := JS.toLowerCase (Chunker.content c);
              section_title :=
                match Chunker.sectionTitle c with
                | Some (t :: ts) => Some (t :: ts)
                | _ => None
                end;
              page_number := None |} ] |}
  else d.

(** [{ maxChunkSize: 1500, overlapSize: 150 }] *)
Definition BUILD_OPTIONS : Chunker.ChunkOptions := Chunker.sizes 1500 150.

(** [processPdf]: every failure is caught and reported as [false]. *)
Definition processPdf (d : Database) (p : Pdf) : bool * Database :=
  match pdf_text p with
  | None => (false, d)
  | Some (text, pages, size) =>
      if (length text <? 100)%nat then (false, d)
      else
        match insertDocument d p pages size with
        | None => (false, d)
        | Some (documentId, d) =>
            (true,
             fold_left (insertChunk documentId)
               (Chunker.chunkText text BUILD_OPTIONS) d)
        end
  end.

(** The loop over the PDFs: the database, [successCount], [failCount]. *)
Definition pdfStep (st : Database * nat * nat) (p : Pdf)
  : Database * nat * nat :=
  let '(d, successCount, failCount) := st in
  let '(ok, d) := processPdf d p in
  if ok then (d, S successCount, failCount) else (d, successCount, S failCount).

Definition processAll (pdfs : list Pdf) : Database * nat * nat :=
  fold_left pdfStep pdfs (createSchema emptyDatabase, 0%nat, 0%nat).

Definition withDbFile (fs : FS) (f : Disk) : FS :=
  {| dataDir := dataDir fs; dbFile := f |}.

Definition buildIndex (env : Env) (fs : FS) : Outcome * FS :=
  (* if (!existsSync(DATA_DIR)) mkdirSync(DATA_DIR) *)
  if negb (dataDir fs) && negb (mkdirOk env) then (Failed AtMkdir, fs)
  else
    let fs := {| dataDir := true; dbFile := dbFile fs |} in
    (* if (existsSync(DB_PATH)) unlinkSync(DB_PATH) *)
    let exists_ := match dbFile fs with Missing => false | _ => true end in
    if exists_ && negb (unlinkOk env) then (Failed AtUnlink, fs)
    else
      let fs := withDbFile fs Missing in
      (* const SQL = await initSqlJs() *)
      if negb (sqlLoads env) then (Failed AtInitSql, fs)
      else
        (* [...findPdfs(PDF_DIR), ...findPdfs(RELEASE_NOTES_DIR)] *)
        match pdfDir env, releaseNotesDir env with
        | Some pdfs, Some notes =>
            let '(d, successCount, failCount) := processAll (pdfs ++ notes) in
            (* db.exec("SELECT COUNT(*) ..."); const data = db.export() *)
            if negb (exportOk env) then (Failed AtExport, fs)
            else
            (* writeFileSync(DB_PATH, Buffer.from(data)) *)
            if writeOk env
            then
              (Built {| documentsIndexed := successCount;
                        documentsFailed := failCount;
                        totalChunks := length (chunks d) |},
               withDbFile fs (File d))
            else
              (Failed AtWrite,
               withDbFile fs (if tornWrite env then Torn else Missing))
        | _, _ => (Failed AtScan, fs)
        end.

End Builder.

End Build.

(* ================================================================== *)
(** * Notions the stated properties use *)
(* ================================================================== *)

Module Spec.

(** The weight a query accumulates over the whole pattern table: every
    pattern contributes its weight times the number of its trigger
    phrases found in the query. *)
Definition accumulatedWeight (query : str) : Z :=
  foldr Z.add 0
    (map (λ p, Intent.weight p *
               Z.of_nat (length (Intent.matchedKeywords (JS.toLowerCase query) p)))
       Intent.INTENT_PATTERNS).

(** The weight of the winning (category, subcategory) pair. *)
Definition winnerWeight (query : str) : option Z :=
  Intent.s_weight <$>
    Intent.bestMatch (snd (Intent.scanPatterns (JS.toLowerCase query))).

(** The length of the longest run of non-whitespace characters of a
    text -- its longest word; [cur] counts the run in progress. *)
Fixpoint longestWordFrom (cur : nat) (s : str) : nat :=
  match s with
  | [] => cur
  | c :: s' =>
      if JS.isWhiteSpace c then Nat.max cur (longestWordFrom 0 s')
      else longestWordFrom (S cur) s'
  end.

Definition longestWord (s : str) : nat := longestWordFrom 0 s.

(** [w] is a contiguous piece of [s]. *)
Definition infix (w s : str) : Prop := ∃ a b, s = a ++ w ++ b.

(** [w] holds no whitespace. *)
Definition spaceless (w : str) : Prop :=
  Forall (λ c, JS.isWhiteSpace c = false) w.

(** Every string of [l] has at most [B] characters. *)
Definition within (B : Z) (l : list str) : Prop :=
  Forall (λ c, Chunker.len c ≤ B) l.

(** The invariant of the chunker's packing loops: the chunks pushed so
    far and the running buffer have at most [B] characters. *)
Definition packed (B : Z) (st : Chunker.packState) : Prop :=
  within B (fst st) ∧ Chunker.len (snd st) ≤ B.

(** Every spaceless piece of [s] -- every word the chunker can cut out
    of it -- fits in [maxChunkSize]. *)
Definition wordsFit (opts : Chunker.Options) (s : str) : Prop :=
  ∀ w, spaceless w → infix w s → Chunker.len w ≤ Chunker.maxChunkSize opts.

(** The sections are pieces of the text. *)
Definition sectionsIn (text : str) (ss : list Chunker.section) : Prop :=
  Forall (λ s, infix (Chunker.body s) text) ss.

(** The query terms a chunk contains, one entry per term of the query
    (a term the query repeats is listed as often as it is repeated). *)
Definition foundTerms (contentLower : str) (terms : list str) : list str :=
  List.filter (JS.includes contentLower) terms.

(** The occurrences of the found terms in the chunk, summed. *)
Definition totalOccurrences (contentLower : str) (terms : list str) : nat :=
  foldr Nat.add 0%nat
    (map (Search.occurrences contentLower) (foundTerms contentLower terms)).


(** What a search answers for a query over a loaded store: nothing for
    an empty term list, and otherwise the list computed for its key. *)
Definition answer (d : Store.Database) (query : str)
    (options : Search.SearchOptions) : list Search.SearchResult :=
  match Search.searchTermsOf (Search.sanitizeQuery query) with
  | [] => []
  | _ => Search.computed d (Search.cacheKeyOf query options)
  end.

(** The sample size of the first statement of the search of a key, and
    whether a store runs that statement: its tables exist and the
    sample size binds to [LIMIT]. *)
Definition sampleSizeOf (k : Search.CacheKey) : Z :=
  Search.sampleSizeFor (Search.k_effectiveCategory k)
    (Search.k_effectiveSubcategory k) (Search.maxResultsOf (Search.k_options k)).

Definition runs (d : Store.Database) (k : Search.CacheKey) : bool :=
  Store.hasSchema d && Search.bindsLimit (sampleSizeOf k).

(** A cache entry agrees with the loaded store: it belongs to a query
    with at least one term, the store runs its search, and it holds the
    list computed for its key. *)
Definition entryOk (db : option Store.Database) (e : Search.Entry) : Prop :=
  ∃ d, db = Some d ∧
       runs d (Search.e_key e) = true ∧
       Search.searchTermsOf (Search.k_query (Search.e_key e)) ≠ [] ∧
       Search.e_value e = Search.computed d (Search.e_key e).

Definition coherent (w : Search.World) : Prop :=
  Forall (entryOk (Search.db w)) (Search.searchCache w).

(** The score the specification words: ten times the match density
    plus a fifth of the priority plus the capped occurrence bonus. *)
Definition scoreFormula (density : Q) (priority : Z) (occurrences : nat) : Q :=
  (10 * density + (2 # 10) * inject_Z priority
   + Qmin ((1 # 10) * Search.ofNat occurrences) 2)%Q.

(** The match density counting every term of the query, repeated or
    not: found terms over all terms. *)
Definition density (contentLower : str) (terms : list str) : Q :=
  (Search.ofNat (length (foundTerms contentLower terms))
   / Search.ofNat (length terms))%Q.



Section Cases.
Import Store Search.

(** The five ways a search can end. *)
Inductive searchCase (env : Env) (now : Z) (q : str) (o : SearchOptions)
    (w : World) : Outcome → World → Prop :=
| case_load_failed w1 :
    getDatabase env w = (None, w1) →
    searchCase env now q o w LoadFailed w1
| case_hit d w1 cached c :
    getDatabase env w = (Some d, w1) →
    cacheGet now (cacheKeyOf q o) (searchCache w1) = (Some cached, c) →
    searchCase env now q o w (Ok cached) (withCache w1 c)
| case_empty d w1 c :
    getDatabase env w = (Some d, w1) →
    cacheGet now (cacheKeyOf q o) (searchCache w1) = (None, c) →
    searchTermsOf (sanitizeQuery q) = [] →
    searchCase env now q o w (Ok []) (withCache w1 c)
| case_computed d w1 c :
    getDatabase env w = (Some d, w1) →
    cacheGet now (cacheKeyOf q o) (searchCache w1) = (None, c) →
    searchTermsOf (sanitizeQuery q) ≠ [] →
    runs d (cacheKeyOf q o) = true →
    searchCase env now q o w (Ok (computed d (cacheKeyOf q o)))
      (withCache
         (withTrace (withCache w1 c)
            (snd (widen (ctxOf q o) d (k_effectiveCategory (cacheKeyOf q o))
                    (k_effectiveSubcategory (cacheKeyOf q o)) (maxResultsOf o))))
         (cacheSet now (cacheKeyOf q o) (computed d (cacheKeyOf q o)) c))
| case_query_failed d w1 c :
    getDatabase env w = (Some d, w1) →
    cacheGet now (cacheKeyOf q o) (searchCache w1) = (None, c) →
    searchTermsOf (sanitizeQuery q) ≠ [] →
    runs d (cacheKeyOf q o) = false →
    searchCase env now q o w SearchFailed
      (withTrace (withCache w1 c)
         [Query (k_effectiveCategory (cacheKeyOf q o))
            (k_effectiveSubcategory (cacheKeyOf q o))
            (sampleSizeFor (k_effectiveCategory (cacheKeyOf q o))
               (k_effectiveSubcategory (cacheKeyOf q o)) (maxResultsOf o))]).


End Cases.

End Spec.

(* ================================================================== *)
(** * A small store to run the definitions on *)
(* ================================================================== *)

Module Sample.
Import Store Search.

Definition doc (i : Z) (cat sub : string) (p : Z) : DocumentRow :=
  {| id := i; file_name := js "guide.pdf"; file_path := js "docs/pdfs/guide.pdf";
     category := js cat; subcategory := Some (js sub);
     doc_type := js "developer_guide"; title := js "Guide";
     description := None; keywords := Some []; api_version := None;
     page_count := Some 1; size_bytes := Some 1; priority := Some p |}.

Definition chk (d i : Z) (c : string) : ChunkRow :=
  {| document_id := d; chunk_index := i; content := js c;
     content_lower := JS.toLowerCase (js c); section_title := None;
     page_number := None |}.

Definition database : Database :=
  {| hasSchema := true;
     documents := [doc 1 "core_platform" "apex" 9; doc 2 "apis" "rest_api" 10];
     chunks := [chk 1 0 "Apex rocks apex"; chk 1 1 "Triggers in Apex are fun";
                chk 2 0 "REST API with apex callouts"; chk 2 1 "nothing here"] |}.

Definition env : Env := {| sqlLoads := true; disk := File database |}.

(** An environment whose store file cannot be read. *)
Definition brokenEnv : Env := {| sqlLoads := true; disk := Unreadable |}.

Definition withMax (n : Z) : SearchOptions :=
  {| o_category := None; o_subcategory := None; o_docType := None;
     o_maxResults := Some n; o_intent := None; o_keywords := None;
     o_minScore := None |}.

(** The builder's default classification and a title function, to run
    the builder on. *)
Definition classify (fileName : str) : Build.Classification :=
  {| Build.cl_category := js "core_platform";
     Build.cl_subcategory := js "general";
     Build.cl_docType := js "developer_guide";
     Build.cl_priority := 5;
     Build.cl_keywords := [] |}.

Definition titleOf (fileName : str) : str := fileName.

End Sample.

(* ================================================================== *)
(** * Document lookups ([src/db/queries.ts], [src/db/database.ts]) *)
(* ================================================================== *)

Module Lookup.
Import Store Search.

(** The outcome of a call that can throw. *)
Inductive Res (A : Type) : Type :=
| Thrown
| Returned (a : A).

Arguments Thrown {A}.
Arguments Returned {A} a.

(** [const db = await getDatabase()] followed by statements over the
    tables: the call throws when the store cannot be loaded and when the
    tables are missing. *)
Definition withDatabase {A} (env : Env) (w : World) (f : Database → A)
  : Res A * World :=
  match getDatabase env w with
  | (None, w) => (Thrown, w)
  | (Some d, w) => (if hasSchema d then Returned (f d) else Thrown, w)
  end.

(** The lookups return the first row of the statement, copied column by
    column into an object; the [keywords] of the object are the parsed
    column, and the empty array when the column is NULL.  A statement
    without [ORDER BY] scans its table, so its rows come in table
    order. *)
Definition keywordsOf (r : DocumentRow) : list str := default [] (keywords r).

(** [SELECT * FROM documents WHERE id = ?] *)
Definition selectById (d : Database) (k : Z) : list DocumentRow :=
  List.filter (λ r, id r =? k) (documents d).

Definition getDocumentById (env : Env) (k : Z) (w : World)
  : Res (option DocumentRow) * World :=
  withDatabase env w (λ d, head (selectById d k)).

(** [SELECT * FROM documents WHERE file_name LIKE ? OR file_name = ?]
    bound to [%fileName%] and [fileName]. *)
Definition selectByFileName (d : Database) (fileName : str)
  : list DocumentRow :=
  List.filter
    (λ r, like (js "%" ++ fileName ++ js "%") (file_name r)
          || bool_decide (file_name r = fileName))
    (documents d).

Definition getDocumentByFileName (env : Env) (fileName : str) (w : World)
  : Res (option DocumentRow) * World :=
  withDatabase env w (λ d, head (selectByFileName d fileName)).

(** [ORDER BY chunk_index] *)
Definition indexBefore (y x : ChunkRow) : bool :=
  chunk_index y <? chunk_index x.

(** [SELECT content, section_title FROM chunks WHERE document_id = ?],
    with [AND section_title LIKE ?] bound to [%section%] when a
    non-empty section is given, [ORDER BY chunk_index].  A NULL section
    title matches no pattern. *)
Definition selectContent (d : Database) (documentId : Z)
    (section : option str) : list ChunkRow :=
  sortBy indexBefore
    (List.filter
       (λ c, (document_id c =? documentId)
             && match section with
                | Some (s :: ss) =>
                    match section_title c with
                    | Some t => like (js "%" ++ (s :: ss) ++ js "%") t
                    | None => false
                    end
                | _ => true
                end)
       (chunks d)).

(** [sectionTitle ? `## ${sectionTitle}\n\n${content}` : content] *)
Definition render (c : ChunkRow) : str :=
  match section_title c with
  | Some (t :: ts) => js "## " ++ (t :: ts) ++ [JS.LF; JS.LF] ++ content c
  | _ => content c
  end.

Definition getDocumentContent (env : Env) (documentId : Z)
    (section : option str) (w : World) : Res str * World :=
  withDatabase env w
    (λ d, match selectContent d documentId section with
          | [] => []
          | rows => JS.join [JS.LF; JS.LF] (map render rows)
          end).

(** The order of two strings in a text column: code unit by code unit,
    a proper prefix first. *)
Fixpoint strLt (a b : str) : bool :=
  match a, b with
  | _, [] => false
  | [], _ :: _ => true
  | x :: a', y :: b' =>
      (JS.code x <? JS.code y)%N || ((JS.code x =? JS.code y)%N && strLt a' b')
  end.

(** [ORDER BY priority DESC, title]: NULL priorities come last. *)
Definition documentBefore (y x : DocumentRow) : bool :=
  match priority y, priority x with
  | Some py, Some px => (px <? py) || ((px =? py) && strLt (title y) (title x))
  | Some _, None => true
  | None, Some _ => false
  | None, None => strLt (title y) (title x)
  end.

(** A statement with [LIMIT ?] throws on a number that does not bind. *)
Definition withLimit {A} (n : Z) (r : Res A * World) : Res A * World :=
  if bindsLimit n then r else (Thrown, snd r).

(** [getDocumentsByCategory(category, limit = 20)] *)
Definition getDocumentsByCategory (env : Env) (category : str)
    (limit : option Z) (w : World) : Res (list DocumentRow) * World :=
  withLimit (default 20 limit)
    (withDatabase env w
       (λ d, Search.limit (default 20 limit)
               (sortBy documentBefore
                  (List.filter (λ r, bool_decide (Store.category r = category))
                     (documents d))))).

Record DocumentSummary := {
  s_id : Z;
  s_fileName : str;
  s_title : str;
  s_description : str;
  s_category : str;
  s_subcategory : str;
  s_keywords : list str
}.

Definition toSummary (r : DocumentRow) : DocumentSummary :=
  {| s_id := id r;
     s_fileName := file_name r;
     s_title := match title r with [] => file_name r | t => t end;
     s_description := Intent.orElse (description r) [];
     s_category := Store.category r;
     s_subcategory := Intent.orElse (subcategory r) [];
     s_keywords := keywordsOf r |}.

(** [getDocumentSummaries(category?, limit = 20)]: the category filter
    is applied when a non-empty category is given. *)
Definition getDocumentSummaries (env : Env) (category : option str)
    (limit : option Z) (w : World) : Res (list DocumentSummary) * World :=
  withLimit (default 20 limit)
    (withDatabase env w
       (λ d, map toSummary
               (Search.limit (default 20 limit)
                  (sortBy documentBefore
                     (List.filter
                        (λ r, match category with
                              | Some (c :: cs) =>
                                  bool_decide (Store.category r = c :: cs)
                              | _ => true
                              end)
                        (documents d)))))).

(** [isDatabaseIndexed]: whether the documents table holds a row;
    [false] when anything throws. *)
Definition isDatabaseIndexed (env : Env) (w : World) : bool * World :=
  match getDatabase env w with
  | (None, w) => (false, w)
  | (Some d, w) => (hasSchema d && (0 <? Z.of_nat (length (documents d))), w)
  end.

End Lookup.

(* ================================================================== *)
(** * The builder's catalogue of file names
      ([scripts/build-index.ts], [src/types.ts]) *)
(* ================================================================== *)

Module Catalog.
Import Regex.

Inductive DocCategory :=
| CORE_PLATFORM | APIS | DEV_TOOLS | CLOUDS | SECURITY | INTEGRATION
| BEST_PRACTICES | RELEASE_NOTES.

Definition categoryValue (c : DocCategory) : str :=
  js match c with
     | CORE_PLATFORM => "core_platform"
     | APIS => "apis"
     | DEV_TOOLS => "dev_tools"
     | CLOUDS => "clouds"
     | SECURITY => "security"
     | INTEGRATION => "integration"
     | BEST_PRACTICES => "best_practices"
     | RELEASE_NOTES => "release_notes"
     end.

Inductive DocType :=
| DEVELOPER_GUIDE | API_REFERENCE | CHEATSHEET | IMPLEMENTATION_GUIDE
| RELEASE_NOTES_DOC | WORKBOOK.

Definition docTypeValue (t : DocType) : str :=
  js match t with
     | DEVELOPER_GUIDE => "developer_guide"
     | API_REFERENCE => "api_reference"
     | CHEATSHEET => "cheatsheet"
     | IMPLEMENTATION_GUIDE => "implementation_guide"
     | RELEASE_NOTES_DOC => "release_notes"
     | WORKBOOK => "workbook"
     end.

(** The file-name patterns are alternations of literals under the [i]
    flag; one alternative, [^api\.], is anchored at the start of the
    name. *)
Inductive alternative :=
| anywhere (t : string)
| atStart (t : string).

Definition testAlternative (a : alternative) (s : str) : bool :=
  match a with
  | anywhere t =>
      match exec (literal_i (js t)) s 0 with Some _ => true | None => false end
  | atStart t =>
      match matchAt (literal_i (js t)) s 0 with Some _ => true | None => false end
  end.

(** [pattern.test(fileName)]: some alternative matches somewhere. *)
Definition test (pattern : list alternative) (s : str) : bool :=
  existsb (λ a, testAlternative a s) pattern.

Record DocumentPattern := {
  pattern : list alternative;
  category : DocCategory;
  subcategory : str;
  docType : DocType;
  priority : Z;
  keywords : list str
}.

Definition rule (alts : list string) (c : DocCategory) (sub : string)
    (t : DocType) (p : Z) (kws : list string) : DocumentPattern :=
  {| pattern := map anywhere alts; category := c; subcategory := js sub;
     docType := t; priority := p; keywords := jss kws |}.

Definition DOCUMENT_PATTERNS : list DocumentPattern := [
  rule ["apex"] CORE_PLATFORM "apex" DEVELOPER_GUIDE 9
    ["apex"; "class"; "trigger"; "dml"];
  rule ["lwc"; "lightning"] CORE_PLATFORM "lightning" DEVELOPER_GUIDE 9
    ["lwc"; "lightning"; "component"; "aura"];
  rule ["visualforce"; "pages_dev"] CORE_PLATFORM "visualforce" DEVELOPER_GUIDE 7
    ["visualforce"; "page"; "controller"];
  rule ["soql"; "sosl"; "query"] CORE_PLATFORM "soql_sosl" DEVELOPER_GUIDE 9
    ["soql"; "sosl"; "query"; "search"];
  rule ["formula"; "validation"] CORE_PLATFORM "formulas" DEVELOPER_GUIDE 7
    ["formula"; "validation"];
  rule ["api_rest"; "rest_api"] APIS "rest_api" API_REFERENCE 10
    ["rest"; "api"; "http"; "endpoint"];
  rule ["bulk"] APIS "bulk_api" API_REFERENCE 8
    ["bulk"; "api"; "data loading"];
  rule ["meta"] APIS "metadata_api" API_REFERENCE 9
    ["metadata"; "deploy"; "retrieve"];
  rule ["tooling"] APIS "tooling_api" API_REFERENCE 8
    ["tooling"; "api"; "development"];
  rule ["streaming"; "platform_events"; "change_data"] APIS "streaming_api"
    API_REFERENCE 8 ["streaming"; "events"; "cdc"];
  {| pattern := [atStart "api."; anywhere "sforce_api"; anywhere "soap"];
     category := APIS; subcategory := js "soap_api";
     docType := API_REFERENCE; priority := 7;
     keywords := jss ["soap"; "api"; "wsdl"] |};
  rule ["chatter"] APIS "chatter_api" API_REFERENCE 6
    ["chatter"; "social"; "feed"];
  rule ["analytics"; "bi_dev"] APIS "analytics_api" API_REFERENCE 7
    ["analytics"; "tableau"; "reports"];
  rule ["sfdx"; "sf_cli"] DEV_TOOLS "sfdx_cli" DEVELOPER_GUIDE 9
    ["sfdx"; "cli"; "scratch org"; "deploy"];
  rule ["pkg"; "package"; "isv"] DEV_TOOLS "packaging" DEVELOPER_GUIDE 8
    ["package"; "2gp"; "1gp"; "managed"];
  rule ["devops"; "migration"] DEV_TOOLS "devops" DEVELOPER_GUIDE 7
    ["devops"; "ci/cd"; "pipeline"];
  rule ["mobile"; "sdk"] DEV_TOOLS "mobile_sdk" DEVELOPER_GUIDE 6
    ["mobile"; "sdk"; "ios"; "android"];
  rule ["sales_"; "cpq"] CLOUDS "sales_cloud" DEVELOPER_GUIDE 7
    ["sales"; "opportunity"; "cpq"; "quote"];
  rule ["service_"; "case"; "chat"; "voice"; "field_service"; "knowledge"]
    CLOUDS "service_cloud" DEVELOPER_GUIDE 7
    ["service"; "case"; "knowledge"; "chat"];
  rule ["communities"; "experience"; "exp_cloud"] CLOUDS "experience_cloud"
    DEVELOPER_GUIDE 7 ["community"; "experience"; "portal"; "site"];
  rule ["marketing"; "buddymedia"; "radian"] CLOUDS "marketing_cloud"
    DEVELOPER_GUIDE 5 ["marketing"; "campaign"; "email"];
  rule ["health"; "fsc"; "insurance"; "automotive"; "edu_cloud"; "nonprofit";
        "life_sciences"; "media"; "retail"; "mfg"]
    CLOUDS "industry_clouds" DEVELOPER_GUIDE 6 ["industry"; "vertical"];
  rule ["security"; "identity"; "secure_coding"; "restriction"; "access"]
    SECURITY "security" IMPLEMENTATION_GUIDE 8
    ["security"; "authentication"; "authorization"; "sharing"];
  rule ["integration"; "canvas"; "federated"; "connect"] INTEGRATION
    "integration" DEVELOPER_GUIDE 7 ["integration"; "external"; "connect"];
  rule ["limits"; "large_data"; "bp"; "best_practice"] BEST_PRACTICES "limits"
    DEVELOPER_GUIDE 8 ["limits"; "governor"; "performance"];
  rule ["cheatsheet"; "static_sf"] BEST_PRACTICES "cheatsheets" CHEATSHEET 8
    ["cheatsheet"; "quick reference"];
  rule ["workbook"] BEST_PRACTICES "workbooks" WORKBOOK 7
    ["workbook"; "tutorial"; "hands-on"];
  rule ["release"] RELEASE_NOTES "release_notes" RELEASE_NOTES_DOC 6
    ["release"; "new feature"; "what's new"];
  rule ["object"; "data"; "field"] CORE_PLATFORM "data_model" DEVELOPER_GUIDE 8
    ["object"; "field"; "relationship"; "data model"]
].

Definition classification (p : DocumentPattern) : Build.Classification :=
  {| Build.cl_category := categoryValue (category p);
     Build.cl_subcategory := subcategory p;
     Build.cl_docType := docTypeValue (docType p);
     Build.cl_priority := priority p;
     Build.cl_keywords := keywords p |}.

Definition defaultClassification : Build.Classification :=
  {| Build.cl_category := categoryValue CORE_PLATFORM;
     Build.cl_subcategory := js "general";
     Build.cl_docType := docTypeValue DEVELOPER_GUIDE;
     Build.cl_priority := 5;
     Build.cl_keywords := [] |}.

(** The first pattern that matches the file name decides. *)
Definition categorizeDocument (fileName : str) : Build.Classification :=
  match List.find (λ p, test (pattern p) fileName) DOCUMENT_PATTERNS with
  | Some p => classification p
  | None => defaultClassification
  end.

(** ** generateTitle *)

(** [s.replace(/\.pdf$/i, '')]: without the [m] flag [$] is the end of
    the string, so the only place the pattern can match is four
    characters before the end. *)
Definition dropPdfSuffix (s : str) : str :=
  let n := (length s - 4)%nat in
  if (4 <=? length s)%nat
     && match matchAt (literal_i (js ".pdf")) s n with
        | Some _ => true
        | None => false
        end
  then take n s else s.

(** [s.replace(r, '')] for a global [r]: the matches, found from left
    to right, are cut out. *)
Fixpoint cutOut (s : str) (ms : list found) (pos : nat) : str :=
  match ms with
  | [] => drop pos s
  | m :: ms' => JS.substring s pos (m_index m) ++ cutOut s ms' (m_end m)
  end.

Definition removeAll (r : regex) (s : str) : str := cutOut s (matches r s) 0.

(** [\w] *)
Definition isWordChar (c : ascii) : bool :=
  JS.inRange 48 57 c || JS.inRange 65 90 c || JS.inRange 97 122 c
  || Search.isUnderscore c.

(** [c.toUpperCase()] for a word character [c]. *)
Definition toUpperWordChar (c : ascii) : ascii :=
  if JS.inRange 97 122 c then ascii_of_N (JS.code c - 32) else c.

(** [s.replace(/\b\w/g, c => c.toUpperCase())]: a word character stands
    at a word boundary when no word character precedes it. *)
Fixpoint capitalizeFrom (afterWord : bool) (s : str) : str :=
  match s with
  | [] => []
  | c :: s' =>
      (if isWordChar c && negb afterWord then toUpperWordChar c else c)
        :: capitalizeFrom (isWordChar c) s'
  end.

Definition generateTitle (fileName : str) : str :=
  JS.trim
    (capitalizeFrom false
       (map (λ c, if Search.isUnderscore c then " "%char else c)
          (removeAll (literal_i (js "salesforce_")) (dropPdfSuffix fileName)))).

End Catalog.

(* ================================================================== *)
(** * Further notions: shapes and invariants of strings, stores and
    caches *)
(* ================================================================== *)

Module Props.
Import Store.

(** [s] neither starts nor ends with a white-space character. *)
Definition trimmed (s : str) : Prop :=
  ∀ ch, head s = Some ch ∨ last s = Some ch → JS.isWhiteSpace ch = false.

(** A section the chunker keeps: a trimmed piece of the text of more
    than 50 characters. *)
Definition sectionOk (text : str) (s : Chunker.section) : Prop :=
  (50 < length (Chunker.body s))%nat ∧ trimmed (Chunker.body s) ∧
  Spec.infix (Chunker.body s) text.

(** [s] holds none of the 26 upper-case ASCII letters. *)
Definition noUpper (s : str) : Prop :=
  Forall (λ c, JS.inRange 65 90 c = false) s.

(** [s] holds neither of the wildcards of [LIKE]. *)
Definition wildcardFree (s : str) : Prop :=
  Forall (λ c, Search.isPercent c = false ∧ Search.isUnderscore c = false) s.

(** The [content_lower] column mirrors the [content] column. *)
Definition lowerMirror (d : Database) : Prop :=
  Forall (λ c, content_lower c = JS.toLowerCase (content c)) (chunks d).

(** The document ids are 1, 2, ..., n in table order. *)
Definition sequentialIds (d : Database) : Prop :=
  map id (documents d) = map Z.of_nat (seq 1 (length (documents d))).

(** The key of the [UNIQUE(document_id, chunk_index)] constraint. *)
Definition chunkKey (c : ChunkRow) : Z * Z := (document_id c, chunk_index c).

(** What the builder guarantees of a chunk row, in a store of [n]
    documents. *)
Definition chunkOk (n : Z) (c : ChunkRow) : Prop :=
  1 ≤ document_id c ≤ n ∧
  content_lower c = JS.toLowerCase (content c) ∧
  (50 < length (content c))%nat ∧
  section_title c ≠ Some [].

(** The invariant of the builder's loop over the PDFs. *)
Definition builtOk (d : Database) : Prop :=
  hasSchema d = true ∧
  sequentialIds d ∧
  NoDup (map file_name (documents d)) ∧
  Forall (chunkOk (Z.of_nat (length (documents d)))) (chunks d) ∧
  NoDup (map chunkKey (chunks d)).

(** The weight the patterns [ps] give the key of a score entry, and the
    weight the whole table gives a (category, subcategory) pair, for a
    lower-cased query: every pattern of the key, or pair, contributes
    its weight times the number of its trigger phrases found. *)
Definition contribution (ql : str) (p : Intent.IntentPattern) : Z :=
  Intent.weight p * Z.of_nat (length (Intent.matchedKeywords ql p)).

Definition keyWeight (ql : str) (ps : list Intent.IntentPattern) (key : str)
  : Z :=
  foldr Z.add 0
    (map (λ p, if bool_decide (Intent.scoreKey p = key)
               then contribution ql p else 0) ps).

Definition pairWeight (query cat sub : str) : Z :=
  foldr Z.add 0
    (map (λ p, if bool_decide (Intent.p_category p = cat
                               ∧ Intent.p_subcategory p = sub)
               then contribution (JS.toLowerCase query) p else 0)
       Intent.INTENT_PATTERNS).

(** The invariant of the scan over the patterns: the score entries have
    distinct keys; an entry holds the weight of its key, which is
    positive, and the category and subcategory of a pattern with that
    key; and a key without an entry has no weight. *)
Definition scoresOk (ql : str) (ps : list Intent.IntentPattern)
    (scores : Intent.Scores) : Prop :=
  NoDup (map fst scores) ∧
  (∀ k sc, (k, sc) ∈ scores →
     Intent.s_weight sc = keyWeight ql ps k ∧ 0 < Intent.s_weight sc ∧
     ∃ p, p ∈ ps ∧ Intent.scoreKey p = k ∧
          Intent.s_category sc = Intent.p_category p ∧
          Intent.s_subcategory sc = Intent.p_subcategory p) ∧
  (∀ k, k ∉ map fst scores → keyWeight ql ps k = 0).

(** Two facts of the pattern table: every weight is positive, and two
    patterns with the same score key have the same category and
    subcategory. *)
Definition positiveWeights (ps : list Intent.IntentPattern) : bool :=
  forallb (λ p, 0 <? Intent.weight p) ps.

Definition keysTellPairs (ps : list Intent.IntentPattern) : bool :=
  forallb
    (λ p, forallb
            (λ p', implb (bool_decide (Intent.scoreKey p = Intent.scoreKey p'))
                     (bool_decide (Intent.p_category p = Intent.p_category p'
                                   ∧ Intent.p_subcategory p
                                     = Intent.p_subcategory p')))
            ps)
    ps.

(** A pattern whose category and subcategory both have a non-empty
    entry in the label tables. *)
Definition labelled (p : Intent.IntentPattern) : bool :=
  match Intent.p_category p, Intent.p_subcategory p,
        Intent.categoryLabels !! Intent.p_category p,
        Intent.subcategoryLabels !! Intent.p_subcategory p with
  | _ :: _, _ :: _, Some (_ :: _), Some (_ :: _) => true
  | _, _, _, _ => false
  end.

(** The storage events of a kind. *)
Definition isQuery (e : Search.Event) : bool :=
  match e with Search.Query _ _ _ => true | Search.LoadStore => false end.

Definition queries (evs : list Search.Event) : nat :=
  length (List.filter isQuery evs).

Definition loads (evs : list Search.Event) : nat :=
  length (List.filter (λ e, negb (isQuery e)) evs).

(** A document row as the builder writes it for a PDF: classified by
    its file name. *)
Definition classified (categorizeDocument : str → Build.Classification)
    (generateTitle : str → str) (r : DocumentRow) : Prop :=
  category r = Build.cl_category (categorizeDocument (file_name r)) ∧
  subcategory r = Some (Build.cl_subcategory (categorizeDocument (file_name r))) ∧
  doc_type r = Build.cl_docType (categorizeDocument (file_name r)) ∧
  priority r = Some (Build.cl_priority (categorizeDocument (file_name r))) ∧
  keywords r = Some (Build.cl_keywords (categorizeDocument (file_name r))) ∧
  title r = generateTitle (file_name r).

(** Subcategories the intent classifier detects but the builder's
    catalogue never files a document under. *)
Definition neverFiled : list str :=
  jss ["specialized_apis"; "analytics_cloud"; "best_practices"].

(** What holds of every classification of the catalogue: a priority
    from 5 to 10, a non-empty subcategory that is none of [neverFiled]. *)
Definition wellClassified (c : Build.Classification) : bool :=
  (5 <=? Build.cl_priority c) && (Build.cl_priority c <=? 10)
  && negb (bool_decide (Build.cl_subcategory c = []))
  && negb (bool_decide (Build.cl_subcategory c ∈ neverFiled)).

(** A PDF with enough text to be indexed, one that cannot be read, and
    an environment in which the builder finds both. *)
Definition samplePdf : Build.Pdf :=
  {| Build.pdf_path := js "docs/pdfs/apex_guide.pdf";
     Build.pdf_name := js "apex_guide.pdf";
     Build.pdf_text :=
       Some (js ("Apex triggers run before or after records are inserted, "
                 ++ "updated or deleted. Keep the logic of a trigger in a "
                 ++ "handler class."), 3, 2048) |}.

Definition brokenPdf : Build.Pdf :=
  {| Build.pdf_path := js "docs/pdfs/scan.pdf";
     Build.pdf_name := js "scan.pdf";
     Build.pdf_text := None |}.

Definition buildEnv : Build.Env :=
  {| Build.mkdirOk := true; Build.unlinkOk := true; Build.sqlLoads := true;
     Build.pdfDir := Some [samplePdf; brokenPdf];
     Build.releaseNotesDir := Some [];
     Build.exportOk := true; Build.writeOk := true;
     Build.tornWrite := false |}.

Definition freshFS : Build.FS :=
  {| Build.dataDir := false; Build.dbFile := Missing |}.

(** [a] has at least the priority of [b]; a NULL priority is below
    every number. *)
Definition priorityGe (a b : DocumentRow) : Prop :=
  match priority a, priority b with
  | Some pa, Some pb => pb ≤ pa
  | None, Some _ => False
  | _, None => True
  end.

(** The cache keys of a cache, most recently used first. *)
Definition cacheKeys (c : Search.Cache) : list Search.CacheKey :=
  map Search.e_key c.

(** The invariant of the result cache: at most [CACHE_MAX] entries, no
    key twice. *)
Definition cacheOk (c : Search.Cache) : Prop :=
  (length c ≤ Search.CACHE_MAX)%nat ∧ NoDup (cacheKeys c).

(** A run of searches, each with its own environment and clock, from a
    world: the outcomes in order and the final world. *)
Record Call := {
  c_env : Search.Env;
  c_now : Z;
  c_query : str;
  c_options : Search.SearchOptions
}.

Fixpoint searchAll (calls : list Call) (w : Search.World)
  : list Search.Outcome * Search.World :=
  match calls with
  | [] => ([], w)
  | c :: rest =>
      let '(out, w1) :=
        Search.searchDocuments (c_env c) (c_now c) (c_query c) (c_options c) w in
      let '(outs, w2) := searchAll rest w1 in
      (out :: outs, w2)
  end.

Definition isOk (o : Search.Outcome) : bool :=
  match o with Search.Ok _ => true | _ => false end.

(** [Number.MAX_SAFE_INTEGER]: up to it the integers are numbers of
    JavaScript and their products are exact.  The storage engine takes
    a safe integer as the bound of [LIMIT ?]; it rejects ("datatype
    mismatch") a number beyond the 64-bit integers. *)
Definition MAX_SAFE_INTEGER : Z := 2 ^ 53 - 1.

Definition safeInteger (n : Z) : Prop :=
  - MAX_SAFE_INTEGER ≤ n ≤ MAX_SAFE_INTEGER.

(** Options whose [maxResults] keeps the largest sample size a search
    can ask for, [maxResults * 50], a safe integer. *)
Definition safeOptions (o : Search.SearchOptions) : Prop :=
  safeInteger (Search.maxResultsOf o * 50).

(** The lower-case form of an ASCII letter; any other character is left
    alone.  Two strings are the same but for the case of their ASCII
    letters when they agree after it. *)
Definition asciiLower (c : ascii) : ascii :=
  if JS.inRange 65 90 c then ascii_of_N (JS.code c + 32) else c.

Definition sameButCase (a b : str) : Prop :=
  map asciiLower a = map asciiLower b.

End Props.
(* ================================================================== *)
(** * Facts about the string and regular-expression layer *)
(* ================================================================== *)

Module RegexFacts.
Import Regex.

Lemma scan_None r s n i :
  scan r s n i = None →
  ∀ j, (i ≤ j ≤ i + n)%nat → matchAt r s j = None.
Proof.
  revert i. induction n as [|n IH]; intros i H j Hj; simpl in H.
  - destruct (matchAt r s i) as [[e c]|] eqn:E; [discriminate|].
    by replace j with i by lia.
  - destruct (matchAt r s i) as [[e c]|] eqn:E; [discriminate|].
    destruct (decide (j = i)) as [->|Hne]; [done|].
    apply (IH (S i) H). lia.
Qed.

Lemma sweep_no_match r s n q li :
  (∀ j, (q ≤ j ≤ q + n)%nat → matchAt r s j = None) →
  sweep r s n q li = [].
Proof.
  revert q li. induction n as [|n IH]; intros q li H; simpl.
  - rewrite (H q) by lia. by destruct (q <? li)%nat.
  - rewrite (H q) by lia. destruct (q <? li)%nat; apply IH; intros; apply H; lia.
Qed.

(** When the first [exec] fails there is no match at all. *)
Lemma exec_None_matches r s : exec r s 0 = None → matches r s = [].
Proof.
  unfold exec, matches. simpl. rewrite Nat.sub_0_r. intros H.
  apply sweep_no_match. intros j Hj. by apply (scan_None r s (length s) 0%nat).
Qed.

(** ** Matches consume what the pattern needs, within the string *)

Lemma run_le p (l : str) : (run p l ≤ length l)%nat.
Proof.
  induction l as [|c l IH]; simpl; [lia|]. destruct (p c); simpl; lia.
Qed.

Lemma backoff_between {A} (k : nat → option A) i lo d x :
  backoff k i lo d = Some x →
  ∃ j, (i + lo ≤ j ≤ i + lo + d)%nat ∧ k j = Some x.
Proof.
  induction d as [|d IH]; simpl.
  - destruct (k (i + lo + 0)%nat) eqn:E; [|discriminate].
    intros [= <-]. exists (i + lo + 0)%nat. split; [lia|done].
  - destruct (k (i + lo + S d)%nat) eqn:E.
    + intros [= <-]. exists (i + lo + S d)%nat. split; [lia|done].
    + intros H. destruct (IH H) as (j & Hj & Hk). exists j. split; [lia|done].
Qed.

Lemma rmatch_advances r s k i c x :
  (i ≤ length s)%nat →
  rmatch r s k i c = Some x →
  ∃ j c', (i + minLen r ≤ j ≤ length s)%nat ∧ k j c' = Some x.
Proof.
  revert k i c. induction r as [|p|p lo hi|r1 IH1 r2 IH2|r1 IH1 r2 IH2| | |g r IH];
    intros k i c Hi; simpl.
  - intros H. exists i, c. split; [lia|done].
  - destruct (s !! i) as [ch|] eqn:E; [|discriminate].
    destruct (p ch); [|discriminate]. intros H.
    apply lookup_lt_Some in E. exists (S i), c. split; [lia|done].
  - pose proof (run_le p (drop i s)) as Hrun. rewrite length_drop in Hrun.
    destruct (Nat.ltb_spec
                (match hi with
                 | Some h => Nat.min (run p (drop i s)) h
                 | None => run p (drop i s)
                 end) lo) as [|Hlo]; [discriminate|].
    intros H. apply backoff_between in H as (j & Hj & Hk).
    exists j, c. split; [|done]. destruct hi; lia.
  - intros H. apply IH1 in H as (j & c' & Hj & H); [|done].
    apply IH2 in H as (j' & c'' & Hj' & H); [|lia].
    exists j', c''. split; [lia|done].
  - destruct (rmatch r1 s k i c) eqn:E.
    + intros [= <-]. apply IH1 in E as (j & c' & Hj & H); [|done].
      exists j, c'. split; [lia|done].
    + intros H. apply IH2 in H as (j & c' & Hj & H); [|done].
      exists j, c'. split; [lia|done].
  - destruct (atLineStart s i); [|discriminate]. intros H.
    exists i, c. split; [lia|done].
  - destruct (atLineEnd s i); [|discriminate]. intros H.
    exists i, c. split; [lia|done].
  - intros H. apply IH in H as (j & c' & Hj & H); [|done]. eauto.
Qed.

Lemma matchAt_advances r s i e c :
  (i ≤ length s)%nat →
  matchAt r s i = Some (e, c) → (i + minLen r ≤ e ≤ length s)%nat.
Proof.
  intros Hi H. apply rmatch_advances in H as (j & c' & Hj & [= <- _]); done.
Qed.

(** ** The matches are those the [exec] loop visits *)

Lemma exec_here r s q e c :
  (q ≤ length s)%nat →
  matchAt r s q = Some (e, c) →
  exec r s q = Some {| m_index := q; m_end := e; m_caps := c |}.
Proof.
  intros Hq H. unfold exec. destruct (Nat.ltb_spec (length s) q); [lia|].
  destruct (length s - q)%nat; simpl; by rewrite H.
Qed.

Lemma exec_next r s q :
  (q < length s)%nat →
  matchAt r s q = None →
  exec r s q = exec r s (S q).
Proof.
  intros Hq H. unfold exec.
  destruct (Nat.ltb_spec (length s) q); [lia|].
  destruct (Nat.ltb_spec (length s) (S q)); [lia|].
  replace (length s - q)%nat with (S (length s - S q)) by lia.
  simpl. by rewrite H.
Qed.

Lemma exec_last r s :
  matchAt r s (length s) = None → exec r s (length s) = None.
Proof.
  intros H. unfold exec. destruct (Nat.ltb_spec (length s) (length s)); [lia|].
  rewrite Nat.sub_diag. simpl. by rewrite H.
Qed.

Lemma exec_beyond r s q : (length s < q)%nat → exec r s q = None.
Proof. intros H. unfold exec. by destruct (Nat.ltb_spec (length s) q); [|lia]. Qed.

Lemma execLoop_next r s fuel q :
  (q < length s)%nat →
  matchAt r s q = None →
  execLoop r s fuel q = execLoop r s fuel (S q).
Proof. intros Hq H. destruct fuel; simpl; [done|]. by rewrite exec_next. Qed.

Lemma sweep_execLoop r s :
  (1 ≤ minLen r)%nat →
  ∀ n q li fuel,
    (q + n = length s)%nat →
    (length s + 1 - Nat.max q li ≤ fuel)%nat →
    sweep r s n q li = execLoop r s fuel (Nat.max q li).
Proof.
  intros Hmin. induction n as [|n IH]; intros q li fuel Hn Hfuel.
  - simpl. destruct (Nat.ltb_spec q li) as [Hq|Hq].
    + rewrite Nat.max_r by lia. destruct fuel; simpl; [done|].
      by rewrite exec_beyond by lia.
    + rewrite Nat.max_l by lia.
      destruct (matchAt r s q) as [[e c]|] eqn:E.
      * apply matchAt_advances in E; lia.
      * destruct fuel; simpl; [done|].
        replace q with (length s) in * by lia. by rewrite exec_last.
  - simpl. destruct (Nat.ltb_spec q li) as [Hq|Hq].
    + rewrite (IH (S q) li fuel) by lia.
      f_equal. lia.
    + rewrite Nat.max_l by lia.
      destruct (matchAt r s q) as [[e c]|] eqn:E.
      * pose proof (matchAt_advances r s q e c ltac:(lia) E) as He.
        destruct (Nat.eqb_spec e q) as [|_]; [lia|].
        destruct fuel as [|fuel]; [lia|]. simpl.
        rewrite (exec_here r s q e c) by (lia || done). simpl. f_equal.
        rewrite (IH (S q) e fuel) by lia. f_equal. lia.
      * rewrite (IH (S q) li fuel) by lia.
        rewrite Nat.max_l by lia. symmetry. apply execLoop_next; [lia|done].
Qed.

(** For a pattern that matches no empty string, the [exec] loop ends
    within [length s + 1] iterations and visits exactly [matches r s]. *)
Lemma matches_execLoop r s fuel :
  (1 ≤ minLen r)%nat →
  (length s < fuel)%nat →
  execLoop r s fuel 0 = matches r s.
Proof.
  intros Hmin Hfuel. unfold matches. symmetry.
  apply (sweep_execLoop r s Hmin (length s) 0%nat 0%nat fuel); simpl; lia.
Qed.

End RegexFacts.

Module JSFacts.

Lemma substring_all (s : str) : JS.substring s 0 (length s) = s.
Proof. unfold JS.substring. rewrite Nat.sub_0_r, drop_0. apply firstn_all. Qed.

Lemma length_trimStart (s : str) : (length (JS.trimStart s) ≤ length s)%nat.
Proof.
  induction s as [|c s IH]; simpl; [lia|].
  destruct (JS.isWhiteSpace c); simpl; lia.
Qed.

Lemma length_trim (s : str) : (length (JS.trim s) ≤ length s)%nat.
Proof.
  unfold JS.trim, JS.trimEnd. rewrite length_rev.
  etrans; [apply length_trimStart|]. rewrite length_rev.
  apply length_trimStart.
Qed.

Lemma elem_of_removelast {A} (l : list A) x : x ∈ removelast l → x ∈ l.
Proof.
  induction l as [|y l IH]; simpl; [done|].
  destruct l as [|z l]; [intros H; by apply elem_of_nil in H|].
  intros H. apply elem_of_cons in H as [->|H]; [by left|right; by apply IH].
Qed.

End JSFacts.

(* ================================================================== *)
(** * Chunker: edge cases *)
(* ================================================================== *)

Module ChunkerEdge.
Import Regex Chunker.

Lemma chunkSection_small text opts :
  len text ≤ maxChunkSize opts → chunkSection text opts = [text].
Proof.
  intros H. unfold chunkSection.
  destruct (Z.leb_spec (len text) (maxChunkSize opts)); [done|lia].
Qed.

(** The [while] loop of [splitBySections] ends, and visits the matches
    [splitBySections] folds over: a heading takes at least 3
    characters. *)
Lemma heading_loop text fuel :
  (length text < fuel)%nat →
  execLoop headingPattern text fuel 0 = matches headingPattern text.
Proof. apply RegexFacts.matches_execLoop. simpl. lia. Qed.

Lemma splitBySections_empty :
  splitBySections [] = [ {| title := None; body := [] |} ].
Proof. reflexivity. Qed.

Lemma splitBySections_no_heading text :
  text ≠ [] →
  exec headingPattern text 0 = None →
  splitBySections text =
    [ {| title := None;
         body := if (50 <? length (JS.trim text))%nat
                 then JS.trim text else text |} ].
Proof.
  intros Hne Hex. unfold splitBySections.
  rewrite (RegexFacts.exec_None_matches _ _ Hex). simpl.
  assert (0 < length text)%nat as Hlen by (destruct text; [done|simpl; lia]).
  destruct (Nat.ltb_spec 0 (length text)) as [_|]; [|lia].
  rewrite JSFacts.substring_all. unfold pushSection.
  by destruct (50 <? length (JS.trim text))%nat.
Qed.

(** The claim as the specification words it fails at the default
    options: the empty text gives one (empty) chunk, not zero. *)
Lemma chunkText_empty_not_zero :
  chunkText [] noChunkOptions =
    [ {| index := 0; content := []; sectionTitle := None |} ] ∧
  length (chunkText [] noChunkOptions) ≠ 0%nat.
Proof. split; [reflexivity|discriminate]. Qed.

(** Claim C3 (amended).  For every options value whose [maxChunkSize],
    given or defaulted, is not negative, the chunker applied to the
    zero-length text yields exactly one chunk: index 0, empty content,
    no section title.  For every non-empty text in which the heading
    pattern finds no match, [splitBySections] yields exactly one
    untitled section; its body is the trimmed text when that is longer
    than 50 characters and the text itself otherwise. *)
Theorem chunker_edge_cases :
  (∀ options, 0 ≤ maxChunkSize (withDefaults options) →
     chunkText [] options =
       [ {| index := 0; content := []; sectionTitle := None |} ]) ∧
  (∀ text, text ≠ [] → exec headingPattern text 0 = None →
     splitBySections text =
       [ {| title := None;
            body := if (50 <? length (JS.trim text))%nat
                    then JS.trim text else text |} ]).
Proof.
  split.
  - intros options H. unfold chunkText. rewrite splitBySections_empty.
    cbv zeta. simpl fold_left at 1.
    rewrite chunkSection_small by (unfold len; simpl length; lia). reflexivity.
  - apply splitBySections_no_heading.
Qed.

Lemma chunker_edge_cases_witness :
  chunkText [] noChunkOptions =
    [ {| index := 0; content := []; sectionTitle := None |} ] ∧
  splitBySections (js "plain text without any heading") =
    [ {| title := None; body := js "plain text without any heading" |} ].
Proof.
  split.
  - apply (proj1 chunker_edge_cases noChunkOptions). simpl. lia.
  - apply (proj2 chunker_edge_cases (js "plain text without any heading")).
    + discriminate.
    + vm_compute. reflexivity.
Defined.

End ChunkerEdge.

(* ================================================================== *)
(** * Chunker: the pieces a text is cut into *)
(* ================================================================== *)

Module ChunkPieces.
Import Regex Chunker Spec.

(** ** Contiguous pieces *)

Lemma infix_refl s : infix s s.
Proof. exists [], []. by rewrite app_nil_r. Qed.

Lemma infix_trans a b c : infix a b → infix b c → infix a c.
Proof.
  intros (x & y & ->) (u & v & ->). exists (u ++ x), (y ++ v).
  by rewrite <- !app_assoc.
Qed.

Lemma infix_drop n s : infix (drop n s) s.
Proof. exists (take n s), []. by rewrite app_nil_r, take_drop. Qed.

Lemma infix_take n s : infix (take n s) s.
Proof. exists [], (drop n s). simpl. by rewrite take_drop. Qed.

Lemma infix_substring s a b : infix (JS.substring s a b) s.
Proof.
  unfold JS.substring. eapply infix_trans; [apply infix_take|apply infix_drop].
Qed.

Lemma trimStart_suffix s : ∃ a, s = a ++ JS.trimStart s.
Proof.
  induction s as [|c s [a IH]]; simpl; [by exists []|].
  destruct (JS.isWhiteSpace c); [|by exists []].
  exists (c :: a). simpl. by rewrite <- IH.
Qed.

Lemma infix_trim s : infix (JS.trim s) s.
Proof.
  unfold JS.trim, JS.trimEnd.
  destruct (trimStart_suffix s) as [a Ha].
  destruct (trimStart_suffix (rev (JS.trimStart s))) as [b Hb].
  exists a, (rev b). rewrite Ha at 1. f_equal.
  rewrite <- (rev_involutive (JS.trimStart s)) at 1.
  rewrite Hb at 1. by rewrite rev_app_distr.
Qed.

Lemma infix_length w s : infix w s → (length w ≤ length s)%nat.
Proof. intros (a & b & ->). rewrite !length_app. lia. Qed.

(** ** The longest word bounds every spaceless piece *)

Lemma longestWordFrom_ge cur s : (cur ≤ longestWordFrom cur s)%nat.
Proof.
  revert cur. induction s as [|c s IH]; intros cur; simpl; [lia|].
  destruct (JS.isWhiteSpace c); [lia|]. specialize (IH (S cur)). lia.
Qed.

Lemma longestWordFrom_prefix cur w b :
  spaceless w → (cur + length w ≤ longestWordFrom cur (w ++ b))%nat.
Proof.
  revert cur. induction w as [|c w IH]; intros cur Hw; simpl.
  - pose proof (longestWordFrom_ge cur b). lia.
  - apply Forall_cons in Hw as [-> Hw]. specialize (IH (S cur) Hw). lia.
Qed.

Lemma longestWordFrom_infix cur a w b :
  spaceless w → (length w ≤ longestWordFrom cur (a ++ w ++ b))%nat.
Proof.
  revert cur. induction a as [|c a IH]; intros cur Hw; simpl.
  - pose proof (longestWordFrom_prefix cur w b Hw). lia.
  - destruct (JS.isWhiteSpace c).
    + specialize (IH 0%nat Hw). lia.
    + apply IH, Hw.
Qed.

Lemma spaceless_infix_length w s :
  spaceless w → infix w s → (length w ≤ longestWord s)%nat.
Proof. intros Hw (a & b & ->). by apply longestWordFrom_infix. Qed.

(** ** Splitting *)

Lemma splitLoop_infix r s n q p x :
  x ∈ splitLoop r s n q p → infix x s.
Proof.
  revert q p. induction n as [|n IH]; intros q p; simpl.
  - rewrite list_elem_of_singleton. intros ->. apply infix_substring.
  - destruct (q <? p)%nat; [apply IH|].
    destruct (matchAt r s q) as [[e c]|]; [|apply IH].
    destruct (Nat.eqb _ p); [apply IH|].
    rewrite elem_of_cons. intros [->|H]; [apply infix_substring|by eapply IH].
Qed.

Lemma split_infix r s x : x ∈ split r s → infix x s.
Proof.
  unfold split. destruct s as [|c s].
  - destruct (matchAt r [] 0); [intros H; by apply elem_of_nil in H|].
    rewrite list_elem_of_singleton. intros ->. apply infix_refl.
  - apply splitLoop_infix.
Qed.

Lemma matchAll_infix r s l x :
  matchAll r s = Some l → x ∈ l → infix x s.
Proof.
  unfold matchAll. destruct (matches r s) as [|m ms]; [discriminate|].
  intros [= <-] H.
  change (x ∈ (λ m, JS.substring s (m_index m) (m_end m)) <$> (m :: ms)) in H.
  apply list_elem_of_fmap in H as (m' & -> & _).
  apply infix_substring.
Qed.

(** ** Words hold no whitespace *)

Lemma backoff_Some {A} (k : nat → option A) i lo d :
  (∀ j, is_Some (k j)) → is_Some (backoff k i lo d).
Proof.
  intros Hk. induction d as [|d IH]; simpl.
  - destruct (Hk (i + lo + 0)%nat) as [x ->]. eauto.
  - destruct (k (i + lo + S d)%nat); eauto.
Qed.

Lemma spaces_no_match s q :
  matchAt spaces s q = None →
  ∀ c, s !! q = Some c → JS.isWhiteSpace c = false.
Proof.
  unfold matchAt, spaces. simpl. intros H c Hc.
  destruct (run JS.isWhiteSpace (drop q s) <? 1)%nat eqn:E.
  - apply Nat.ltb_lt in E.
    rewrite (drop_S s c q Hc) in E. simpl in E.
    destruct (JS.isWhiteSpace c); [simpl in E; lia|done].
  - exfalso.
    destruct (backoff_Some (λ j, Some (j, @nil (nat * (nat * nat)))) q 1
                (run JS.isWhiteSpace (drop q s) - 1)) as [x Hx]; [eauto|].
    pose proof (eq_trans (eq_sym H) Hx) as Hcontra. discriminate Hcontra.
Qed.

Lemma spaces_match_advances s q e c :
  matchAt spaces s q = Some (e, c) → (q < e)%nat.
Proof.
  unfold matchAt, spaces. simpl.
  destruct (run JS.isWhiteSpace (drop q s) <? 1)%nat; [discriminate|].
  intros H. apply RegexFacts.backoff_between in H as (j & Hj & [= <- _]). lia.
Qed.

Lemma substring_lookup s p q x :
  x ∈ JS.substring s p q → ∃ j, (p ≤ j < q)%nat ∧ s !! j = Some x.
Proof.
  unfold JS.substring. intros H.
  apply list_elem_of_lookup in H as [i Hi].
  apply lookup_take_Some in Hi as [Hi Hlt].
  rewrite lookup_drop in Hi. exists (p + i)%nat. split; [lia|done].
Qed.

Lemma splitLoop_spaceless s n q p w :
  (q + n = length s)%nat →
  (∀ j c, (p ≤ j < q)%nat → s !! j = Some c → JS.isWhiteSpace c = false) →
  w ∈ splitLoop spaces s n q p → spaceless w.
Proof.
  revert q p. induction n as [|n IH]; intros q p Hn Hinv; simpl.
  - rewrite list_elem_of_singleton. intros ->.
    apply Forall_forall. intros x Hx.
    apply substring_lookup in Hx as (j & Hj & Hx).
    apply (Hinv j x); [lia|done].
  - destruct (Nat.ltb_spec q p) as [Hqp|Hqp].
    { apply IH; [lia|]. intros j c Hj. lia. }
    destruct (matchAt spaces s q) as [[e c]|] eqn:Hm.
    + apply spaces_match_advances in Hm.
      destruct (Nat.eqb_spec (Nat.min e (length s)) p) as [He|He]; [lia|].
      rewrite elem_of_cons. intros [->|H].
      * apply Forall_forall. intros x Hx.
        apply substring_lookup in Hx as (j & Hj & Hx). by apply (Hinv j x).
      * apply (IH (S q) (Nat.min e (length s))); [lia| |done].
        intros j c' Hj. lia.
    + apply IH; [lia|]. intros j c Hj Hc.
      destruct (decide (j = q)) as [->|Hne].
      * by eapply spaces_no_match.
      * apply (Hinv j c); [lia|done].
Qed.

Lemma split_spaces_spaceless s w : w ∈ split spaces s → spaceless w.
Proof.
  unfold split. destruct s as [|c0 s0] eqn:E.
  - destruct (matchAt spaces [] 0); [intros H; by apply elem_of_nil in H|].
    rewrite list_elem_of_singleton. intros ->. constructor.
  - rewrite <- E. apply splitLoop_spaceless; [lia|]. intros j c' Hj. lia.
Qed.

End ChunkPieces.

(* ================================================================== *)
(** * Chunker: the size of a chunk *)
(* ================================================================== *)

Module ChunkBound.
Import Regex Chunker Spec ChunkPieces.

Lemma len_app a b : len (a ++ b) = len a + len b.
Proof. unfold len. rewrite length_app. lia. Qed.

Lemma len_nonneg s : 0 ≤ len s.
Proof. unfold len. lia. Qed.

Lemma len_trim s : len (JS.trim s) ≤ len s.
Proof. unfold len. pose proof (JSFacts.length_trim s). lia. Qed.

Lemma within_app B l1 l2 : within B l1 → within B l2 → within B (l1 ++ l2).
Proof. apply Forall_app_2. Qed.

Lemma within_snoc B l x : within B l → len x ≤ B → within B (l ++ [x]).
Proof. intros. apply within_app; [done|]. by constructor. Qed.

Lemma within_weaken B B' l : B ≤ B' → within B l → within B' l.
Proof.
  intros H Hl. eapply Forall_impl; [exact Hl|]. simpl. intros c Hc. lia.
Qed.

Lemma within_removelast B l : within B l → within B (removelast l).
Proof.
  unfold within. intros H. apply Forall_forall. intros x Hx.
  rewrite Forall_forall in H. by apply H, JSFacts.elem_of_removelast.
Qed.

Lemma within_last B l : within B l → 0 ≤ B → len (List.last l []) ≤ B.
Proof.
  intros H HB. induction H as [|x l Hx H IH]; simpl; [done|].
  destruct l; [done|exact IH].
Qed.

Lemma flush_within B st : packed B st → within B (flush st).
Proof.
  destruct st as [chunks cur]. intros [H1 H2]. simpl in *.
  destruct (0 <? len cur); [|done].
  apply within_snoc; [done|]. pose proof (len_trim cur). lia.
Qed.

Section Packing.
Variable opts : Options.
Hypothesis max_nonneg : 0 ≤ maxChunkSize opts.

Lemma wordStep_packed st word :
  packed (maxChunkSize opts + 1) st →
  len word ≤ maxChunkSize opts →
  packed (maxChunkSize opts + 1) (wordStep opts st word).
Proof.
  destruct st as [chunks cur]. intros [H1 H2] Hw. simpl in *.
  destruct (Z.ltb_spec (maxChunkSize opts) (len cur + len word)); split; simpl.
  - apply within_snoc; [done|]. pose proof (len_trim cur). lia.
  - lia.
  - done.
  - rewrite !len_app. destruct cur; unfold len in *; simpl in *; lia.
Qed.

Lemma words_packed words st :
  packed (maxChunkSize opts + 1) st →
  (∀ w, w ∈ words → len w ≤ maxChunkSize opts) →
  packed (maxChunkSize opts + 1) (fold_left (wordStep opts) words st).
Proof.
  revert st. induction words as [|w words IH]; intros st Hst Hw; simpl; [done|].
  apply IH.
  - apply wordStep_packed; [done|]. apply Hw. by left.
  - intros w' Hw'. apply Hw. by right.
Qed.

Lemma wordsFit_infix a b : infix a b → wordsFit opts b → wordsFit opts a.
Proof. intros Hab Hb w Hw Hwa. apply Hb; [done|]. by eapply infix_trans. Qed.

Lemma sentenceStep_packed st sentence :
  packed (maxChunkSize opts + 1) st →
  wordsFit opts sentence →
  packed (maxChunkSize opts + 1) (sentenceStep opts st sentence).
Proof.
  destruct st as [chunks cur]. intros [H1 H2] Hfit. unfold sentenceStep.
  simpl in H1, H2.
  assert (within (maxChunkSize opts + 1)
            (if 0 <? len cur then chunks ++ [JS.trim cur] else chunks)) as Hc.
  { destruct (0 <? len cur); [|done].
    apply within_snoc; [done|]. pose proof (len_trim cur). lia. }
  destruct (Z.ltb_spec (maxChunkSize opts) (len cur + len sentence)).
  - destruct (Z.ltb_spec (maxChunkSize opts) (len sentence)).
    + apply words_packed.
      * split; [exact Hc|]. simpl. unfold len. simpl. lia.
      * intros w Hw. apply Hfit.
        -- by apply split_spaces_spaceless in Hw.
        -- by apply split_infix in Hw.
    + split; [exact Hc|]. simpl. lia.
  - split; [done|]. simpl. rewrite len_app. lia.
Qed.

Lemma sentences_packed sentences st :
  packed (maxChunkSize opts + 1) st →
  (∀ s, s ∈ sentences → wordsFit opts s) →
  packed (maxChunkSize opts + 1) (fold_left (sentenceStep opts) sentences st).
Proof.
  revert st. induction sentences as [|s ss IH]; intros st Hst Hs; simpl; [done|].
  apply IH.
  - apply sentenceStep_packed; [done|]. apply Hs. by left.
  - intros s' Hs'. apply Hs. by right.
Qed.

Lemma splitLongParagraph_within para :
  wordsFit opts para →
  within (maxChunkSize opts + 1) (splitLongParagraph para opts).
Proof.
  intros Hfit. unfold splitLongParagraph. apply flush_within.
  apply sentences_packed.
  - split; [constructor|]. simpl. unfold len. simpl. lia.
  - intros s Hs. destruct (matchAll sentencePattern para) as [l|] eqn:E.
    + eapply wordsFit_infix; [|exact Hfit]. by eapply matchAll_infix.
    + apply list_elem_of_singleton in Hs as ->. exact Hfit.
Qed.

Lemma paragraphStep_packed st para :
  packed (maxChunkSize opts + 2) st →
  wordsFit opts para →
  packed (maxChunkSize opts + 2) (paragraphStep opts st para).
Proof.
  destruct st as [chunks cur]. intros [H1 H2] Hfit. unfold paragraphStep.
  simpl in H1, H2.
  assert (within (maxChunkSize opts + 2)
            (if 0 <? len cur then chunks ++ [JS.trim cur] else chunks)) as Hc.
  { destruct (0 <? len cur); [|done].
    apply within_snoc; [done|]. pose proof (len_trim cur). lia. }
  destruct (Z.ltb_spec (maxChunkSize opts) (len cur + len para)).
  - destruct (Z.ltb_spec (maxChunkSize opts) (len para)).
    + pose proof (splitLongParagraph_within para Hfit) as Hsub.
      split; simpl.
      * apply within_app; [exact Hc|]. apply within_removelast.
        eapply within_weaken; [|exact Hsub]. lia.
      * pose proof (within_last _ _ Hsub). lia.
    + split; [exact Hc|]. simpl. lia.
  - split; [done|]. simpl. rewrite !len_app.
    destruct cur; unfold len in *; simpl in *; lia.
Qed.

Lemma paragraphs_packed paras st :
  packed (maxChunkSize opts + 2) st →
  (∀ p, p ∈ paras → wordsFit opts p) →
  packed (maxChunkSize opts + 2) (fold_left (paragraphStep opts) paras st).
Proof.
  revert st. induction paras as [|p ps IH]; intros st Hst Hp; simpl; [done|].
  apply IH.
  - apply paragraphStep_packed; [done|]. apply Hp. by left.
  - intros p' Hp'. apply Hp. by right.
Qed.

End Packing.

(** ** Overlap *)

Lemma indexOfChar_bound s c : -1 ≤ JS.indexOfChar s c < len s.
Proof.
  unfold len. induction s as [|b s IH]; simpl; [lia|].
  destruct (JS.eqChar b c); [lia|].
  destruct (Z.ltb_spec (JS.indexOfChar s c) 0); lia.
Qed.

Lemma len_substringFrom s a :
  0 ≤ a → a ≤ len s → len (JS.substringFrom s a) = len s - a.
Proof.
  intros H0 H1. unfold JS.substringFrom, len in *. rewrite length_drop. lia.
Qed.

Lemma len_overlapOf prev ov : 0 ≤ ov → len (overlapOf prev ov) ≤ ov.
Proof.
  intros H. unfold overlapOf.
  pose proof (len_nonneg prev).
  rewrite len_substringFrom by lia. lia.
Qed.

Lemma withOverlap_len ov prev chunk :
  0 ≤ ov → len (withOverlap ov prev chunk) ≤ len chunk + ov + 5.
Proof.
  intros H. unfold withOverlap.
  pose proof (indexOfChar_bound (overlapOf prev ov) " "%char) as Hi.
  pose proof (len_overlapOf prev ov H) as Ho.
  destruct (Z.ltb_spec 0 (JS.indexOfChar (overlapOf prev ov) " "%char)); [|lia].
  rewrite !len_app, len_substringFrom by lia.
  change (len (js " [...] ")) with 7. lia.
Qed.

Lemma overlapFrom_within B ov prev chunks :
  0 ≤ ov → within B chunks → within (B + ov + 5) (overlapFrom ov prev chunks).
Proof.
  intros H Hc. revert prev. induction Hc as [|c l Hl Hc IH]; intros prev; simpl;
    constructor; [|apply IH].
  pose proof (withOverlap_len ov prev c H). lia.
Qed.

Lemma addOverlap_within B ov chunks :
  0 ≤ ov → within B chunks → within (B + ov + 5) (addOverlap chunks ov).
Proof.
  intros H Hc. unfold addOverlap.
  destruct ((length chunks <=? 1)%nat || (ov =? 0)).
  { eapply within_weaken; [|exact Hc]. lia. }
  destruct Hc as [|c l Hl Hc]; constructor; [lia|].
  by apply overlapFrom_within.
Qed.

(** ** Sections and chunks *)

Lemma chunkSection_within text opts :
  0 ≤ overlapSize opts →
  0 ≤ maxChunkSize opts →
  wordsFit opts text →
  within (maxChunkSize opts + overlapSize opts + 7) (chunkSection text opts).
Proof.
  intros Hov Hmax Hfit. unfold chunkSection.
  destruct (Z.leb_spec (len text) (maxChunkSize opts)).
  { constructor; [lia|constructor]. }
  replace (maxChunkSize opts + overlapSize opts + 7)
    with ((maxChunkSize opts + 2) + overlapSize opts + 5) by lia.
  apply addOverlap_within; [done|]. apply flush_within.
  apply paragraphs_packed; [done| |].
  - split; [constructor|]. simpl. unfold len. simpl. lia.
  - intros p Hp. eapply wordsFit_infix; [|exact Hfit]. by eapply split_infix.
Qed.

Lemma pushSection_in text t a b ss :
  sectionsIn text ss →
  sectionsIn text (pushSection t (JS.trim (JS.substring text a b)) ss).
Proof.
  intros H. unfold pushSection. destruct (50 <? _)%nat; [|done].
  apply Forall_app_2; [done|]. constructor; [|constructor]. simpl.
  eapply infix_trans; [apply infix_trim|apply infix_substring].
Qed.

Lemma sectionStep_in text st m :
  sectionsIn text (snd st) → sectionsIn text (snd (sectionStep text st m)).
Proof.
  destruct st as [[li lt] ss]. simpl. intros H.
  destruct (li <? m_index m)%nat; [|done]. by apply pushSection_in.
Qed.

Lemma sectionLoop_in text ms st :
  sectionsIn text (snd st) →
  sectionsIn text (snd (fold_left (sectionStep text) ms st)).
Proof.
  revert st. induction ms as [|m ms IH]; intros st H; simpl; [done|].
  by apply IH, sectionStep_in.
Qed.

Lemma splitBySections_in text : sectionsIn text (splitBySections text).
Proof.
  unfold splitBySections.
  pose proof (sectionLoop_in text (matches headingPattern text) (0%nat, None, []))
    as H.
  destruct (fold_left _ _ _) as [[li lt] ss]. simpl in H.
  specialize (H ltac:(constructor)).
  assert (sectionsIn text
            (if (li <? length text)%nat
             then pushSection lt (JS.trim (JS.substring text li (length text))) ss
             else ss)) as H'.
  { destruct (li <? length text)%nat; [by apply pushSection_in|done]. }
  destruct (if (li <? length text)%nat then _ else _); [|done].
  constructor; [apply infix_refl|constructor].
Qed.

Lemma chunkStep_contents t xs acc c :
  c ∈ fold_left (chunkStep t) xs acc →
  c ∈ acc ∨ ∃ x, x ∈ xs ∧ content c = JS.trim x.
Proof.
  revert acc. induction xs as [|x xs IH]; intros acc H; simpl in H; [by left|].
  apply IH in H as [H|(y & Hy & Hc)].
  - unfold chunkStep in H. apply elem_of_app in H as [H|H]; [by left|].
    apply list_elem_of_singleton in H as ->. right. exists x. split; [by left|done].
  - right. exists y. split; [by right|done].
Qed.

Lemma chunkText_contents text options c :
  c ∈ chunkText text options →
  ∃ s x, s ∈ splitBySections text ∧
         x ∈ chunkSection (body s) (withDefaults options) ∧
         content c = JS.trim x.
Proof.
  unfold chunkText. cbv zeta. generalize (withDefaults options) as opts. intros opts.
  assert (∀ ss acc,
            c ∈ fold_left
                  (λ chunks s,
                     fold_left (chunkStep (title s)) (chunkSection (body s) opts)
                       chunks) ss acc →
            c ∈ acc ∨ ∃ s x, s ∈ ss ∧ x ∈ chunkSection (body s) opts ∧
                             content c = JS.trim x) as Hgen.
  { induction ss as [|s ss IH]; intros acc H; simpl in H; [by left|].
    apply IH in H as [H|(s' & x & Hs & Hx & Hc)].
    - apply chunkStep_contents in H as [H|(x & Hx & Hc)]; [by left|].
      right. exists s, x. split; [by left|done].
    - right. exists s', x. split; [by right|done]. }
  intros H. apply Hgen in H as [H|H]; [by apply elem_of_nil in H|done].
Qed.

(** The claim as the specification words it fails in three ways: the
    7-character continuation marker comes on top of the overlap (with
    the default sizes: two paragraphs of 1500 characters give a second
    chunk of 198 + 7 + 1500 characters), a word longer than
    [maxChunkSize] is never split, and the paragraph separator is not
    counted when paragraphs are packed. *)
Lemma chunk_exceeds_bound :
  (∃ c, c ∈ chunkText
              (repeat "a"%char 1301 ++ js " " ++ repeat "b"%char 198
                 ++ [JS.LF; JS.LF] ++ repeat "c"%char 1500)
              noChunkOptions ∧
        len (content c) = 1705 ∧
        ¬ (len (content c) ≤ maxChunkSize DEFAULT_OPTIONS
                             + overlapSize DEFAULT_OPTIONS)) ∧
  (∃ c, c ∈ chunkText (js "abcdefg hi" ++ [JS.LF; JS.LF] ++ js "abcdefghij")
              (sizes 10 4) ∧
        content c = js "hi [...] abcdefghij" ∧
        ¬ (len (content c) ≤ 10 + 4)) ∧
  (∃ c, c ∈ chunkText (js "abcdefghijklmnopqrstuvwxyz")
              (sizes 10 3) ∧
        content c = js "abcdefghijklmnopqrstuvwxyz" ∧
        ¬ (len (content c) ≤ 10 + 3)) ∧
  (∃ c, c ∈ chunkText (js "abcde" ++ [JS.LF; JS.LF] ++ js "fghij")
              (sizes 10 0) ∧
        len (content c) = 12 ∧
        ¬ (len (content c) ≤ 10 + 0)).
Proof.
  split; [|split; [|split]].
  - eexists. split; [apply list_elem_of_lookup_2 with 1%nat; vm_compute; reflexivity|].
    split; [vm_compute; reflexivity|]. vm_compute. intros H. by apply H.
  - eexists. split; [apply list_elem_of_lookup_2 with 1%nat; vm_compute; reflexivity|].
    split; [reflexivity|]. vm_compute. intros H. by apply H.
  - eexists. split; [apply list_elem_of_lookup_2 with 1%nat; vm_compute; reflexivity|].
    split; [reflexivity|]. vm_compute. intros H. by apply H.
  - eexists. split; [apply list_elem_of_lookup_2 with 0%nat; vm_compute; reflexivity|].
    split; [vm_compute; reflexivity|]. vm_compute. intros H. by apply H.
Qed.

(** Without a word in the text the premise on the words says nothing
    of [maxChunkSize], and a negative [maxChunkSize] breaks the bound:
    three spaces chunked with [maxChunkSize = -10] and no overlap give
    one empty chunk, of length 0 > -10 + 0 + 7. *)
Remark negative_size_breaks_bound :
  longestWord (js "   ") = 0%nat ∧
  ∃ c, c ∈ chunkText (js "   ") (sizes (-10) 0) ∧
       content c = [] ∧
       ¬ (len (content c) ≤ -10 + 0 + 7).
Proof.
  split; [reflexivity|].
  eexists. split; [apply list_elem_of_lookup_2 with 0%nat; vm_compute; reflexivity|].
  split; [reflexivity|]. vm_compute. intros H. by apply H.
Qed.

(** Claim C4 (amended).  For every text and every options value whose
    [maxChunkSize] and [overlapSize], given or defaulted, are not
    negative, provided no word of the text -- no run of non-whitespace
    characters -- is longer than [maxChunkSize], every chunk the chunker
    produces has at most [maxChunkSize + overlapSize + 7] characters:
    over [maxChunkSize] come the overlap prefix (at most
    [overlapSize - 2] characters), the 7-character continuation marker,
    and the 2-character separator of two packed paragraphs. *)
Theorem chunk_size_bound text options :
  let opts := withDefaults options in
  0 ≤ maxChunkSize opts →
  0 ≤ overlapSize opts →
  Z.of_nat (longestWord text) ≤ maxChunkSize opts →
  ∀ c, c ∈ chunkText text options →
       len (content c) ≤ maxChunkSize opts + overlapSize opts + 7.
Proof.
  intros opts Hmax Hov Hw c Hc.
  assert (wordsFit opts text) as Hfit.
  { intros w Hs Hi. pose proof (spaceless_infix_length w text Hs Hi).
    unfold len. lia. }
  apply chunkText_contents in Hc as (s & x & Hs & Hx & ->).
  pose proof (splitBySections_in text) as Hin.
  unfold sectionsIn in Hin. rewrite Forall_forall in Hin.
  pose proof (chunkSection_within (body s) opts Hov Hmax
                (wordsFit_infix opts _ _ (Hin s Hs) Hfit)) as Hb.
  unfold within in Hb. rewrite Forall_forall in Hb.
  pose proof (Hb x Hx). pose proof (len_trim x). lia.
Qed.

(** The bound is reached. *)
Lemma chunk_size_bound_witness :
  ∃ c, c ∈ chunkText (js "abcdefx yz" ++ [JS.LF; JS.LF] ++ js "abcde"
                        ++ [JS.LF; JS.LF] ++ js "fghij") (sizes 10 4) ∧
       len (content c) = 21 ∧
       len (content c) ≤ 10 + 4 + 7.
Proof.
  eexists. split; [apply list_elem_of_lookup_2 with 1%nat; vm_compute; reflexivity|].
  split; [vm_compute; reflexivity|].
  apply (chunk_size_bound
           (js "abcdefx yz" ++ [JS.LF; JS.LF] ++ js "abcde"
              ++ [JS.LF; JS.LF] ++ js "fghij") (sizes 10 4)).
  - simpl. lia.
  - simpl. lia.
  - vm_compute. discriminate.
  - apply list_elem_of_lookup_2 with 1%nat. vm_compute. reflexivity.
Defined.

End ChunkBound.

(* ================================================================== *)
(** * Intent classifier: confidence comes from the total weight *)
(* ================================================================== *)

Module IntentProofs.
Import Intent.

Opaque INTENT_PATTERNS.

Lemma patternStep_total ql st p :
  snd (fst (patternStep ql st p)) =
  snd (fst st) + weight p * Z.of_nat (length (matchedKeywords ql p)).
Proof.
  destruct st as [[m t] s]. unfold patternStep.
  destruct (Nat.ltb_spec 0 (length (matchedKeywords ql p))) as [H|H]; simpl.
  - reflexivity.
  - replace (length (matchedKeywords ql p)) with 0%nat by lia. simpl. lia.
Qed.

Lemma fold_patternStep_total ql ps st :
  snd (fst (fold_left (patternStep ql) ps st)) =
  snd (fst st)
  + foldr Z.add 0
      (map (λ p, weight p * Z.of_nat (length (matchedKeywords ql p))) ps).
Proof.
  revert st. induction ps as [|p ps IH]; intros st; simpl.
  - lia.
  - rewrite IH, patternStep_total. lia.
Qed.

Lemma scanPatterns_total ql :
  snd (fst (scanPatterns ql)) =
  foldr Z.add 0
    (map (λ p, weight p * Z.of_nat (length (matchedKeywords ql p)))
       INTENT_PATTERNS).
Proof.
  unfold scanPatterns. etrans; [apply fold_patternStep_total|].
  apply Z.add_0_l.
Qed.

Lemma detectIntent_scan q :
  detectIntent q =
  let st := scanPatterns (JS.toLowerCase q) in
  {| category := s_category <$> bestMatch (snd st);
     subcategory := s_subcategory <$> bestMatch (snd st);
     confidence := confidenceOf (snd (fst st));
     matchedPatterns := JS.uniq (fst (fst st));
     totalWeight := snd (fst st) |}.
Proof.
  unfold detectIntent.
  destruct (scanPatterns (JS.toLowerCase q)) as [[m t] s]. reflexivity.
Qed.

Lemma detectIntent_totalWeight q :
  totalWeight (detectIntent q) = Spec.accumulatedWeight q.
Proof.
  rewrite detectIntent_scan. cbv zeta. cbn [totalWeight].
  apply scanPatterns_total.
Qed.

Lemma detectIntent_confidence q :
  confidence (detectIntent q) = confidenceOf (totalWeight (detectIntent q)).
Proof.
  rewrite detectIntent_scan. cbv zeta. cbn [confidence totalWeight].
  reflexivity.
Qed.

(** Claim C5.  For every query the confidence tier is a function of the
    weight accumulated over all matched patterns (each contributing its
    weight times the number of its trigger phrases found in the
    lower-cased query): at least 15 gives [high], at least 7 [medium],
    anything less [low].  The query "batch apex queueable" is classified
    as subcategory "apex" with confidence [high]; and the total, not the
    winner's share, decides: "apex lwc" is [high] although its winning
    pair holds only 10. *)
Theorem confidence_from_total_weight :
  (∀ q,
     totalWeight (detectIntent q) = Spec.accumulatedWeight q ∧
     confidence (detectIntent q) =
       (if 15 <=? Spec.accumulatedWeight q then high
        else if 7 <=? Spec.accumulatedWeight q then medium
        else low)) ∧
  (subcategory (detectIntent (js "batch apex queueable")) = Some (js "apex") ∧
   confidence (detectIntent (js "batch apex queueable")) = high) ∧
  (Spec.winnerWeight (js "apex lwc") = Some 10 ∧
   confidence (detectIntent (js "apex lwc")) = high).
Proof.
  split; [|split].
  - intros q. split; [apply detectIntent_totalWeight|].
    rewrite detectIntent_confidence, detectIntent_totalWeight. reflexivity.
  - split; vm_compute; reflexivity.
  - split; vm_compute; reflexivity.
Qed.

End IntentProofs.

(* ================================================================== *)
(** * Query expander *)
(* ================================================================== *)

Module ExpanderProofs.
Import Intent.

Section Uniq.
Context {A : Type} `{EqDecision A}.

Lemma uniqAcc_spec (seen xs : list A) :
  NoDup (JS.uniqAcc seen xs) ∧ ∀ x, x ∈ JS.uniqAcc seen xs → (x ∉ seen) ∧ (x ∈ xs).
Proof.
  revert seen. induction xs as [|x xs IH]; intros seen; simpl.
  - split; [constructor|]. intros x Hx. by apply elem_of_nil in Hx.
  - destruct (bool_decide_reflect (x ∈ seen)) as [Hin|Hnin].
    + destruct (IH seen) as [Hnd Hsub]. split; [done|].
      intros y Hy. destruct (Hsub y Hy). split; [done|]. by right.
    + destruct (IH (x :: seen)) as [Hnd Hsub]. split.
      * constructor; [|done]. intros Hx. destruct (Hsub x Hx) as [Hns _].
        apply Hns. by left.
      * intros y Hy. apply elem_of_cons in Hy as [->|Hy].
        -- split; [done|]. by left.
        -- destruct (Hsub y Hy) as [Hns Hxs]. split; [|by right].
           intros Hys. apply Hns. by right.
Qed.

Lemma NoDup_uniq (xs : list A) : NoDup (JS.uniq xs).
Proof. apply uniqAcc_spec. Qed.

Lemma uniqAcc_NoDup_id (seen xs : list A) :
  NoDup xs → (∀ x, x ∈ xs → x ∉ seen) → JS.uniqAcc seen xs = xs.
Proof.
  revert seen. induction xs as [|x xs IH]; intros seen Hnd Hdis; simpl; [done|].
  apply NoDup_cons in Hnd as [Hx Hnd].
  destruct (bool_decide_reflect (x ∈ seen)) as [Hin|Hnin].
  - exfalso. apply (Hdis x); [by left|done].
  - f_equal. apply IH; [done|]. intros y Hy Hys.
    apply elem_of_cons in Hys as [->|Hys]; [done|].
    apply (Hdis y); [by right|done].
Qed.

Lemma uniq_idemp (xs : list A) : JS.uniq (JS.uniq xs) = JS.uniq xs.
Proof.
  apply uniqAcc_NoDup_id; [apply NoDup_uniq|].
  intros x _ Hx. by apply elem_of_nil in Hx.
Qed.

End Uniq.

Lemma NoDup_take {A} (n : nat) (l : list A) : NoDup l → NoDup (take n l).
Proof. intros H. eapply sublist_NoDup; [exact H|apply sublist_take]. Qed.

Lemma buildReasoning_nonempty q i cs : buildReasoning q i cs ≠ [].
Proof.
  unfold buildReasoning.
  destruct (JS.join _ _) eqn:E; [discriminate|discriminate].
Qed.

(** Claim C8.  The expander is a total function of the query and the
    optional context: it always returns an expansion, whose
    [expandedTerms] has no duplicates and at most 20 entries, whose
    detected concepts are the classifier's matched phrases, whose
    suggested category and confidence are the classifier's, and whose
    reasoning text is not empty. *)
Theorem expandQuery_contract (query : str) (context : option str) :
  let e := expandQueryToKeywords query context in
  NoDup (expandedTerms e) ∧
  (length (expandedTerms e) ≤ 20)%nat ∧
  detectedConcepts e = matchedPatterns (detectIntent query) ∧
  suggestedCategory e = category (detectIntent query) ∧
  x_confidence e = confidence (detectIntent query) ∧
  reasoning e ≠ [].
Proof.
  unfold expandQueryToKeywords.
  cbn [expandedTerms detectedConcepts suggestedCategory x_confidence reasoning].
  repeat split.
  - apply NoDup_take, NoDup_uniq.
  - rewrite length_take. lia.
  - rewrite IntentProofs.detectIntent_scan. cbv zeta.
    cbn [matchedPatterns]. apply uniq_idemp.
  - apply buildReasoning_nonempty.
Qed.

End ExpanderProofs.

(* ================================================================== *)
(** * Retrieval engine: the cache and the state a search leaves *)
(* ================================================================== *)

Module CacheFacts.
Import Store Search.

Lemma find_hasKey_key k c e :
  List.find (hasKey k) c = Some e → e_key e = k ∧ e ∈ c.
Proof.
  intros H. apply find_some in H as [Hin Hk].
  split; [|by apply list_elem_of_In].
  unfold hasKey in Hk. by apply bool_decide_eq_true in Hk.
Qed.

Lemma find_cacheDelete k c : List.find (hasKey k) (cacheDelete k c) = None.
Proof.
  unfold cacheDelete. induction c as [|e c IH]; simpl; [done|].
  destruct (hasKey k e) eqn:E; simpl; [done|]. by rewrite E.
Qed.

Lemma elem_of_cacheDelete k c e : e ∈ cacheDelete k c → e ∈ c.
Proof.
  unfold cacheDelete. rewrite !list_elem_of_In, filter_In. tauto.
Qed.

Lemma hasKey_refl k v t : hasKey k {| e_key := k; e_value := v; e_start := t |} = true.
Proof. unfold hasKey. simpl. by apply bool_decide_eq_true. Qed.

Lemma find_cacheSet now k v c :
  List.find (hasKey k) (cacheSet now k v c) =
  Some {| e_key := k; e_value := v; e_start := now |}.
Proof.
  unfold cacheSet.
  destruct (List.find (hasKey k) c); [|destruct (CACHE_MAX <=? length c)%nat];
    simpl; by rewrite hasKey_refl.
Qed.

Lemma elem_of_cacheSet now k v c e :
  e ∈ cacheSet now k v c →
  e = {| e_key := k; e_value := v; e_start := now |} ∨ e ∈ c.
Proof.
  unfold cacheSet.
  destruct (List.find (hasKey k) c); [|destruct (CACHE_MAX <=? length c)%nat];
    intros H; apply elem_of_cons in H as [->|H]; auto; right.
  - by apply elem_of_cacheDelete in H.
  - by apply JSFacts.elem_of_removelast.
Qed.

(** The three ways [cache.get] can answer. *)
Lemma cacheGet_cases now k c :
  (List.find (hasKey k) c = None ∧ cacheGet now k c = (None, c)) ∨
  (∃ e, List.find (hasKey k) c = Some e ∧ isStale now e = true ∧
        cacheGet now k c = (None, cacheDelete k c)) ∨
  (∃ e, List.find (hasKey k) c = Some e ∧ isStale now e = false ∧
        cacheGet now k c = (Some (e_value e), e :: cacheDelete k c)).
Proof.
  unfold cacheGet. destruct (List.find (hasKey k) c) as [e|] eqn:E; [|by left].
  right. destruct (isStale now e) eqn:S; [left|right]; by exists e.
Qed.

Lemma cacheGet_miss_find now k c c' :
  cacheGet now k c = (None, c') → List.find (hasKey k) c' = None.
Proof.
  destruct (cacheGet_cases now k c) as [[H1 H2]|[(e&H1&H2&H3)|(e&H1&H2&H3)]];
    rewrite ?H2, ?H3; intros [= <-]; [done|apply find_cacheDelete].
Qed.

Lemma cacheGet_subset now k c o c' e :
  cacheGet now k c = (o, c') → e ∈ c' → e ∈ c.
Proof.
  destruct (cacheGet_cases now k c) as [[H1 H2]|[(x&H1&H2&H3)|(x&H1&H2&H3)]];
    rewrite ?H2, ?H3; intros [= <- <-]; [done|apply elem_of_cacheDelete|].
  intros H. apply elem_of_cons in H as [->|H].
  - by apply find_hasKey_key in H1 as [_ ?].
  - by apply elem_of_cacheDelete in H.
Qed.

Lemma cacheGet_hit now k c v c' :
  cacheGet now k c = (Some v, c') →
  ∃ e, e ∈ c ∧ e_key e = k ∧ e_value e = v ∧ isStale now e = false ∧
       c' = e :: cacheDelete k c.
Proof.
  destruct (cacheGet_cases now k c) as [[H1 H2]|[(e&H1&H2&H3)|(e&H1&H2&H3)]];
    rewrite ?H2, ?H3; intros [= <- <-].
  apply find_hasKey_key in H1 as [? ?]. by exists e.
Qed.

End CacheFacts.


Module SearchState.
Import Store Search CacheFacts Spec.

Opaque Intent.detectIntent Intent.describeIntent.

(** [getDatabase] either hands out the resident store, loads it, or
    fails; it never touches the cache. *)
Lemma getDatabase_resident env w d :
  db w = Some d → getDatabase env w = (Some d, w).
Proof. intros H. unfold getDatabase. by rewrite H. Qed.

Lemma getDatabase_Some env w d w' :
  getDatabase env w = (Some d, w') →
  db w' = Some d ∧ searchCache w' = searchCache w ∧
  (db w = Some d ∧ w' = w ∨ db w = None ∧ trace w' = trace w ++ [LoadStore]).
Proof.
  unfold getDatabase. destruct (db w) as [d0|] eqn:E.
  - intros [= <- <-]. auto.
  - destruct (SQL w || sqlLoads env); [|discriminate].
    destruct (disk env); intros [= <- <-]; simpl; auto.
Qed.

Lemma getDatabase_None env w w' :
  getDatabase env w = (None, w') →
  db w = None ∧ db w' = None ∧ searchCache w' = searchCache w ∧
  (trace w' = trace w ∨ trace w' = trace w ++ [LoadStore]).
Proof.
  unfold getDatabase. destruct (db w) as [d0|] eqn:E; [discriminate|].
  destruct (SQL w || sqlLoads env).
  - destruct (disk env); intros [= <-]; simpl; auto.
  - intros [= <-]. auto.
Qed.

Lemma searchPatterns_nil q o :
  searchPatterns (ctxOf q o) = [] ↔ searchTermsOf (sanitizeQuery q) = [].
Proof.
  unfold ctxOf, ctxFor. cbn [searchPatterns]. unfold buildSearchPatterns.
  destruct (searchTermsOf (sanitizeQuery q)); simpl; split; congruence.
Qed.

(** On a miss with a non-empty term list and a store with tables, the
    search returns, and caches, the list computed for its key. *)
Lemma resolve_key q o :
  resolveFilters o (intent (ctxOf q o)) =
  (k_effectiveCategory (cacheKeyOf q o), k_effectiveSubcategory (cacheKeyOf q o),
   usedIntentFilter (ctxOf q o)).
Proof.
  unfold cacheKeyOf. simpl.
  by destruct (resolveFilters o (Intent.detectIntent (sanitizeQuery q)))
    as [[c s] u].
Qed.

Lemma key_query q o : k_query (cacheKeyOf q o) = sanitizeQuery q.
Proof.
  unfold cacheKeyOf. simpl.
  by destruct (resolveFilters o (Intent.detectIntent (sanitizeQuery q)))
    as [[c s] u].
Qed.

Lemma key_options q o : k_options (cacheKeyOf q o) = o.
Proof.
  unfold cacheKeyOf. simpl.
  by destruct (resolveFilters o (Intent.detectIntent (sanitizeQuery q)))
    as [[c s] u].
Qed.

Lemma ctx_key q o :
  ctxFor (k_query (cacheKeyOf q o)) (k_options (cacheKeyOf q o)) = ctxOf q o.
Proof. by rewrite key_query, key_options. Qed.

Lemma searchDocuments_cases env now q o w :
  searchCase env now q o w
    (fst (searchDocuments env now q o w)) (snd (searchDocuments env now q o w)).
Proof.
  unfold searchDocuments.
  destruct (getDatabase env w) as [[d|] w1] eqn:Hdb.
  2:{ cbn [fst snd]. by apply case_load_failed. }
  rewrite resolve_key. cbv beta iota.
  destruct (cacheGet now (cacheKeyOf q o) (searchCache w1)) as [[cached|] c] eqn:Hget.
  { cbn [fst snd]. by eapply case_hit. }
  destruct (searchPatterns (ctxOf q o)) eqn:Hpat.
  { cbn [fst snd]. eapply case_empty; eauto. by apply (searchPatterns_nil q o). }
  assert (searchTermsOf (sanitizeQuery q) ≠ []) as Hne.
  { intros H. apply (searchPatterns_nil q o) in H. congruence. }
  cbv zeta.
  assert (hasSchema d
          && bindsLimit
               (sampleSizeFor (k_effectiveCategory (cacheKeyOf q o))
                  (k_effectiveSubcategory (cacheKeyOf q o)) (maxResultsOf o))
          = runs d (cacheKeyOf q o)) as ->.
  { unfold runs, sampleSizeOf. by rewrite key_options. }
  destruct (runs d (cacheKeyOf q o)) eqn:Hs.
  - pose proof (case_computed env now q o w d w1 c Hdb Hget Hne Hs) as H.
    unfold computed in H. rewrite ctx_key, key_options in H.
    destruct (widen _ _ _ _ _) as [rs evs] eqn:Hw. exact H.
  - cbn [fst snd]. by eapply case_query_failed.
Qed.

Lemma runs_hasSchema d k : runs d k = true → hasSchema d = true.
Proof. unfold runs. intros H. by apply andb_true_iff in H as [? _]. Qed.

Lemma searchDocuments_inv env now q o w out w' :
  searchDocuments env now q o w = (out, w') → searchCase env now q o w out w'.
Proof.
  intros H. pose proof (searchDocuments_cases env now q o w) as C.
  by rewrite H in C.
Qed.

End SearchState.

(* ================================================================== *)
(** * Retrieval engine: sorting, scoring and widening *)
(* ================================================================== *)

Module SearchPure.
Import Store Search Spec.

Opaque Intent.detectIntent Intent.describeIntent.

(** ** The stable sort *)

Section Sorting.
Context {A : Type} (before : A → A → bool).

Lemma elem_of_insertBy x l z :
  z ∈ insertBy before x l ↔ z = x ∨ z ∈ l.
Proof.
  induction l as [|y l IH]; simpl.
  - rewrite list_elem_of_singleton. split; [auto|].
    intros [?|H]; [done|by apply elem_of_nil in H].
  - destruct (before y x); rewrite !elem_of_cons, ?IH; tauto.
Qed.

Lemma elem_of_sortBy l z : z ∈ sortBy before l ↔ z ∈ l.
Proof.
  induction l as [|y l IH]; simpl; [done|].
  rewrite elem_of_insertBy, elem_of_cons, IH. tauto.
Qed.

Lemma length_insertBy x l : length (insertBy before x l) = S (length l).
Proof.
  induction l as [|y l IH]; simpl; [done|].
  destruct (before y x); simpl; by rewrite ?IH.
Qed.

Lemma length_sortBy l : length (sortBy before l) = length l.
Proof.
  induction l as [|y l IH]; simpl; [done|]. by rewrite length_insertBy, IH.
Qed.

End Sorting.

Lemma StronglySorted_take {A} (R : A → A → Prop) n l :
  StronglySorted R l → StronglySorted R (take n l).
Proof.
  intros H. revert n. induction H as [|x l Hs IH Hall]; intros [|n]; simpl;
    try constructor; [apply IH|].
  apply Forall_forall. intros y Hy. rewrite Forall_forall in Hall.
  apply Hall. apply (subseteq_take n l). exact Hy.
Qed.






(** ** Where a result comes from *)

Lemma elem_of_limit {A} n (l : list A) x : x ∈ limit n l → x ∈ l.
Proof.
  unfold limit. destruct (n <? 0); [done|]. apply subseteq_take.
Qed.



(** ** The scoring loop *)

Lemma fold_termStep cl terms mc occ :
  fold_left (termStep cl) terms (mc, occ) =
  ((mc + length (foundTerms cl terms))%nat,
   (occ + totalOccurrences cl terms)%nat).
Proof.
  revert mc occ. induction terms as [|t terms IH]; intros mc occ; simpl.
  - unfold totalOccurrences. simpl. f_equal; lia.
  - unfold totalOccurrences, foundTerms in *. simpl.
    destruct (JS.includes cl t); simpl; rewrite IH; f_equal; lia.
Qed.

(** ** Widening *)

Lemma widen_results ctx d c s m :
  let n := sampleSizeFor c s m in
  fst (widen ctx d c s m) = executeSearch ctx d c s n ∨
  fst (widen ctx d c s m) = executeSearch ctx d c None n ∨
  fst (widen ctx d c s m) = executeSearch ctx d None None 500.
Proof.
  unfold widen. cbv zeta.
  destruct (usedIntentFilter ctx && _); [|by left].
  destruct (count _ <? count _); (destruct (count _ <? m); [|simpl; auto]);
    destruct (count _ <? count _); simpl; auto.
Qed.

Lemma slice0_take {A} (l : list A) m : ∃ n, slice0 l m = take n l.
Proof. unfold slice0. destruct (m <? 0); eauto. Qed.

Lemma slice0_length {A} (l : list A) m : 1 ≤ m → count (slice0 l m) ≤ m.
Proof.
  intros H. unfold slice0, count.
  destruct (Z.ltb_spec m 0); [lia|]. rewrite length_take. lia.
Qed.

Lemma slice0_count {A} (l : list A) m :
  0 ≤ m → count (slice0 l m) = Z.min m (count l).
Proof.
  intros H. unfold slice0, count.
  destruct (Z.ltb_spec m 0); [lia|]. rewrite length_take. lia.
Qed.



Lemma computed_length d k :
  1 ≤ maxResultsOf (k_options k) →
  count (computed d k) ≤ maxResultsOf (k_options k).
Proof. intros H. by apply slice0_length. Qed.

End SearchPure.

(* ================================================================== *)
(** * Retrieval engine: what a search returns *)
(* ================================================================== *)

Module SearchClaims.
Import Store Search Spec Props CacheFacts SearchState SearchPure.

Opaque Intent.detectIntent Intent.describeIntent.

(** ** The cache stays coherent with the loaded store *)

Lemma coherent_init : coherent initialWorld.
Proof. constructor. Qed.

Lemma entryOk_None_nil c : Forall (entryOk None) c → c = [].
Proof.
  destruct c as [|e c]; [done|]. intros H.
  apply Forall_cons in H as [(d & Hd & _) _]. discriminate.
Qed.

Lemma getDatabase_coherent env w o w1 :
  coherent w → getDatabase env w = (o, w1) → coherent w1.
Proof.
  unfold coherent. intros Hc H. destruct o as [d|].
  - apply getDatabase_Some in H as (Hd & Hcache & [[_ ->]|[Hn _]]); [done|].
    rewrite Hn in Hc. apply entryOk_None_nil in Hc.
    rewrite Hcache, Hc. constructor.
  - apply getDatabase_None in H as (Hn & _ & Hcache & _).
    rewrite Hn in Hc. apply entryOk_None_nil in Hc.
    rewrite Hcache, Hc. constructor.
Qed.

Lemma coherent_subset (w : World) (c : Cache) :
  coherent w → (∀ e, e ∈ c → e ∈ searchCache w) → coherent (withCache w c).
Proof.
  unfold coherent. simpl. intros Hc Hsub. apply Forall_forall.
  intros e He. rewrite Forall_forall in Hc. by apply Hc, Hsub.
Qed.

Lemma coherent_step env now q o w :
  coherent w → coherent (snd (searchDocuments env now q o w)).
Proof.
  intros Hc.
  destruct (searchDocuments_cases env now q o w)
    as [w1 Hdb|d w1 cached c Hdb Hget|d w1 c Hdb Hget Ht
       |d w1 c Hdb Hget Ht Hs|d w1 c Hdb Hget Ht Hs].
  - by eapply getDatabase_coherent.
  - apply coherent_subset; [by eapply getDatabase_coherent|].
    intros e. by eapply cacheGet_subset.
  - apply coherent_subset; [by eapply getDatabase_coherent|].
    intros e. by eapply cacheGet_subset.
  - pose proof (getDatabase_coherent _ _ _ _ Hc Hdb) as Hc1.
    apply getDatabase_Some in Hdb as (Hd & _).
    unfold coherent in *. simpl. apply Forall_forall. intros e He.
    apply elem_of_cacheSet in He as [->|He].
    + exists d. simpl. rewrite key_query. done.
    + rewrite Forall_forall in Hc1. apply Hc1. by eapply cacheGet_subset.
  - pose proof (getDatabase_coherent _ _ _ _ Hc Hdb) as Hc1.
    unfold coherent in *. simpl. apply Forall_forall. intros e He.
    rewrite Forall_forall in Hc1. apply Hc1. by eapply cacheGet_subset.
Qed.

Lemma reachable_coherent w : reachable w → coherent w.
Proof.
  induction 1; [apply coherent_init|by apply coherent_step].
Qed.

(** The cache is invisible: whatever path a search takes, a returned
    list is the answer computed from the loaded store. *)
Lemma search_answer env now q o w r w' :
  coherent w →
  searchDocuments env now q o w = (Ok r, w') →
  ∃ d, db w' = Some d ∧ r = answer d q o.
Proof.
  intros Hc H. apply searchDocuments_inv in H.
  inversion H as [|d w1 cached c Hdb Hget|d w1 c Hdb Hget Ht
                 |d w1 c Hdb Hget Ht Hs|]; subst; clear H.
  - pose proof (getDatabase_coherent _ _ _ _ Hc Hdb) as Hc1.
    apply cacheGet_hit in Hget as (e & He & Hk & Hv & _ & _).
    unfold coherent in Hc1. rewrite Forall_forall in Hc1.
    destruct (Hc1 e He) as (d' & Hd' & _ & Hterms & Hval).
    exists d'. split; [done|]. unfold answer.
    rewrite Hk, key_query in Hterms.
    destruct (searchTermsOf (sanitizeQuery q)); [done|].
    by rewrite <- Hv, Hval, Hk.
  - apply getDatabase_Some in Hdb as (Hd & _).
    exists d. split; [done|]. unfold answer. by rewrite Ht.
  - apply getDatabase_Some in Hdb as (Hd & _).
    exists d. split; [done|]. unfold answer.
    by destruct (searchTermsOf (sanitizeQuery q)).
Qed.

(** ** Empty queries *)

(** The claim as the specification words it fails on a cold start: the
    first search, even of the empty query, loads the store from disk;
    and when that load fails the search fails instead of returning the
    empty list. *)
Lemma empty_query_loads_store :
  searchTermsOf (sanitizeQuery (js "")) = [] ∧
  searchDocuments Sample.env 0 (js "") noOptions initialWorld
    = (Ok [],
       {| SQL := true; db := Some Sample.database; searchCache := [];
          trace := [LoadStore] |}) ∧
  fst (searchDocuments Sample.brokenEnv 0 (js "") noOptions initialWorld)
    = LoadFailed.
Proof. repeat split; vm_compute; reflexivity. Qed.

(** Claim C2 (amended).  For every query whose sanitized form tokenizes
    to an empty term list, a search runs no query against the store:
    the only storage access it can make is [getDatabase]'s one-time
    load of the store.  When the store is already resident the search
    returns the empty list and touches no storage at all; otherwise it
    returns the empty list after loading the store, or fails when the
    store cannot be loaded. *)
Theorem empty_query_runs_no_query env now q o w :
  reachable w →
  searchTermsOf (sanitizeQuery q) = [] →
  let out := fst (searchDocuments env now q o w) in
  let w' := snd (searchDocuments env now q o w) in
  (out = Ok [] ∨ out = LoadFailed) ∧
  (trace w' = trace w ∨ trace w' = trace w ++ [LoadStore]) ∧
  (is_Some (db w) → out = Ok [] ∧ trace w' = trace w) ∧
  (out = LoadFailed → db w = None ∧ db w' = None).
Proof.
  intros Hr Ht. apply reachable_coherent in Hr as Hc. cbv zeta.
  destruct (searchDocuments_cases env now q o w)
    as [w1 Hdb|d w1 cached c Hdb Hget|d w1 c Hdb Hget _
       |d w1 c Hdb Hget Hne Hs|d w1 c Hdb Hget Hne Hs]; try done.
  - apply getDatabase_None in Hdb as (Hn & Hn' & _ & Htr).
    split; [by right|]. split; [exact Htr|]. split.
    + intros [d Hd]. congruence.
    + done.
  - exfalso.
    pose proof (getDatabase_coherent _ _ _ _ Hc Hdb) as Hc1.
    apply cacheGet_hit in Hget as (e & He & Hk & _).
    unfold coherent in Hc1. rewrite Forall_forall in Hc1.
    destruct (Hc1 e He) as (d' & _ & _ & Hterms & _).
    by rewrite Hk, key_query in Hterms.
  - apply getDatabase_Some in Hdb as (Hd & _ & Hcase). simpl.
    split; [by left|]. split; [|split].
    + destruct Hcase as [[_ ->]|[_ ->]]; auto.
    + intros [d' Hd']. split; [done|].
      destruct Hcase as [[_ ->]|[Hn _]]; [done|congruence].
    + discriminate.
Qed.

Lemma empty_query_runs_no_query_witness :
  fst (searchDocuments Sample.env 0 (js "   ") noOptions initialWorld) = Ok [] ∨
  fst (searchDocuments Sample.env 0 (js "   ") noOptions initialWorld) = LoadFailed.
Proof.
  apply (empty_query_runs_no_query Sample.env 0 (js "   ") noOptions initialWorld).
  - apply reach_init.
  - vm_compute. reflexivity.
Defined.

(** ** Result count *)

(** The claim as the specification words it fails for [maxResults = 0],
    which the engine reads as "not supplied". *)
Lemma zero_maxResults_returns_results :
  ∃ r w', searchDocuments Sample.env 0 (js "rest api callouts")
            (Sample.withMax 0) initialWorld = (Ok r, w') ∧
          ¬ (count r ≤ 0).
Proof.
  eexists _, _. split; [vm_compute; reflexivity|].
  vm_compute. intros H. by apply H.
Qed.

(** Claim C10 (amended).  For every query and every options value whose
    [maxResults] is absent or at least 1 (what the tool layer lets
    through), every search that returns -- on the filtered, widened,
    unfiltered and cache-hit paths alike -- returns at most [maxResults]
    results, at most 5 when [maxResults] is absent. *)
Theorem result_count_bound env now q o w r w' :
  reachable w →
  (∀ n, o_maxResults o = Some n → 1 ≤ n) →
  searchDocuments env now q o w = (Ok r, w') →
  count r ≤ default 5 (o_maxResults o).
Proof.
  intros Hr Hm H. apply reachable_coherent in Hr.
  destruct (search_answer _ _ _ _ _ _ _ Hr H) as (d & _ & ->).
  assert (maxResultsOf o = default 5 (o_maxResults o) ∧ 1 ≤ maxResultsOf o)
    as [Heq Hge].
  { unfold maxResultsOf. destruct (o_maxResults o) as [n|] eqn:E; simpl; [|lia].
    specialize (Hm n eq_refl). destruct (Z.eqb_spec n 0); lia. }
  unfold answer. destruct (searchTermsOf (sanitizeQuery q)).
  - unfold count. simpl. lia.
  - rewrite <- Heq. rewrite <- (key_options q o) at 2.
    apply computed_length. by rewrite key_options.
Qed.

Lemma result_count_bound_witness :
  ∃ r w', searchDocuments Sample.env 0 (js "apex") (Sample.withMax 1)
            initialWorld = (Ok r, w') ∧
          count r ≤ 1.
Proof.
  eexists _, _. split; [vm_compute; reflexivity|].
  eapply (result_count_bound Sample.env 0 (js "apex") (Sample.withMax 1)
            initialWorld).
  - apply reach_init.
  - intros n [= <-]. lia.
  - vm_compute. reflexivity.
Defined.

(** A [maxResults] so large that the sample size leaves the 64-bit
    integers makes the search fail: the statement does not take its
    [LIMIT]. *)
Remark huge_maxResults_fails :
  fst (searchDocuments Sample.env 0 (js "apex") (Sample.withMax (10 ^ 18))
         initialWorld) = SearchFailed.
Proof. vm_compute. reflexivity. Qed.

(** ** Cache transparency *)

Lemma search_hit env now q o w d e :
  db w = Some d →
  List.find (hasKey (cacheKeyOf q o)) (searchCache w) = Some e →
  isStale now e = false →
  searchDocuments env now q o w =
    (Ok (e_value e),
     withCache w (e :: cacheDelete (cacheKeyOf q o) (searchCache w))).
Proof.
  intros Hd Hf Hs. unfold searchDocuments.
  rewrite (getDatabase_resident env w d Hd), resolve_key. cbv beta iota.
  unfold cacheGet. by rewrite Hf, Hs.
Qed.

(** An entry is live as long as the clock has not passed its start by
    more than the TTL. *)
Lemma isStale_within now e : now - e_start e ≤ CACHE_TTL → isStale now e = false.
Proof.
  intros H. unfold isStale.
  destruct (Z.ltb_spec CACHE_TTL (now - e_start e)); [lia|apply andb_false_r].
Qed.

(** Searches never drop or replace the resident store, and lead from
    reachable worlds to reachable worlds. *)
Lemma search_keeps_store env now q o w d :
  db w = Some d → db (snd (searchDocuments env now q o w)) = Some d.
Proof.
  intros Hd. pose proof (getDatabase_resident env w d Hd) as Hg.
  destruct (searchDocuments_cases env now q o w)
    as [w1 Hdb|d1 w1 cached c Hdb Hget|d1 w1 c Hdb Hget Ht
       |d1 w1 c Hdb Hget Ht Hs|d1 w1 c Hdb Hget Ht Hs];
    rewrite Hg in Hdb; try discriminate; by injection Hdb as <- <-.
Qed.

Lemma searchAll_keeps_store calls w d :
  db w = Some d → db (snd (searchAll calls w)) = Some d.
Proof.
  revert w. induction calls as [|c calls IH]; intros w Hd; simpl; [done|].
  pose proof (search_keeps_store (c_env c) (c_now c) (c_query c) (c_options c)
                w d Hd) as Hd1.
  destruct (searchDocuments _ _ _ _ w) as [out w1]. simpl in Hd1.
  specialize (IH w1 Hd1). by destruct (searchAll calls w1).
Qed.

Lemma searchAll_reachable calls w :
  reachable w → reachable (snd (searchAll calls w)).
Proof.
  revert w. induction calls as [|c calls IH]; intros w Hr; simpl; [done|].
  pose proof (reach_search (c_env c) (c_now c) (c_query c) (c_options c) w Hr)
    as Hr1.
  destruct (searchDocuments _ _ _ _ w) as [out w1]. simpl in Hr1.
  specialize (IH w1 Hr1). by destruct (searchAll calls w1).
Qed.

(** What the first of two searches leaves behind: the store, and for a
    query with a term the entry of its key, holding the list returned. *)
Lemma search_leaves_entry env now q o w r w1 :
  coherent w →
  searchDocuments env now q o w = (Ok r, w1) →
  searchTermsOf (sanitizeQuery q) ≠ [] →
  ∃ d e, db w1 = Some d ∧ runs d (cacheKeyOf q o) = true ∧
         List.find (hasKey (cacheKeyOf q o)) (searchCache w1) = Some e ∧
         e_value e = r ∧
         (List.find (hasKey (cacheKeyOf q o)) (searchCache w) = None →
          e_start e = now).
Proof.
  intros Hc H Hne. apply searchDocuments_inv in H.
  inversion H as [|d w0 cached c Hdb Hget|d w0 c Hdb Hget Ht
                 |d w0 c Hdb Hget Ht Hs|]; subst; clear H; [| |].
  - pose proof (getDatabase_coherent _ _ _ _ Hc Hdb) as Hc1.
    apply getDatabase_Some in Hdb as (Hd & Hcache & _).
    destruct (cacheGet_cases now (cacheKeyOf q o) (searchCache w0))
      as [[H1 H2]|[(e&H1&H2&H3)|(e&H1&H2&H3)]];
      rewrite ?H2, ?H3 in Hget; try discriminate.
    injection Hget as <- <-.
    apply find_hasKey_key in H1 as Hk. destruct Hk as [Hk Hin].
    unfold coherent in Hc1. rewrite Forall_forall in Hc1.
    destruct (Hc1 e Hin) as (d' & Hd' & Hs' & _).
    assert (d' = d) as -> by congruence. rewrite Hk in Hs'.
    exists d, e. split; [done|]. split; [done|]. simpl.
    unfold hasKey at 1. rewrite bool_decide_eq_true_2 by done.
    split; [done|]. split; [done|]. rewrite <- Hcache. congruence.
  - done.
  - apply getDatabase_Some in Hdb as (Hd & _).
    exists d, {| e_key := cacheKeyOf q o;
                 e_value := computed d (cacheKeyOf q o); e_start := now |}.
    split; [done|]. split; [done|]. simpl.
    by rewrite find_cacheSet.
Qed.

(** In a coherent world whose store runs the search of the query, a
    search returns the answer computed from the store -- hit or miss. *)
Lemma search_again env now q o w d :
  coherent w → db w = Some d →
  (searchTermsOf (sanitizeQuery q) ≠ [] → runs d (cacheKeyOf q o) = true) →
  fst (searchDocuments env now q o w) = Ok (answer d q o).
Proof.
  intros Hc Hd Hs.
  pose proof (search_keeps_store env now q o w d Hd) as Hd'.
  pose proof (getDatabase_resident env w d Hd) as Hg.
  destruct (searchDocuments env now q o w) as [out w'] eqn:E. simpl in *.
  destruct out as [r| |].
  - destruct (search_answer _ _ _ _ _ _ _ Hc E) as (d' & Hd'' & ->).
    congruence.
  - apply searchDocuments_inv in E. inversion E as [w1 Hdb| | | |]; subst.
    rewrite Hg in Hdb. discriminate.
  - apply searchDocuments_inv in E.
    inversion E as [| | | |d1 w1 c Hdb Hget Ht Hs1]; subst.
    rewrite Hg in Hdb. injection Hdb as <- <-. specialize (Hs Ht). congruence.
Qed.

(** Claim C9.  When a search has returned a list -- the list computed
    from the resident store for the key of the call: the sanitized
    query, the options and the effective category and subcategory
    ([cacheKeyOf]), which for a query with a term the search leaves in
    the cache under that key -- an identical search made later, after
    any searches in between, returns the very same list.  When at that
    time the key still has its entry (it was not evicted) and the clock
    has not passed the start of the entry by more than the TTL, the
    second search is a hit: it hands back the stored list, runs no
    query and no load, and only moves the entry to the front of the
    cache. *)
Theorem cache_transparency env1 env2 now1 now2 q o w r1 w1 calls :
  reachable w →
  searchDocuments env1 now1 q o w = (Ok r1, w1) →
  let key := cacheKeyOf q o in
  let w2 := snd (searchAll calls w1) in
  ∃ d,
    db w1 = Some d ∧
    r1 = answer d q o ∧
    (searchTermsOf (sanitizeQuery q) ≠ [] →
     r1 = computed d key ∧
     ∃ e1, List.find (hasKey key) (searchCache w1) = Some e1 ∧
           e_value e1 = r1 ∧
           (List.find (hasKey key) (searchCache w) = None →
            e_start e1 = now1)) ∧
    ∃ w3,
      searchDocuments env2 now2 q o w2 = (Ok r1, w3) ∧
      ∀ e, List.find (hasKey key) (searchCache w2) = Some e →
           now2 - e_start e ≤ CACHE_TTL →
           e_value e = r1 ∧
           trace w3 = trace w2 ∧
           searchCache w3 = e :: cacheDelete key (searchCache w2).
Proof.
  intros Hr H key w2.
  apply reachable_coherent in Hr as Hc.
  destruct (search_answer _ _ _ _ _ _ _ Hc H) as (d & Hd & Hans).
  assert (searchTermsOf (sanitizeQuery q) ≠ [] →
          runs d (cacheKeyOf q o) = true) as Hs.
  { intros Hne.
    destruct (search_leaves_entry _ _ _ _ _ _ _ Hc H Hne)
      as (d' & _ & Hd' & Hs' & _). congruence. }
  assert (reachable w1) as Hr1.
  { pose proof (reach_search env1 now1 q o w Hr) as Hr1. by rewrite H in Hr1. }
  assert (coherent w2) as Hc2
    by (apply reachable_coherent, searchAll_reachable; exact Hr1).
  assert (db w2 = Some d) as Hd2 by (by apply searchAll_keeps_store).
  exists d. split; [exact Hd|]. split; [exact Hans|]. split.
  - intros Hne. split.
    + rewrite Hans. unfold answer.
      by destruct (searchTermsOf (sanitizeQuery q)).
    + destruct (search_leaves_entry _ _ _ _ _ _ _ Hc H Hne)
        as (d' & e1 & _ & _ & Hf & Hv & Hstart).
      by exists e1.
  - pose proof (search_again env2 now2 q o w2 d Hc2 Hd2 Hs) as Hagain.
    destruct (searchDocuments env2 now2 q o w2) as [out w3] eqn:E.
    simpl in Hagain. subst out. rewrite <- Hans in E |- *.
    exists w3. split; [reflexivity|].
    intros e He Hlive.
    pose proof (search_hit env2 now2 q o w2 d e Hd2 He
                  (isStale_within now2 e Hlive)) as Hhit.
    fold key in Hhit. rewrite Hhit in E.
    injection E as Hv <-. done.
Qed.

(** A search at time 1000 computes three results for "apex trigger";
    after a search for another query, the same search at the end of
    the TTL window is a hit, though the file can no longer be read. *)
Lemma cache_transparency_witness :
  let q := js "apex trigger" in
  let first := searchDocuments Sample.env 1000 q noOptions initialWorld in
  let between :=
    [ {| c_env := Sample.env; c_now := 2000; c_query := js "rest api";
         c_options := noOptions |} ] in
  let w2 := snd (searchAll between (snd first)) in
  let r1 := answer Sample.database q noOptions in
  fst first = Ok r1 ∧
  length r1 = 3%nat ∧
  ∃ w3,
    searchDocuments Sample.brokenEnv (1000 + CACHE_TTL) q noOptions w2
      = (Ok r1, w3) ∧
    trace w3 = trace w2.
Proof.
  intros q first between w2 r1.
  destruct (cache_transparency Sample.env Sample.brokenEnv 1000
              (1000 + CACHE_TTL) q noOptions initialWorld
              (computed Sample.database (cacheKeyOf q noOptions))
              (snd first) between reach_init)
    as (d & Hd & Hans & _ & w3 & Hsecond & Hhit).
  { vm_compute. reflexivity. }
  assert (d = Sample.database) as ->.
  { assert (db (snd first) = Some Sample.database) as Hd'
      by (vm_compute; reflexivity).
    congruence. }
  fold r1 in Hans. rewrite Hans in Hsecond.
  split; [vm_compute; reflexivity|]. split; [vm_compute; reflexivity|].
  exists w3. split; [exact Hsecond|].
  destruct (Hhit {| e_key := cacheKeyOf q noOptions; e_value := r1;
                    e_start := 1000 |}) as (_ & Htr & _).
  - vm_compute. reflexivity.
  - vm_compute. discriminate.
  - exact Htr.
Defined.

(** ** Fallback widening *)

Lemma count_nonneg {A} (l : list A) : 0 ≤ count l.
Proof. unfold count. lia. Qed.

Lemma widen_monotone ctx d c s m :
  usedIntentFilter ctx = true →
  let n := sampleSizeFor c s m in
  let filtered := executeSearch ctx d c s n in
  let categoryOnly := executeSearch ctx d c None n in
  let unfiltered := executeSearch ctx d None None 500 in
  let final := fst (widen ctx d c s m) in
  count filtered < m →
  count filtered ≤ count (slice0 final m) ∧
  count filtered ≤ count final ∧
  (final = filtered ∨
   (final = categoryOnly ∧ count filtered < count categoryOnly) ∨
   (final = unfiltered ∧ count filtered < count unfiltered
    ∧ count categoryOnly < count unfiltered)) ∧
  (m ≤ count categoryOnly → final = categoryOnly).
Proof.
  intros Hu n filtered categoryOnly unfiltered final Hlt.
  pose proof (count_nonneg filtered) as H0.
  assert (count filtered ≤ count final ∧
          (final = filtered ∨
           (final = categoryOnly ∧ count filtered < count categoryOnly) ∨
           (final = unfiltered ∧ count filtered < count unfiltered
            ∧ count categoryOnly < count unfiltered)) ∧
          (m ≤ count categoryOnly → final = categoryOnly)) as (H1 & H2 & H3).
  { subst final. unfold widen. cbv zeta. rewrite Hu.
    fold n. fold filtered. fold categoryOnly. fold unfiltered.
    destruct (Z.ltb_spec (count filtered) m) as [_|]; [|lia]. simpl andb. cbv iota.
    destruct (Z.ltb_spec (count filtered) (count categoryOnly)) as [Hc|Hc].
    - destruct (Z.ltb_spec (count categoryOnly) m) as [Hm|Hm].
      + destruct (Z.ltb_spec (count categoryOnly) (count unfiltered)) as [Hf|Hf];
          simpl; (split; [lia|]); (split; [|lia]).
        * right; right. repeat split; [lia|done].
        * right; left. done.
      + simpl. split; [lia|]. split; [|done]. right; left. done.
    - destruct (Z.ltb_spec (count filtered) m) as [Hm|Hm]; [|lia].
      destruct (Z.ltb_spec (count filtered) (count unfiltered)) as [Hf|Hf];
        simpl; (split; [lia|]); (split; [|lia]).
      * right; right. repeat split; [done|lia].
      * by left. }
  split; [|done].
  rewrite slice0_count by lia. lia.
Qed.

(** Claim C6.  For every search that applied the automatic intent
    filter and whose filtered attempt found fewer than [maxResults]
    results, the list returned is never shorter than the filtered
    attempt.  It is the first [maxResults] results of the attempt the
    widening ends on: the category-only attempt is adopted only when it
    has strictly more results than the filtered one, the unfiltered
    attempt only when it has strictly more than both, and a
    category-only attempt that already reaches [maxResults] is kept. *)
Theorem fallback_monotone env now q o w r w' d :
  reachable w →
  searchDocuments env now q o w = (Ok r, w') →
  db w' = Some d →
  searchTermsOf (sanitizeQuery q) ≠ [] →
  usedIntentFilter (ctxOf q o) = true →
  let key := cacheKeyOf q o in
  let m := maxResultsOf o in
  let n := sampleSizeFor (k_effectiveCategory key) (k_effectiveSubcategory key) m in
  let filtered :=
    executeSearch (ctxOf q o) d (k_effectiveCategory key)
      (k_effectiveSubcategory key) n in
  let categoryOnly :=
    executeSearch (ctxOf q o) d (k_effectiveCategory key) None n in
  let unfiltered := executeSearch (ctxOf q o) d None None 500 in
  count filtered < m →
  count filtered ≤ count r ∧
  ∃ final,
    r = slice0 final m ∧
    count filtered ≤ count final ∧
    (final = filtered ∨
     (final = categoryOnly ∧ count filtered < count categoryOnly) ∨
     (final = unfiltered ∧ count filtered < count unfiltered
      ∧ count categoryOnly < count unfiltered)) ∧
    (m ≤ count categoryOnly → final = categoryOnly).
Proof.
  intros Hr H Hd Hne Hu key m n filtered categoryOnly unfiltered Hlt.
  apply reachable_coherent in Hr.
  destruct (search_answer _ _ _ _ _ _ _ Hr H) as (d' & Hd' & ->).
  assert (d' = d) as -> by congruence.
  unfold answer. destruct (searchTermsOf (sanitizeQuery q)) eqn:E; [done|].
  unfold computed. rewrite ctx_key, key_options. fold key. fold m.
  destruct (widen_monotone (ctxOf q o) d (k_effectiveCategory key)
              (k_effectiveSubcategory key) m Hu Hlt) as (H1 & H2 & H3 & H4).
  split; [exact H1|].
  eexists. split; [reflexivity|]. split; [exact H2|]. split; [exact H3|exact H4].
Qed.

Lemma fallback_monotone_witness :
  ∃ r w',
    searchDocuments Sample.env 0 (js "apex apex foo") noOptions initialWorld
      = (Ok r, w') ∧
    2 ≤ count r.
Proof.
  eexists _, _. split; [vm_compute; reflexivity|].
  eapply (fallback_monotone Sample.env 0 (js "apex apex foo") noOptions
            initialWorld _ _ Sample.database).
  - apply reach_init.
  - vm_compute. reflexivity.
  - reflexivity.
  - vm_compute. discriminate.
  - vm_compute. reflexivity.
  - vm_compute. reflexivity.
Defined.

(** ** Scoring *)

Lemma toResult_score ctx doc c :
  searchTerms ctx ≠ [] →
  let x := toResult ctx (doc, c) in
  let terms := searchTerms ctx in
  chunk x = content c ∧
  m_priority (document x) = priorityOf doc ∧
  matchDensity x = density (content_lower c) terms ∧
  (score x ==
     scoreFormula (matchDensity x) (m_priority (document x))
       (totalOccurrences (content_lower c) terms))%Q.
Proof.
  intros Hne. unfold toResult. rewrite fold_termStep. cbv zeta.
  cbn [chunk document m_priority matchDensity score].
  assert (densityOf (0 + length (foundTerms (content_lower c) (searchTerms ctx)))
            (length (searchTerms ctx))
          = density (content_lower c) (searchTerms ctx)) as ->.
  { unfold densityOf, density. destruct (searchTerms ctx); [done|]. reflexivity. }
  repeat split.
  unfold scoreFormula, bonusOf. simpl (0 + _)%nat.
  rewrite (Qmult_comm (1 # 10)). ring.
Qed.




End SearchClaims.

(* ================================================================== *)
(** * Index builder: what a run leaves at the index location *)
(* ================================================================== *)

Module BuildClaims.
Import Store Build.

Section Run.
Variable categorizeDocument : str → Classification.
Variable generateTitle : str → str.

Abbreviation build := (buildIndex categorizeDocument generateTitle).
Abbreviation fullIndex pdfs :=
  (fst (fst (processAll categorizeDocument generateTitle pdfs))).

Lemma build_cases env fs :
  (* the data directory cannot be created *)
  (dataDir fs = false ∧ mkdirOk env = false ∧
   build env fs = (Failed AtMkdir, fs)) ∨
  (* the old index cannot be removed *)
  (dbFile fs ≠ Missing ∧ unlinkOk env = false ∧
   build env fs = (Failed AtUnlink, {| dataDir := true; dbFile := dbFile fs |})) ∨
  (* sql.js does not load *)
  (sqlLoads env = false ∧
   build env fs = (Failed AtInitSql, {| dataDir := true; dbFile := Missing |})) ∨
  (* scanning the directories throws *)
  ((pdfDir env = None ∨ releaseNotesDir env = None) ∧
   build env fs = (Failed AtScan, {| dataDir := true; dbFile := Missing |})) ∨
  (* exporting the database fails *)
  (exportOk env = false ∧
   build env fs = (Failed AtExport, {| dataDir := true; dbFile := Missing |})) ∨
  (* the final write fails *)
  (writeOk env = false ∧
   build env fs =
     (Failed AtWrite,
      {| dataDir := true;
         dbFile := if tornWrite env then Torn else Missing |})) ∨
  (* the run completes *)
  (∃ pdfs notes,
     pdfDir env = Some pdfs ∧ releaseNotesDir env = Some notes ∧
     writeOk env = true ∧
     ∃ stats,
       build env fs =
         (Built stats,
          {| dataDir := true; dbFile := File (fullIndex (pdfs ++ notes)) |})).
Proof.
  unfold buildIndex.
  destruct (dataDir fs) eqn:Hdir, (mkdirOk env) eqn:Hmk; simpl;
    try (left; done); right.
  all: destruct (dbFile fs) as [| | |old] eqn:Hfile, (unlinkOk env) eqn:Hun; simpl;
    try (left; done); right.
  all: destruct (sqlLoads env) eqn:Hsql; simpl; try (left; done); right.
  all: destruct (pdfDir env) as [pdfs|] eqn:Hp; [|left; auto];
       destruct (releaseNotesDir env) as [notes|] eqn:Hn; [|left; auto]; right.
  all: destruct (processAll _ _ (pdfs ++ notes)) as [[idx sc] fc] eqn:Hall;
       destruct (exportOk env) eqn:He; simpl; [right|left; done];
       destruct (writeOk env) eqn:Hw; [right|left; done].
  all: exists pdfs, notes; repeat split; eexists; unfold withDbFile;
       rewrite ?Hall; reflexivity.
Qed.

End Run.

(** The claim as the specification words it fails: the builder removes
    the old index first, so a failure after that -- here sql.js failing
    to load, or a directory scan that throws -- leaves no index, not the
    previous one. *)
Lemma failed_build_loses_old_index :
  let fs := {| dataDir := true; dbFile := File Sample.database |} in
  let noSql :=
    {| mkdirOk := true; unlinkOk := true; sqlLoads := false;
       pdfDir := Some []; releaseNotesDir := Some [];
       exportOk := true; writeOk := true; tornWrite := false |} in
  let scanThrows :=
    {| mkdirOk := true; unlinkOk := true; sqlLoads := true;
       pdfDir := None; releaseNotesDir := Some [];
       exportOk := true; writeOk := true; tornWrite := false |} in
  buildIndex Sample.classify Sample.titleOf noSql fs
    = (Failed AtInitSql, {| dataDir := true; dbFile := Missing |}) ∧
  buildIndex Sample.classify Sample.titleOf scanThrows fs
    = (Failed AtScan, {| dataDir := true; dbFile := Missing |}) ∧
  dbFile (snd (buildIndex Sample.classify Sample.titleOf noSql fs)) ≠ dbFile fs.
Proof. repeat split. discriminate. Qed.

(** Claim C1 (amended).  Every run of the index builder first removes
    the previously persisted index and then builds the new one in
    memory; the index location is written once, after every document
    has been processed, with the complete index.  So a run never leaves
    a partially built or partially patched index behind: when it
    completes the file is the full new index; when it fails before the
    removal (the data directory or the removal itself) the old file is
    untouched; and when it fails after it -- mid-build -- there is no
    index file at all (at most the torn remains of the failed final
    write), the previous index being gone. *)
Theorem rebuild_persistence cat title env fs :
  let out := fst (buildIndex cat title env fs) in
  let fs' := snd (buildIndex cat title env fs) in
  match out with
  | Built stats =>
      ∃ pdfs notes,
        pdfDir env = Some pdfs ∧ releaseNotesDir env = Some notes ∧
        dbFile fs' = File (fst (fst (processAll cat title (pdfs ++ notes))))
  | Failed AtMkdir | Failed AtUnlink => dbFile fs' = dbFile fs
  | Failed AtInitSql | Failed AtScan | Failed AtExport => dbFile fs' = Missing
  | Failed AtWrite => dbFile fs' = Missing ∨ dbFile fs' = Torn
  end.
Proof.
  cbv zeta.
  destruct (build_cases cat title env fs)
    as [(_ & _ & ->)|[(_ & _ & ->)|[(_ & ->)|[(_ & ->)|[(_ & ->)|[(_ & ->)
       |(pdfs & notes & Hp & Hn & _ & stats & ->)]]]]]]; simpl; auto.
  - destruct (tornWrite env); auto.
  - by exists pdfs, notes.
Qed.

End BuildClaims.

(* ================================================================== *)
(** * Chunker: numbering, trimming, overlap and sections *)
(* ================================================================== *)

Module ChunkerMore.
Import Regex Chunker Spec Props ChunkPieces.

(** ** Trimming *)

Lemma trimStart_head s ch :
  head (JS.trimStart s) = Some ch → JS.isWhiteSpace ch = false.
Proof.
  induction s as [|c s IH]; simpl; [done|].
  destruct (JS.isWhiteSpace c) eqn:E; [done|]. simpl. by intros [= <-].
Qed.

Lemma trimStart_fixed s :
  (∀ ch, head s = Some ch → JS.isWhiteSpace ch = false) → JS.trimStart s = s.
Proof. destruct s as [|c s]; simpl; [done|]. intros H. by rewrite (H c eq_refl). Qed.

Lemma last_rev_head (s : str) : last (rev s) = head s.
Proof. destruct s as [|c s]; simpl; [done|]. by rewrite last_snoc. Qed.

Lemma trimEnd_prefix s : ∃ b, s = JS.trimEnd s ++ b.
Proof.
  unfold JS.trimEnd. destruct (trimStart_suffix (rev s)) as [a Ha].
  exists (rev a). rewrite <- rev_app_distr, <- Ha. by rewrite rev_involutive.
Qed.

Lemma trimEnd_last s ch :
  last (JS.trimEnd s) = Some ch → JS.isWhiteSpace ch = false.
Proof. unfold JS.trimEnd. rewrite last_rev_head. apply trimStart_head. Qed.

Lemma trim_trimmed s : trimmed (JS.trim s).
Proof.
  intros ch [H|H].
  - unfold JS.trim in H. destruct (trimEnd_prefix (JS.trimStart s)) as [b Hb].
    apply (trimStart_head s). rewrite Hb.
    destruct (JS.trimEnd (JS.trimStart s)); [done|exact H].
  - by apply (trimEnd_last (JS.trimStart s)).
Qed.

Lemma trimmed_trim s : trimmed s → JS.trim s = s.
Proof.
  intros H. unfold JS.trim. rewrite trimStart_fixed by (intros; apply H; auto).
  unfold JS.trimEnd. rewrite trimStart_fixed.
  - apply rev_involutive.
  - intros ch Hch. apply H. right. by rewrite <- last_rev_head, rev_involutive in Hch.
Qed.

(** ** Numbering *)

Lemma chunkStep_numbered t xs acc :
  map index acc = seq 0 (length acc) →
  map index (fold_left (chunkStep t) xs acc)
  = seq 0 (length (fold_left (chunkStep t) xs acc)).
Proof.
  revert acc. induction xs as [|x xs IH]; intros acc H; simpl; [done|].
  apply IH. unfold chunkStep. rewrite map_app, length_app, H. simpl.
  by rewrite Nat.add_1_r, seq_S.
Qed.

Lemma chunkText_indexes text options :
  map index (chunkText text options)
  = seq 0 (length (chunkText text options)).
Proof.
  unfold chunkText. cbv zeta. generalize (withDefaults options). intros opts.
  assert (∀ ss acc,
            map index acc = seq 0 (length acc) →
            let r := fold_left
                       (λ chunks s,
                          fold_left (chunkStep (title s))
                            (chunkSection (body s) opts) chunks) ss acc in
            map index r = seq 0 (length r)) as Hgen.
  { induction ss as [|s ss IH]; intros acc H; simpl; [done|].
    by apply IH, chunkStep_numbered. }
  by apply Hgen.
Qed.

Lemma chunkText_indexes_NoDup text options :
  NoDup (map index (chunkText text options)).
Proof. rewrite chunkText_indexes. apply NoDup_ListNoDup, seq_NoDup. Qed.

(** X1.  The chunks [chunkText] returns are numbered 0, 1, 2, ... in
    the order they are returned -- across sections, so no two chunks of
    a text share an index -- and no chunk starts or ends with white
    space. *)
Theorem chunks_numbered_and_trimmed text options :
  map index (chunkText text options)
  = seq 0 (length (chunkText text options)) ∧
  NoDup (map index (chunkText text options)) ∧
  ∀ c, c ∈ chunkText text options → trimmed (content c).
Proof.
  split; [apply chunkText_indexes|]. split; [apply chunkText_indexes_NoDup|].
  intros c Hc.
  apply ChunkBound.chunkText_contents in Hc as (s & x & _ & _ & ->).
  apply trim_trimmed.
Qed.

(** ** Overlap *)

Lemma overlapFrom_length ov p cs : length (overlapFrom ov p cs) = length cs.
Proof. revert p. induction cs as [|c cs IH]; intros p; simpl; [done|]. by rewrite IH. Qed.

Lemma withOverlap_shape ov p c :
  withOverlap ov p c = c ∨
  ∃ t, t `suffix_of` p ∧ len t < ov ∧
       withOverlap ov p c = t ++ js " [...] " ++ c.
Proof.
  unfold withOverlap. cbv zeta.
  destruct (Z.ltb_spec 0 (JS.indexOfChar (overlapOf p ov) " "%char)) as [Hpos|];
    [right|by left].
  exists (JS.substringFrom (overlapOf p ov)
            (JS.indexOfChar (overlapOf p ov) " "%char + 1)).
  split; [|split; [|done]].
  - unfold JS.substringFrom, overlapOf, JS.substringFrom. rewrite drop_drop.
    eexists. symmetry. apply take_drop.
  - pose proof (ChunkBound.indexOfChar_bound (overlapOf p ov) " "%char) as Hb.
    assert (0 < ov) as Hov.
    { destruct (Z.ltb_spec 0 ov); [done|]. exfalso.
      assert (overlapOf p ov = []) as E.
      { unfold overlapOf, JS.substringFrom. apply drop_ge. unfold len. lia. }
      rewrite E in Hpos. simpl in Hpos. lia. }
    pose proof (ChunkBound.len_overlapOf p ov ltac:(lia)) as Hlen.
    unfold JS.substringFrom, len in *. rewrite length_drop. lia.
Qed.

Lemma overlapFrom_lookup ov p cs i q c :
  (p :: cs) !! i = Some q → cs !! i = Some c →
  overlapFrom ov p cs !! i = Some (withOverlap ov q c).
Proof.
  revert p i. induction cs as [|x cs IH]; intros p i Hq Hc; [done|].
  destruct i as [|i]; simpl in *.
  - by injection Hq as ->; injection Hc as ->.
  - by apply IH.
Qed.

(** X2.  [addOverlap] keeps the number of chunks and the first chunk;
    every later chunk is either unchanged or the original chunk behind
    a tail of its predecessor -- shorter than [overlapSize] -- and the
    marker " [...] ".  Nothing of a chunk is ever removed. *)
Theorem addOverlap_shape chunks overlapSize :
  length (addOverlap chunks overlapSize) = length chunks ∧
  head (addOverlap chunks overlapSize) = head chunks ∧
  ∀ i p c,
    chunks !! i = Some p → chunks !! S i = Some c →
    addOverlap chunks overlapSize !! S i = Some c ∨
    ∃ t, t `suffix_of` p ∧ len t < overlapSize ∧
         addOverlap chunks overlapSize !! S i = Some (t ++ js " [...] " ++ c).
Proof.
  unfold addOverlap.
  destruct ((length chunks <=? 1)%nat || (overlapSize =? 0)) eqn:E.
  { repeat split. intros i p c _ Hc. by left. }
  destruct chunks as [|first rest]; [done|]. simpl.
  rewrite overlapFrom_length. repeat split.
  intros i p c Hp Hc.
  rewrite (overlapFrom_lookup overlapSize first rest i p c Hp Hc).
  destruct (withOverlap_shape overlapSize p c) as [->|(t & Ht & Hlen & ->)];
    [by left|right]. by exists t.
Qed.

(** ** Sections *)

Lemma pushSection_ok text t a b ss :
  Forall (sectionOk text) ss →
  Forall (sectionOk text) (pushSection t (JS.trim (JS.substring text a b)) ss).
Proof.
  intros H. unfold pushSection.
  destruct (Nat.ltb_spec 50 (length (JS.trim (JS.substring text a b)))); [|done].
  apply Forall_app_2; [done|]. constructor; [|constructor].
  split; [done|]. split; [apply trim_trimmed|]. simpl.
  eapply infix_trans; [apply infix_trim|apply infix_substring].
Qed.

Lemma sectionLoop_ok text ms st :
  Forall (sectionOk text) (snd st) →
  Forall (sectionOk text) (snd (fold_left (sectionStep text) ms st)).
Proof.
  revert st. induction ms as [|m ms IH]; intros st H; simpl; [done|].
  apply IH. destruct st as [[li lt] ss]. simpl in *.
  destruct (li <? m_index m)%nat; [|done]. by apply pushSection_ok.
Qed.

(** X3.  [splitBySections] never returns an empty list.  Either it
    returns the whole text as one untitled section -- the fallback when
    no section was kept -- or every section it returns is a trimmed
    piece of the text of more than 50 characters: the text between two
    headings is dropped when it trims to 50 characters or fewer. *)
Theorem splitBySections_shape text :
  splitBySections text ≠ [] ∧
  (splitBySections text = [ {| title := None; body := text |} ] ∨
   Forall (λ s, (50 < length (body s))%nat ∧ trimmed (body s) ∧
                infix (body s) text)
     (splitBySections text)).
Proof.
  unfold splitBySections.
  pose proof (sectionLoop_ok text (matches headingPattern text)
                (0%nat, None, [])) as H.
  destruct (fold_left _ _ _) as [[li lt] ss]. simpl in H.
  specialize (H ltac:(constructor)).
  assert (Forall (sectionOk text)
            (if (li <? length text)%nat
             then pushSection lt (JS.trim (JS.substring text li (length text))) ss
             else ss)) as H'.
  { destruct (li <? length text)%nat; [by apply pushSection_ok|done]. }
  destruct (if (li <? length text)%nat then _ else _) as [|s ss'].
  - split; [done|by left].
  - split; [done|by right].
Qed.

End ChunkerMore.

(* ================================================================== *)
(** * Retrieval engine: sanitization, terms, filters and highlights *)
(* ================================================================== *)

Module SearchMore.
Import Store Search Spec Props CacheFacts SearchState SearchPure.
Import ChunkPieces.

Opaque Intent.detectIntent Intent.describeIntent.

(** ** Sanitization *)

Lemma Forall_infix (P : ascii → Prop) a b : infix a b → Forall P b → Forall P a.
Proof.
  intros (x & y & ->) H. apply Forall_app in H as [_ H].
  by apply Forall_app in H as [H _].
Qed.

Lemma Forall_filter_both (f g : ascii → bool) (s : str) :
  Forall (λ c, f c = false ∧ g c = false)
    (List.filter (λ c, negb (g c)) (List.filter (λ c, negb (f c)) s)).
Proof.
  apply Forall_forall. intros c Hc.
  apply list_elem_of_In, filter_In in Hc as [Hc Hg].
  apply filter_In in Hc as [_ Hf].
  by apply negb_true_iff in Hg, Hf.
Qed.

Local Abbreviation escapeQuotes s :=
  (concat (map (λ c, if isQuote c then [c; c] else [c]) s)).

Lemma escapeQuotes_Forall (P : ascii → Prop) s :
  Forall P s → Forall P (escapeQuotes s).
Proof.
  induction 1 as [|c s Hc Hs IH]; simpl; [constructor|].
  destruct (isQuote c); simpl; repeat constructor; done.
Qed.

Lemma escapeQuotes_length s : (length (escapeQuotes s) ≤ 2 * length s)%nat.
Proof.
  induction s as [|c s IH]; simpl; [lia|].
  destruct (isQuote c); simpl; lia.
Qed.

Lemma escapeQuotes_quotes s :
  length (List.filter isQuote (escapeQuotes s))
  = (2 * length (List.filter isQuote s))%nat.
Proof.
  induction s as [|c s IH]; simpl; [done|].
  destruct (isQuote c) eqn:E; simpl; rewrite ?E; simpl; lia.
Qed.

(** X4.  A sanitized query holds no angle bracket and no control
    character (code 0 to 31), has at most twice [MAX_QUERY_LENGTH]
    characters, and holds an even number of single quotes: every quote
    that is left has been doubled. *)
Theorem sanitizeQuery_safe query :
  Forall (λ c, isAngle c = false ∧ isControl c = false) (sanitizeQuery query) ∧
  (length (sanitizeQuery query) ≤ 2 * MAX_QUERY_LENGTH)%nat ∧
  Nat.Even (length (List.filter isQuote (sanitizeQuery query))).
Proof.
  unfold sanitizeQuery. cbv zeta.
  set (q1 := if (MAX_QUERY_LENGTH <? length query)%nat
             then JS.substring query 0 MAX_QUERY_LENGTH else query).
  assert (length q1 ≤ MAX_QUERY_LENGTH)%nat as Hlen.
  { unfold q1. destruct (Nat.ltb_spec MAX_QUERY_LENGTH (length query)); [|done].
    unfold JS.substring. rewrite length_take. lia. }
  set (q2 := List.filter (λ c, negb (isControl c))
               (List.filter (λ c, negb (isAngle c)) q1)).
  split; [|split].
  - apply escapeQuotes_Forall. eapply Forall_infix; [apply infix_trim|].
    apply Forall_filter_both.
  - etrans; [apply escapeQuotes_length|].
    pose proof (JSFacts.length_trim q2).
    assert (length q2 ≤ length q1)%nat.
    { unfold q2. etrans; [apply filter_length_le|apply filter_length_le]. }
    lia.
  - rewrite escapeQuotes_quotes. by eexists.
Qed.

(** ** Search terms *)

Lemma toLowerChar_idemp c : JS.toLowerChar (JS.toLowerChar c) = JS.toLowerChar c.
Proof. destruct c as [[] [] [] [] [] [] [] []]; reflexivity. Qed.

Lemma toLowerChar_noUpper c : JS.inRange 65 90 (JS.toLowerChar c) = false.
Proof. destruct c as [[] [] [] [] [] [] [] []]; reflexivity. Qed.

Lemma toLowerChar_wildcard c :
  isPercent (JS.toLowerChar c) = isPercent c ∧
  isUnderscore (JS.toLowerChar c) = isUnderscore c.
Proof. destruct c as [[] [] [] [] [] [] [] []]; split; reflexivity. Qed.

Lemma toLowerCase_noUpper s : noUpper (JS.toLowerCase s).
Proof.
  unfold noUpper, JS.toLowerCase. apply Forall_forall. intros c Hc.
  apply list_elem_of_fmap in Hc as (x & -> & _). apply toLowerChar_noUpper.
Qed.

Lemma toLowerCase_fixed s :
  Forall (λ c, JS.toLowerChar c = c) s → JS.toLowerCase s = s.
Proof.
  unfold JS.toLowerCase. induction 1 as [|c s Hc Hs IH]; simpl; [done|].
  by rewrite Hc, IH.
Qed.

Lemma toLowerCase_lowered s : Forall (λ c, JS.toLowerChar c = c) (JS.toLowerCase s).
Proof.
  unfold JS.toLowerCase. apply Forall_forall. intros c Hc.
  apply list_elem_of_fmap in Hc as (x & -> & _). apply toLowerChar_idemp.
Qed.

Lemma searchTermsOf_split q t :
  t ∈ searchTermsOf q ↔
  t ∈ Regex.split Chunker.spaces (JS.toLowerCase q) ∧ (2 ≤ length t)%nat.
Proof.
  unfold searchTermsOf. rewrite !list_elem_of_In, filter_In.
  destruct (Nat.ltb_spec 1 (length t)); split; intros [? ?]; split; auto; lia.
Qed.

(** X5.  Every search term of a query has at least two characters,
    holds no white space, is in lower case, and is a piece of the
    lower-cased query. *)
Theorem searchTerms_wellformed query t :
  t ∈ searchTermsOf query →
  (2 ≤ length t)%nat ∧ spaceless t ∧ JS.toLowerCase t = t ∧
  infix t (JS.toLowerCase query).
Proof.
  intros H. apply searchTermsOf_split in H as [H Hlen].
  pose proof (split_infix _ _ _ H) as Hin.
  split; [done|]. split; [by eapply split_spaces_spaceless|]. split; [|done].
  apply toLowerCase_fixed. eapply Forall_infix; [exact Hin|].
  apply toLowerCase_lowered.
Qed.

Lemma searchTerms_wellformed_witness :
  js "apex" ∈ searchTermsOf (js "Apex  a Trigger") ∧
  (2 ≤ length (js "apex"))%nat.
Proof.
  split; [vm_compute; apply list_elem_of_In; simpl; auto|].
  apply (searchTerms_wellformed (js "Apex  a Trigger") (js "apex")).
  vm_compute. apply list_elem_of_In. simpl. auto.
Defined.

(** ** What [executeSearch] selects *)

Lemma elem_of_joined d doc c :
  (doc, c) ∈ joined d ↔ c ∈ chunks d ∧ doc ∈ documents d ∧ id doc = document_id c.
Proof.
  unfold joined. rewrite list_elem_of_In, in_concat. split.
  - intros (l & Hl & Hin). apply in_map_iff in Hl as (c' & <- & Hc').
    apply in_map_iff in Hin as (doc' & [= <- <-] & Hd).
    apply filter_In in Hd as [Hd Hid]. apply Z.eqb_eq in Hid.
    by rewrite !list_elem_of_In.
  - intros (Hc & Hd & Hid). rewrite !list_elem_of_In in *.
    eexists. split; [apply in_map_iff; exists c; split; [reflexivity|done]|].
    apply in_map_iff. exists doc. split; [done|].
    apply filter_In. split; [done|]. by apply Z.eqb_eq.
Qed.

Lemma executeSearch_selected ctx d cat sub n x :
  x ∈ executeSearch ctx d cat sub n →
  ∃ doc c,
    (doc, c) ∈ joined d ∧ x = toResult ctx (doc, c) ∧
    existsb (λ p, like p (content_lower c)) (searchPatterns ctx) = true ∧
    (Intent.truthy cat = true → Some (Store.category doc) = cat) ∧
    (Intent.truthy sub = true → Store.subcategory doc = sub).
Proof.
  unfold executeSearch. rewrite elem_of_sortBy. intros H.
  change (x ∈ toResult ctx <$>
            selectRows d (searchPatterns ctx) cat sub n) in H.
  apply list_elem_of_fmap in H as ([doc c] & -> & Hr).
  unfold selectRows in Hr. apply elem_of_limit in Hr.
  rewrite elem_of_sortBy in Hr.
  apply list_elem_of_In, filter_In in Hr as [Hj Hw].
  apply list_elem_of_In in Hj. cbn [fst snd] in Hw.
  apply andb_true_iff in Hw as [Hw Hsub].
  apply andb_true_iff in Hw as [Hlike Hcat].
  exists doc, c. split; [done|]. split; [done|]. split; [done|]. split.
  - destruct cat as [[|a cs]|]; simpl; try done. intros _.
    apply bool_decide_eq_true in Hcat. by rewrite Hcat.
  - destruct sub as [[|a ss]|]; simpl; try done. intros _.
    by apply bool_decide_eq_true in Hsub.
Qed.

Lemma executeSearch_length ctx d cat sub n :
  0 ≤ n → count (executeSearch ctx d cat sub n) ≤ n.
Proof.
  intros Hn. unfold executeSearch, count.
  rewrite length_sortBy, length_map. unfold selectRows, limit.
  destruct (Z.ltb_spec n 0); [lia|]. rewrite length_take. lia.
Qed.

Lemma widen_explicit ctx d cat sub m :
  usedIntentFilter ctx = false →
  fst (widen ctx d cat sub m) = executeSearch ctx d cat sub (sampleSizeFor cat sub m).
Proof. intros H. unfold widen. cbv zeta. by rewrite H. Qed.

Lemma resolveFilters_explicit o i :
  Intent.truthy (o_category o) || Intent.truthy (o_subcategory o) = true →
  resolveFilters o i = (o_category o, o_subcategory o, false).
Proof.
  intros H. unfold resolveFilters.
  destruct (Intent.truthy (o_category o)), (Intent.truthy (o_subcategory o));
    simpl in *; done.
Qed.

Lemma elem_of_slice0 {A} (l : list A) n x : x ∈ slice0 l n → x ∈ l.
Proof. destruct (slice0_take l n) as [k ->]. apply subseteq_take. Qed.

(** X6.  An explicit filter is never widened: when the options name a
    category, every result of a search lies in that category, and when
    they name a subcategory, every result has that subcategory.  (The
    fallback to broader searches only applies to a filter derived from
    the detected intent.) *)
Theorem explicit_filter_respected env now q o w r w' x :
  reachable w →
  searchDocuments env now q o w = (Ok r, w') →
  x ∈ r →
  (Intent.truthy (o_category o) = true →
   Some (m_category (document x)) = o_category o) ∧
  (Intent.truthy (o_subcategory o) = true →
   m_subcategory (document x) = o_subcategory o).
Proof.
  intros Hr H Hx. apply SearchClaims.reachable_coherent in Hr.
  destruct (SearchClaims.search_answer _ _ _ _ _ _ _ Hr H) as (d & Hd & ->).
  unfold answer in Hx.
  destruct (searchTermsOf (sanitizeQuery q)) as [|t ts];
    [by apply elem_of_nil in Hx|].
  assert (Intent.truthy (o_category o) || Intent.truthy (o_subcategory o) = true →
          ∃ doc c, x = toResult (ctxOf q o) (doc, c) ∧
                   (Intent.truthy (o_category o) = true →
                    Some (Store.category doc) = o_category o) ∧
                   (Intent.truthy (o_subcategory o) = true →
                    Store.subcategory doc = o_subcategory o)) as Hgen.
  { intros Ht. unfold computed in Hx. cbv zeta in Hx.
    apply elem_of_slice0 in Hx. rewrite ctx_key in Hx.
    pose proof (resolve_key q o) as Hk.
    rewrite (resolveFilters_explicit o _ Ht) in Hk.
    injection Hk as Hc Hs Hu.
    rewrite widen_explicit in Hx by done.
    apply executeSearch_selected in Hx as (doc & c & _ & -> & _ & H1 & H2).
    rewrite <- Hc in H1. rewrite <- Hs in H2. by exists doc, c. }
  split; intros Ht.
  - destruct Hgen as (doc & c & -> & H1 & _); [by rewrite Ht|].
    unfold toResult. destruct (fold_left _ _ _). cbn [document m_category]. auto.
  - destruct Hgen as (doc & c & -> & _ & H2); [rewrite Ht; apply orb_true_r|].
    unfold toResult. destruct (fold_left _ _ _). cbn [document m_subcategory]. auto.
Qed.

Lemma explicit_filter_respected_witness :
  ∃ r w' x,
    searchDocuments Sample.env 0 (js "apex")
      {| o_category := Some (js "apis"); o_subcategory := None;
         o_docType := None; o_maxResults := None; o_intent := None;
         o_keywords := None; o_minScore := None |} initialWorld = (Ok r, w') ∧
    x ∈ r ∧ Some (m_category (document x)) = Some (js "apis").
Proof.
  eexists _, _, _. split; [vm_compute; reflexivity|].
  split; [apply list_elem_of_here|].
  eapply (explicit_filter_respected Sample.env 0 (js "apex")
            {| o_category := Some (js "apis"); o_subcategory := None;
               o_docType := None; o_maxResults := None; o_intent := None;
               o_keywords := None; o_minScore := None |} initialWorld).
  - apply reach_init.
  - vm_compute. reflexivity.
  - apply list_elem_of_here.
  - reflexivity.
Defined.

(** ** The SQL filter and the scorer *)

Lemma like_percent pat s :
  like (js "%" ++ pat) s
  = like pat s || match s with [] => false | _ :: s' => like (js "%" ++ pat) s' end.
Proof. destruct s; reflexivity. Qed.

Lemma like_any s : like (js "%") s = true.
Proof.
  induction s as [|c s IH]; [reflexivity|].
  change (like [] (c :: s) || like (js "%") s = true).
  by rewrite IH, orb_true_r.
Qed.

Lemma sqlFold_fixed c : JS.inRange 65 90 c = false → sqlFold c = c.
Proof. intros H. unfold sqlFold. by rewrite H. Qed.

Lemma like_prefix w s :
  wildcardFree w → noUpper w → noUpper s →
  like (w ++ js "%") s = JS.startsWith s w.
Proof.
  intros Hw Hu. revert s.
  induction Hw as [|p w [Hp Hun] Hw IH]; intros s Hs.
  - rewrite like_any. by destruct s.
  - apply Forall_cons in Hu as [Hpu Hu].
    destruct s as [|c s]; simpl; rewrite Hp; [done|].
    apply Forall_cons in Hs as [Hcu Hs].
    rewrite Hun, (sqlFold_fixed p Hpu), (sqlFold_fixed c Hcu), IH by done.
    reflexivity.
Qed.

(** On lower-case text the SQL filter and the scorer agree: for a term
    without the wildcards [%] and [_], the pattern [%term%] matches a
    string under [LIKE] exactly when the string [includes] the term. *)
Lemma like_includes w s :
  wildcardFree w → noUpper w → noUpper s →
  like (js "%" ++ w ++ js "%") s = JS.includes s w.
Proof.
  intros Hw Hu Hs. induction Hs as [|c s Hc Hs IH].
  - rewrite like_percent, like_prefix by (done || constructor).
    reflexivity.
  - rewrite like_percent, like_prefix, IH by (done || by constructor).
    reflexivity.
Qed.

Lemma wildcardFree_lower s : wildcardFree s → wildcardFree (JS.toLowerCase s).
Proof.
  unfold wildcardFree, JS.toLowerCase. induction 1 as [|c s [H1 H2] Hs IH];
    simpl; constructor; [|done].
  destruct (toLowerChar_wildcard c) as [-> ->]. done.
Qed.

Lemma foundTerms_density cl terms t :
  t ∈ terms → JS.includes cl t = true → (0 < density cl terms)%Q.
Proof.
  intros Ht Hinc. unfold density.
  assert (t ∈ foundTerms cl terms) as Hf.
  { unfold foundTerms. apply list_elem_of_In, filter_In.
    split; [by apply list_elem_of_In|done]. }
  assert (0 < length (foundTerms cl terms))%nat as H1.
  { destruct (foundTerms cl terms); [by apply elem_of_nil in Hf|simpl; lia]. }
  assert (0 < length terms)%nat as H2.
  { destruct terms; [by apply elem_of_nil in Ht|simpl; lia]. }
  apply Qlt_shift_div_l.
  - unfold ofNat. rewrite <- (Zlt_Qlt 0). lia.
  - rewrite Qmult_0_l. unfold ofNat. rewrite <- (Zlt_Qlt 0). lia.
Qed.

(** X7.  Over a store whose [content_lower] column mirrors [content]
    (as the builder writes it), a search for a query without the
    wildcards [%] and [_] only returns chunks that contain at least one
    of the search terms: every result has a positive match density. *)
Theorem results_contain_a_term env now q o w r w' d x :
  reachable w →
  searchDocuments env now q o w = (Ok r, w') →
  db w' = Some d → lowerMirror d →
  wildcardFree (sanitizeQuery q) →
  x ∈ r →
  (0 < matchDensity x)%Q.
Proof.
  intros Hr H Hd Hm Hq Hx. apply SearchClaims.reachable_coherent in Hr.
  destruct (SearchClaims.search_answer _ _ _ _ _ _ _ Hr H) as (d' & Hd' & ->).
  rewrite Hd in Hd'. injection Hd' as <-.
  unfold answer in Hx.
  destruct (searchTermsOf (sanitizeQuery q)) as [|t0 ts] eqn:E;
    [by apply elem_of_nil in Hx|].
  unfold computed in Hx. cbv zeta in Hx. apply elem_of_slice0 in Hx.
  rewrite ctx_key in Hx.
  assert (∃ cat sub n, x ∈ executeSearch (ctxOf q o) d cat sub n)
    as (cat & sub & n & Hx').
  { pose proof (widen_results (ctxOf q o) d
                  (k_effectiveCategory (cacheKeyOf q o))
                  (k_effectiveSubcategory (cacheKeyOf q o))
                  (maxResultsOf (k_options (cacheKeyOf q o)))) as Hw.
    cbv zeta in Hw. destruct Hw as [Hw|[Hw|Hw]]; rewrite Hw in Hx; eauto. }
  apply executeSearch_selected in Hx' as (doc & c & Hj & -> & Hlike & _).
  apply elem_of_joined in Hj as (Hc & _).
  assert (searchTerms (ctxOf q o) = t0 :: ts) as Hterms by exact E.
  destruct (SearchClaims.toResult_score (ctxOf q o) doc c) as (_ & _ & -> & _).
  { by rewrite Hterms. }
  apply existsb_exists in Hlike as (p & Hp & Hlike).
  change (searchPatterns (ctxOf q o))
    with (buildSearchPatterns (sanitizeQuery q)) in Hp.
  unfold buildSearchPatterns in Hp.
  apply in_map_iff in Hp as (t & <- & Ht). apply list_elem_of_In in Ht.
  change (searchTerms (ctxOf q o)) with (searchTermsOf (sanitizeQuery q)).
  apply (foundTerms_density _ _ t Ht).
  rewrite <- like_includes; [exact Hlike| | |].
  - apply searchTermsOf_split in Ht as [Ht _]. apply split_infix in Ht.
    eapply Forall_infix; [exact Ht|]. by apply wildcardFree_lower.
  - apply searchTermsOf_split in Ht as [Ht _]. apply split_infix in Ht.
    eapply Forall_infix; [exact Ht|]. apply toLowerCase_noUpper.
  - unfold lowerMirror in Hm. rewrite Forall_forall in Hm.
    rewrite (Hm c Hc). apply toLowerCase_noUpper.
Qed.

Lemma results_contain_a_term_witness :
  ∃ r w' x,
    searchDocuments Sample.env 0 (js "apex trigger") noOptions initialWorld
      = (Ok r, w') ∧
    x ∈ r ∧ (0 < matchDensity x)%Q.
Proof.
  eexists _, _, _. split; [vm_compute; reflexivity|].
  split; [apply list_elem_of_here|].
  eapply (results_contain_a_term Sample.env 0 (js "apex trigger") noOptions
            initialWorld _ _ Sample.database).
  - apply reach_init.
  - vm_compute. reflexivity.
  - reflexivity.
  - unfold lowerMirror. repeat constructor.
  - vm_compute. repeat constructor.
  - apply list_elem_of_here.
Defined.

(** ** Ranges of the scores *)




(** ** Highlights *)

Lemma snippet_length content idx wl :
  (length (snippet content idx wl) ≤ wl + 206)%nat.
Proof.
  unfold snippet. cbv zeta. rewrite !length_app. unfold JS.substring.
  rewrite length_take.
  destruct (0 <? idx - 100)%nat, (_ <? length content)%nat; simpl; lia.
Qed.

Lemma highlightLoop_bound content cl words acc B :
  (length acc < 2)%nat →
  Forall (λ h, (length h ≤ B + 206)%nat) acc →
  Forall (λ w, (length w ≤ B)%nat) words →
  let r := highlightLoop content cl words acc in
  (length r ≤ 2)%nat ∧ Forall (λ h, (length h ≤ B + 206)%nat) r.
Proof.
  intros Hacc Hall Hw. revert acc Hacc Hall.
  induction Hw as [|word rest Hword Hrest IH]; intros acc Hacc Hall;
    cbn [highlightLoop]; cbv zeta.
  { split; [lia|done]. }
  destruct (indexOf cl word) as [idx|]; [|by apply IH].
  assert (Forall (λ h, (length h ≤ B + 206)%nat)
            (acc ++ [snippet content idx (length word)])) as Hall'.
  { apply Forall_app_2; [done|]. constructor; [|constructor].
    pose proof (snippet_length content idx (length word)). lia. }
  destruct (Nat.leb_spec 2 (length (acc ++ [snippet content idx (length word)])))
    as [H2|H2].
  - split; [|done]. rewrite length_app in *. simpl in *. lia.
  - by apply IH.
Qed.

(** X9.  [extractHighlights] returns at most two snippets, none for an
    empty content, and a snippet has at most 206 characters more than
    the lower-cased query, whose words are looked for: the word found,
    up to 100 characters on either side and up to two ellipses. *)
Theorem highlights_bounded content query :
  (length (extractHighlights content query) ≤ 2)%nat ∧
  Forall (λ h, (length h ≤ length (JS.toLowerCase query) + 206)%nat)
    (extractHighlights content query) ∧
  extractHighlights [] query = [].
Proof.
  unfold extractHighlights.
  assert (∀ c, let r :=
            highlightLoop c (JS.toLowerCase c)
              (List.filter (λ w, (2 <? length w)%nat)
                 (Regex.split Chunker.spaces (JS.toLowerCase query))) [] in
          (length r ≤ 2)%nat ∧
          Forall (λ h, (length h ≤ length (JS.toLowerCase query) + 206)%nat) r)
    as Hgen.
  { intros c. apply highlightLoop_bound; [simpl; lia|constructor|].
    apply Forall_forall. intros w Hw.
    apply list_elem_of_In, filter_In in Hw as [Hw _].
    by apply list_elem_of_In, split_infix, infix_length in Hw. }
  destruct content as [|c cs].
  - split; [simpl; lia|]. split; [constructor|done].
  - destruct (Hgen (c :: cs)) as [H1 H2]. done.
Qed.

(** ** The loaded store *)

Lemma widen_events ctx d cat sub m :
  Forall (λ e, e ≠ LoadStore) (snd (widen ctx d cat sub m)).
Proof.
  unfold widen. cbv zeta.
  destruct (usedIntentFilter ctx && _); [|repeat constructor; done].
  match goal with |- context [if ?b then _ else _] => destruct b end;
  match goal with
  | |- context [if ?b then _ else _] => destruct b
  | _ => idtac
  end; simpl; repeat constructor; done.
Qed.

Lemma searchDocuments_resident env now q o w d :
  db w = Some d →
  let out := fst (searchDocuments env now q o w) in
  let w' := snd (searchDocuments env now q o w) in
  db w' = Some d ∧
  (∃ evs, trace w' = trace w ++ evs ∧ Forall (λ e, e ≠ LoadStore) evs) ∧
  (runs d (cacheKeyOf q o) = true → ∃ r, out = Ok r).
Proof.
  intros Hd. cbv zeta.
  pose proof (getDatabase_resident env w d Hd) as Hg.
  destruct (searchDocuments_cases env now q o w)
    as [w1 Hdb|d1 w1 cached c Hdb Hget|d1 w1 c Hdb Hget Ht
       |d1 w1 c Hdb Hget Ht Hs|d1 w1 c Hdb Hget Ht Hs];
    rewrite Hg in Hdb; try discriminate; injection Hdb as <- <-; simpl.
  - split; [done|]. split; [|by eauto]. exists []. by rewrite app_nil_r.
  - split; [done|]. split; [|by eauto]. exists []. by rewrite app_nil_r.
  - split; [done|]. split; [|by eauto].
    eexists. split; [reflexivity|]. apply widen_events.
  - split; [done|]. split; [|by rewrite Hs].
    eexists. split; [reflexivity|]. repeat constructor. done.
Qed.

(** A store with the tables runs every search whose options are safe:
    its sample size, at most [maxResults * 50], binds to [LIMIT]. *)
Lemma safeOptions_runs d q o :
  hasSchema d = true → safeOptions o → runs d (cacheKeyOf q o) = true.
Proof.
  unfold safeOptions, safeInteger, MAX_SAFE_INTEGER, runs, sampleSizeOf.
  intros -> H. rewrite key_options. simpl andb.
  unfold bindsLimit, sampleSizeFor. apply andb_true_iff.
  destruct (_ || _); split; apply Z.ltb_lt; lia.
Qed.

Lemma searchAll_resident calls w d :
  db w = Some d → hasSchema d = true →
  Forall (λ c, safeOptions (c_options c)) calls →
  Forall (λ o, isOk o = true) (fst (searchAll calls w)).
Proof.
  intros Hd Hs Hsafe. revert w Hd.
  induction Hsafe as [|c calls Hc Hcalls IH]; intros w Hd; simpl;
    [constructor|].
  destruct (searchDocuments_resident (c_env c) (c_now c) (c_query c)
              (c_options c) w d Hd) as (Hd' & _ & Hok).
  destruct (Hok (safeOptions_runs d (c_query c) (c_options c) Hs Hc)) as [r Hr].
  destruct (searchDocuments _ _ _ _ w) as [out w1]. simpl in *.
  specialize (IH w1 Hd'). destruct (searchAll calls w1) as [outs w2].
  simpl in *. constructor; [by rewrite Hr|done].
Qed.

(** X10.  Once a store is resident it is never read again: a search in
    a world that holds a store leaves that store in place, whatever the
    file on disk has become, and adds no load to the trace -- only the
    queries it runs. *)
Theorem loaded_store_is_kept env now q o w d :
  db w = Some d →
  let w' := snd (searchDocuments env now q o w) in
  db w' = Some d ∧
  ∃ evs, trace w' = trace w ++ evs ∧ Forall (λ e, e ≠ LoadStore) evs.
Proof.
  intros Hd. cbv zeta.
  destruct (searchDocuments_resident env now q o w d Hd) as (H1 & H2 & _).
  by split.
Qed.

Lemma loaded_store_is_kept_witness :
  db (snd (searchDocuments Sample.brokenEnv 7 (js "apex") noOptions
             {| SQL := true; db := Some Sample.database; searchCache := [];
                trace := [LoadStore] |}))
  = Some Sample.database.
Proof.
  exact (proj1 (loaded_store_is_kept Sample.brokenEnv 7 (js "apex") noOptions
                  {| SQL := true; db := Some Sample.database; searchCache := [];
                     trace := [LoadStore] |} Sample.database eq_refl)).
Defined.

(** ** The cost of a search *)

Lemma widen_queries ctx d cat sub m :
  loads (snd (widen ctx d cat sub m)) = 0%nat ∧
  (1 ≤ queries (snd (widen ctx d cat sub m)) ≤ 3)%nat ∧
  (usedIntentFilter ctx = false → queries (snd (widen ctx d cat sub m)) = 1%nat).
Proof.
  unfold widen. cbv zeta.
  destruct (usedIntentFilter ctx); simpl;
    [|by repeat split; unfold queries, loads; simpl; lia].
  destruct (count _ <? m); simpl;
    [|by repeat split; unfold queries, loads; simpl; lia].
  match goal with |- context [if ?b then _ else _] => destruct b end;
  match goal with
  | |- context [if ?b then _ else _] => destruct b
  | _ => idtac
  end; repeat split; unfold queries, loads; simpl; lia.
Qed.

(** X30.  A search touches the storage at most four times: it loads the
    store at most once, and only when none is resident, and it runs at
    most three queries -- none without a search term, and at most one
    under an explicit category or subcategory filter. *)
Theorem search_cost env now q o w :
  ∃ evs,
    trace (snd (searchDocuments env now q o w)) = trace w ++ evs ∧
    (loads evs ≤ 1)%nat ∧ (queries evs ≤ 3)%nat ∧
    (is_Some (db w) → loads evs = 0%nat) ∧
    (Intent.truthy (o_category o) || Intent.truthy (o_subcategory o) = true →
     (queries evs ≤ 1)%nat) ∧
    (searchTermsOf (sanitizeQuery q) = [] → queries evs = 0%nat).
Proof.
  assert (∀ d w1, getDatabase env w = (d, w1) →
            ∃ evs, trace w1 = trace w ++ evs ∧ queries evs = 0%nat ∧
                   (loads evs ≤ 1)%nat ∧ (is_Some (db w) → loads evs = 0%nat))
    as Hg.
  { intros [d|] w1 H.
    - apply getDatabase_Some in H as (_ & _ & [[Hd ->]|[Hd Ht]]).
      + exists []. rewrite app_nil_r. repeat split; unfold loads; simpl; lia.
      + exists [LoadStore]. split; [done|]. split; [done|].
        split; [unfold loads; simpl; lia|].
        intros [x Hx]. by rewrite Hd in Hx.
    - apply getDatabase_None in H as (Hd & _ & _ & [Ht|Ht]).
      + exists []. rewrite app_nil_r, Ht.
        repeat split; unfold loads; simpl; lia.
      + exists [LoadStore]. split; [done|]. split; [done|].
        split; [unfold loads; simpl; lia|].
        intros [x Hx]. by rewrite Hd in Hx. }
  assert (∀ a b, queries (a ++ b) = (queries a + queries b)%nat) as Hq.
  { intros a b. unfold queries. by rewrite List.filter_app, length_app. }
  assert (∀ a b, loads (a ++ b) = (loads a + loads b)%nat) as Hl.
  { intros a b. unfold loads. by rewrite List.filter_app, length_app. }
  destruct (searchDocuments_cases env now q o w)
    as [w1 Hdb|d w1 cached c Hdb Hget|d w1 c Hdb Hget Ht
       |d w1 c Hdb Hget Ht Hs|d w1 c Hdb Hget Ht Hs];
    destruct (Hg _ _ Hdb) as (evs & Hevs & Hq0 & Hl1 & Hl0); simpl.
  - exists evs. rewrite Hq0. repeat split; try done; lia.
  - exists evs. rewrite Hq0. repeat split; try done; lia.
  - exists evs. rewrite Hq0. repeat split; try done; lia.
  - destruct (widen_queries (ctxOf q o) d (k_effectiveCategory (cacheKeyOf q o))
                (k_effectiveSubcategory (cacheKeyOf q o)) (maxResultsOf o))
      as (Hw0 & Hw3 & Hw1).
    eexists. rewrite Hevs, <- app_assoc. split; [reflexivity|].
    rewrite Hq, Hl, Hq0, Hw0. repeat split; try lia.
    + intros Hd. specialize (Hl0 Hd). lia.
    + intros Hex. rewrite Hw1; [lia|].
      pose proof (resolve_key q o) as Hk.
      rewrite (resolveFilters_explicit o _ Hex) in Hk. by injection Hk.
    + intros Hnil. done.
  - eexists. rewrite Hevs, <- app_assoc. split; [reflexivity|].
    rewrite Hq, Hl, Hq0. clear Hq Hl.
    unfold queries, loads in *. cbn [List.filter isQuery negb length] in *.
    repeat split; try lia.
    + intros Hd. specialize (Hl0 Hd). lia.
    + intros Hnil. done.
Qed.

End SearchMore.

(* ================================================================== *)
(** * The result cache: bound, keys and expiry *)
(* ================================================================== *)

Module CacheMore.
Import Store Search Spec Props CacheFacts SearchState.

Opaque Intent.detectIntent Intent.describeIntent.

Lemma find_None_keys k c : List.find (hasKey k) c = None ↔ k ∉ cacheKeys c.
Proof.
  unfold cacheKeys. induction c as [|e c IH]; simpl.
  - split; [intros _ H; by apply elem_of_nil in H|done].
  - unfold hasKey at 1. destruct (bool_decide_reflect (e_key e = k)) as [E|E].
    + split; [done|]. intros H. exfalso. apply H. rewrite E. by left.
    + rewrite IH. rewrite not_elem_of_cons. split; [by intros ?; split|by intros [_ ?]].
Qed.

Lemma cacheDelete_sublist k c : cacheKeys (cacheDelete k c) `sublist_of` cacheKeys c.
Proof.
  unfold cacheDelete, cacheKeys. induction c as [|e c IH]; simpl; [done|].
  destruct (negb (hasKey k e)); simpl; [by apply sublist_skip|by apply sublist_cons].
Qed.

Lemma cacheDelete_length k c : (length (cacheDelete k c) ≤ length c)%nat.
Proof. unfold cacheDelete. apply filter_length_le. Qed.

Lemma cacheDelete_found k c e :
  List.find (hasKey k) c = Some e → (length (cacheDelete k c) < length c)%nat.
Proof.
  unfold cacheDelete. induction c as [|x c IH]; simpl; [done|].
  destruct (hasKey k x) eqn:E; simpl.
  - intros _. pose proof (filter_length_le (λ e, negb (hasKey k e)) c). lia.
  - intros H. apply IH in H. lia.
Qed.

Lemma cacheDelete_fresh k c : k ∉ cacheKeys (cacheDelete k c).
Proof. apply find_None_keys, find_cacheDelete. Qed.

Lemma removelast_sublist {A} (l : list A) : removelast l `sublist_of` l.
Proof.
  induction l as [|x l IH]; simpl; [done|].
  destruct l; [by apply sublist_cons|by apply sublist_skip].
Qed.

Lemma removelast_keys c : cacheKeys (removelast c) `sublist_of` cacheKeys c.
Proof.
  unfold cacheKeys. induction c as [|x l IH]; simpl; [done|].
  destruct l; [by apply sublist_cons|by apply sublist_skip].
Qed.

Lemma removelast_length {A} (l : list A) : length (removelast l) = pred (length l).
Proof.
  induction l as [|x l IH]; simpl; [done|].
  destruct l; [done|]. simpl in *. by rewrite IH.
Qed.

Lemma cacheGet_ok now k c o c' :
  cacheOk c → cacheGet now k c = (o, c') → cacheOk c'.
Proof.
  intros [Hlen Hnd] H.
  assert (cacheOk (cacheDelete k c)) as Hdel.
  { split; [pose proof (cacheDelete_length k c); lia|].
    eapply sublist_NoDup; [exact Hnd|apply cacheDelete_sublist]. }
  destruct (cacheGet_cases now k c)
    as [[H1 H2]|[(e & H1 & H2 & H3)|(e & H1 & H2 & H3)]];
    rewrite H in *.
  - by injection H2 as _ ->.
  - by injection H3 as _ ->.
  - injection H3 as _ ->. split.
    + simpl. pose proof (cacheDelete_found k c e H1). lia.
    + unfold cacheKeys. simpl. apply NoDup_cons. split; [|apply Hdel].
      apply find_hasKey_key in H1 as [-> _]. apply cacheDelete_fresh.
Qed.

Lemma cacheSet_ok now k v c : cacheOk c → cacheOk (cacheSet now k v c).
Proof.
  intros [Hlen Hnd]. unfold cacheSet. cbv zeta.
  destruct (List.find (hasKey k) c) as [e|] eqn:E.
  - split.
    + simpl. pose proof (cacheDelete_found k c e E). lia.
    + unfold cacheKeys. simpl. apply NoDup_cons. split.
      * apply cacheDelete_fresh.
      * eapply sublist_NoDup; [exact Hnd|apply cacheDelete_sublist].
  - apply find_None_keys in E.
    destruct (Nat.leb_spec CACHE_MAX (length c)) as [Hfull|Hroom].
    + split.
      * simpl. rewrite removelast_length. unfold CACHE_MAX in *. lia.
      * unfold cacheKeys. simpl. apply NoDup_cons. split.
        -- intros Hin. apply E. eapply elem_of_sublist; [exact Hin|].
           apply removelast_keys.
        -- eapply sublist_NoDup; [exact Hnd|apply removelast_keys].
    + split; [simpl; lia|]. unfold cacheKeys. simpl. by apply NoDup_cons.
Qed.

Lemma searchDocuments_cacheOk env now q o w :
  cacheOk (searchCache w) →
  cacheOk (searchCache (snd (searchDocuments env now q o w))).
Proof.
  intros Hc.
  assert (∀ d w1, getDatabase env w = (d, w1) → cacheOk (searchCache w1)) as Hg.
  { intros [d|] w1 H.
    - apply getDatabase_Some in H as (_ & -> & _). done.
    - apply getDatabase_None in H as (_ & _ & -> & _). done. }
  destruct (searchDocuments_cases env now q o w)
    as [w1 Hdb|d w1 cached c Hdb Hget|d w1 c Hdb Hget Ht
       |d w1 c Hdb Hget Ht Hs|d w1 c Hdb Hget Ht Hs]; simpl.
  - by eapply Hg.
  - eapply cacheGet_ok; [|exact Hget]. by eapply Hg.
  - eapply cacheGet_ok; [|exact Hget]. by eapply Hg.
  - apply cacheSet_ok. eapply cacheGet_ok; [|exact Hget]. by eapply Hg.
  - eapply cacheGet_ok; [|exact Hget]. by eapply Hg.
Qed.

(** X11.  In every world a server can reach, the result cache holds
    at most [CACHE_MAX] = 500 entries and no cache key twice. *)
Theorem cache_bounded w :
  reachable w →
  (length (searchCache w) ≤ CACHE_MAX)%nat ∧ NoDup (cacheKeys (searchCache w)).
Proof.
  induction 1 as [|env now q o w Hr IH].
  - split; [simpl; lia|constructor].
  - by apply searchDocuments_cacheOk.
Qed.

Lemma cache_bounded_witness :
  (length (searchCache
             (snd (searchDocuments Sample.env 0 (js "apex") noOptions
                     initialWorld))) ≤ CACHE_MAX)%nat ∧
  NoDup (cacheKeys
           (searchCache
              (snd (searchDocuments Sample.env 0 (js "apex") noOptions
                      initialWorld)))).
Proof.
  apply (cache_bounded
           (snd (searchDocuments Sample.env 0 (js "apex") noOptions initialWorld))).
  apply reach_search, reach_init.
Defined.

(** ** Expiry *)

Lemma isStale_zero now e : e_start e = 0 → isStale now e = false.
Proof. intros H. unfold isStale. by rewrite H. Qed.

Lemma isStale_expired now e :
  e_start e ≠ 0 → CACHE_TTL < now - e_start e → isStale now e = true.
Proof.
  intros H0 Ht. unfold isStale.
  destruct (Z.eqb_spec (e_start e) 0); [done|].
  destruct (Z.ltb_spec CACHE_TTL (now - e_start e)); [done|lia].
Qed.

(** X12.  A cached answer is served for the TTL counted from the time
    it was computed.  In a reachable world with a resident store, a
    search whose key has an entry returns the list of the entry.
    While the clock has not passed the start of the entry by more than
    [CACHE_TTL] (or the entry was started at clock reading 0) the
    search is a hit that runs no query and leaves the entry, with its
    start, in place: hits do not prolong its life.  Once the entry is
    older the search runs its queries again and restarts the entry at
    the time of the call. *)
Theorem cached_answer_expires env now q o w e :
  reachable w →
  List.find (hasKey (cacheKeyOf q o)) (searchCache w) = Some e →
  let key := cacheKeyOf q o in
  let out := fst (searchDocuments env now q o w) in
  let w' := snd (searchDocuments env now q o w) in
  out = Ok (e_value e) ∧
  (now - e_start e ≤ CACHE_TTL ∨ e_start e = 0 →
   trace w' = trace w ∧
   List.find (hasKey key) (searchCache w') = Some e) ∧
  (CACHE_TTL < now - e_start e → e_start e ≠ 0 →
   (∃ evs, trace w' = trace w ++ evs ∧ (1 ≤ queries evs)%nat) ∧
   List.find (hasKey key) (searchCache w')
   = Some {| e_key := key; e_value := e_value e; e_start := now |}).
Proof.
  intros Hr Hf key out w'. subst out w'.
  apply SearchClaims.reachable_coherent in Hr as Hc.
  apply find_hasKey_key in Hf as Hk. destruct Hk as [Hk Hin].
  unfold coherent in Hc. rewrite Forall_forall in Hc.
  destruct (Hc e Hin) as (d & Hd & Hs & Hterms & Hval).
  fold key in Hk. rewrite Hk in Hs, Hterms, Hval. unfold key in Hs, Hterms.
  rewrite key_query in Hterms.
  assert (answer d q o = e_value e) as Hans.
  { unfold answer. rewrite Hval.
    by destruct (searchTermsOf (sanitizeQuery q)). }
  split; [|split].
  - rewrite <- Hans. apply SearchClaims.search_again; [|done..].
    unfold coherent. by rewrite Forall_forall.
  - intros Hlive.
    assert (isStale now e = false) as Hfresh.
    { destruct Hlive as [Hlive|Hzero];
        [by apply SearchClaims.isStale_within|by apply isStale_zero]. }
    rewrite (SearchClaims.search_hit env now q o w d e Hd Hf Hfresh). simpl.
    split; [done|]. unfold hasKey at 1. by rewrite bool_decide_eq_true_2.
  - intros Hold Hstart.
    pose proof (isStale_expired now e Hstart Hold) as Hstale.
    assert (cacheGet now key (searchCache w)
            = (None, cacheDelete key (searchCache w))) as Hmiss.
    { unfold cacheGet. fold key in Hf. by rewrite Hf, Hstale. }
    pose proof (getDatabase_resident env w d Hd) as Hg.
    destruct (searchDocuments_cases env now q o w)
      as [w1 Hdb|d1 w1 cached c Hdb Hget|d1 w1 c Hdb Hget Ht
         |d1 w1 c Hdb Hget Ht Hs1|d1 w1 c Hdb Hget Ht Hs1];
      rewrite Hg in Hdb; try discriminate; injection Hdb as <- <-;
      fold key in Hget; rewrite Hmiss in Hget; try discriminate;
      injection Hget as <-; try done; [|congruence].
    simpl. split.
    + eexists. split; [reflexivity|].
      apply (SearchMore.widen_queries (ctxOf q o) d).
    + fold key. rewrite find_cacheSet. by rewrite <- Hval.
Qed.

Lemma cached_answer_expires_witness :
  let q := js "apex trigger" in
  let w := snd (searchDocuments Sample.env 1000 q noOptions initialWorld) in
  let w' :=
    snd (searchDocuments Sample.brokenEnv (1001 + CACHE_TTL) q noOptions w) in
  ∃ evs, trace w' = trace w ++ evs ∧ (1 ≤ queries evs)%nat.
Proof.
  intros q w w'.
  destruct (cached_answer_expires Sample.brokenEnv (1001 + CACHE_TTL) q
              noOptions w
              {| e_key := cacheKeyOf q noOptions;
                 e_value := computed Sample.database (cacheKeyOf q noOptions);
                 e_start := 1000 |})
    as (_ & _ & Hold).
  - apply reach_search, reach_init.
  - vm_compute. reflexivity.
  - apply Hold; vm_compute; [reflexivity|discriminate].
Defined.

(** X13.  A search adds at most one entry to the cache: the list it
    returns, under the key of the call and stamped with the time of the
    call, and only when the query had a search term.  Searches that
    fail, searches without a search term and cache hits add nothing. *)
Theorem only_answers_are_cached env now q o w e :
  e ∈ searchCache (snd (searchDocuments env now q o w)) →
  e ∈ searchCache w ∨
  (fst (searchDocuments env now q o w) = Ok (e_value e) ∧
   e_key e = cacheKeyOf q o ∧ e_start e = now ∧
   searchTermsOf (sanitizeQuery q) ≠ []).
Proof.
  assert (∀ d w1, getDatabase env w = (d, w1) → searchCache w1 = searchCache w)
    as Hg.
  { intros [d|] w1 H.
    - by apply getDatabase_Some in H as (_ & -> & _).
    - by apply getDatabase_None in H as (_ & _ & -> & _). }
  destruct (searchDocuments_cases env now q o w)
    as [w1 Hdb|d w1 cached c Hdb Hget|d w1 c Hdb Hget Ht
       |d w1 c Hdb Hget Ht Hs|d w1 c Hdb Hget Ht Hs]; simpl; intros He.
  - left. by rewrite <- (Hg _ _ Hdb).
  - left. rewrite <- (Hg _ _ Hdb). by eapply cacheGet_subset.
  - left. rewrite <- (Hg _ _ Hdb). by eapply cacheGet_subset.
  - apply elem_of_cacheSet in He as [->|He].
    + right. done.
    + left. rewrite <- (Hg _ _ Hdb). by eapply cacheGet_subset.
  - left. rewrite <- (Hg _ _ Hdb). by eapply cacheGet_subset.
Qed.

Lemma only_answers_are_cached_witness :
  ∃ e,
    e ∈ searchCache
          (snd (searchDocuments Sample.env 3 (js "apex") noOptions initialWorld)) ∧
    e_start e = 3.
Proof.
  exists {| e_key := cacheKeyOf (js "apex") noOptions;
            e_value := computed Sample.database (cacheKeyOf (js "apex") noOptions);
            e_start := 3 |}.
  split; [vm_compute; apply list_elem_of_here|].
  destruct (only_answers_are_cached Sample.env 3 (js "apex") noOptions
              initialWorld
              {| e_key := cacheKeyOf (js "apex") noOptions;
                 e_value :=
                   computed Sample.database (cacheKeyOf (js "apex") noOptions);
                 e_start := 3 |})
    as [H|(_ & _ & H & _)].
  - vm_compute. apply list_elem_of_here.
  - by apply elem_of_nil in H.
  - exact H.
Defined.

End CacheMore.

(* ================================================================== *)
(** * Index builder: what a built store looks like *)
(* ================================================================== *)

Module BuildMore.
Import Store Build Props.

Lemma chunkOk_weaken n m c : n ≤ m → chunkOk n c → chunkOk m c.
Proof. intros H (H1 & H2 & H3 & H4). repeat split; try done; lia. Qed.

Lemma filter_id_none docs start k :
  map id docs = map Z.of_nat (seq start (length docs)) →
  k < Z.of_nat start →
  List.filter (λ doc, id doc =? k) docs = [].
Proof.
  revert start. induction docs as [|doc docs IH]; intros start H Hk; [done|].
  simpl in H. injection H as Hid Hrest. simpl.
  destruct (Z.eqb_spec (id doc) k); [lia|]. apply (IH (S start)); [done|lia].
Qed.

Lemma filter_id_unique docs start k :
  map id docs = map Z.of_nat (seq start (length docs)) →
  Z.of_nat start ≤ k < Z.of_nat (start + length docs) →
  ∃ doc, List.filter (λ doc, id doc =? k) docs = [doc].
Proof.
  revert start. induction docs as [|doc docs IH]; intros start H Hk;
    [simpl in Hk; lia|].
  simpl in H. injection H as Hid Hrest. simpl.
  destruct (Z.eqb_spec (id doc) k) as [E|E].
  - exists doc. f_equal. apply (filter_id_none docs (S start)); [done|lia].
  - apply (IH (S start)); [done|]. simpl in Hk. lia.
Qed.

Lemma joined_one_each docs cs :
  Forall (λ c, ∃ doc, List.filter (λ doc, id doc =? document_id c) docs = [doc])
    cs →
  map snd
    (concat
       (map (λ c,
          map (λ doc, (doc, c))
            (List.filter (λ doc, id doc =? document_id c) docs)) cs))
  = cs.
Proof.
  induction 1 as [|c cs [doc Hc] Hcs IH]; simpl; [done|].
  rewrite Hc. simpl. by rewrite IH.
Qed.

Section Run.
Variable categorizeDocument : str → Classification.
Variable generateTitle : str → str.

Local Abbreviation insertDoc := (insertDocument categorizeDocument generateTitle).
Local Abbreviation process := (processPdf categorizeDocument generateTitle).
Local Abbreviation step := (pdfStep categorizeDocument generateTitle).
Local Abbreviation fullIndex pdfs :=
  (fst (fst (processAll categorizeDocument generateTitle pdfs))).
Local Abbreviation build := (buildIndex categorizeDocument generateTitle).

Lemma createSchema_ok : builtOk (createSchema emptyDatabase).
Proof. unfold builtOk, sequentialIds. simpl. repeat split; constructor. Qed.

Lemma insertDocument_ok d p pages size newId d' :
  builtOk d →
  insertDoc d p pages size = Some (newId, d') →
  builtOk d' ∧
  newId = Z.of_nat (length (documents d')) ∧
  length (documents d') = S (length (documents d)) ∧
  chunks d' = chunks d.
Proof.
  intros (Hs & Hids & Hnames & Hchunks & Hkeys). unfold insertDocument.
  destruct (existsb _ (documents d)) eqn:E; [done|].
  intros [= <- <-]. cbn [documents chunks hasSchema].
  rewrite length_app. simpl. repeat split.
  - done.
  - unfold sequentialIds in *. cbn [documents].
    rewrite map_app, length_app, Hids. simpl.
    rewrite Nat.add_1_r, seq_S, map_app. simpl. f_equal. f_equal. lia.
  - cbn [documents]. rewrite map_app. simpl. apply NoDup_app.
    split; [done|]. split; [|apply NoDup_singleton].
    intros name Hin Hp. apply list_elem_of_singleton in Hp as ->.
    apply list_elem_of_fmap in Hin as (r & Hr & Hin).
    assert (existsb (λ r, bool_decide (file_name r = pdf_name p)) (documents d)
            = true) as Hex.
    { apply existsb_exists. exists r. split; [by apply list_elem_of_In|].
      by apply bool_decide_eq_true. }
    by rewrite Hex in E.
  - cbn [documents chunks]. rewrite length_app. simpl.
    eapply Forall_impl; [exact Hchunks|]. intros c. apply chunkOk_weaken. lia.
  - done.
  - lia.
  - lia.
Qed.

Lemma insertChunk_ok newId x d (seen : list nat) :
  hasSchema d = true →
  1 ≤ newId ≤ Z.of_nat (length (documents d)) →
  Forall (chunkOk (Z.of_nat (length (documents d)))) (chunks d) →
  NoDup (map chunkKey (chunks d)) →
  (∀ c, c ∈ chunks d → document_id c = newId →
        ∃ i, i ∈ seen ∧ chunk_index c = Z.of_nat i) →
  Chunker.index x ∉ seen →
  let d' := insertChunk newId d x in
  hasSchema d' = true ∧ documents d' = documents d ∧
  Forall (chunkOk (Z.of_nat (length (documents d)))) (chunks d') ∧
  NoDup (map chunkKey (chunks d')) ∧
  (∀ c, c ∈ chunks d' → document_id c = newId →
        ∃ i, i ∈ Chunker.index x :: seen ∧ chunk_index c = Z.of_nat i).
Proof.
  intros Hs Hid Hok Hkeys Hseen Hfresh. cbv zeta. unfold insertChunk.
  destruct (Nat.ltb_spec 50 (length (Chunker.content x))) as [Hbig|Hsmall];
    cbn [hasSchema documents chunks].
  - split; [done|]. split; [done|]. split; [|split].
    + apply Forall_app_2; [done|]. constructor; [|constructor].
      repeat split; cbn [document_id content content_lower section_title];
        try done; try lia.
      by destruct (Chunker.sectionTitle x) as [[|? ?]|].
    + rewrite map_app. simpl. apply NoDup_app.
      split; [done|]. split; [|apply NoDup_singleton].
      intros key Hin Hk. apply list_elem_of_singleton in Hk as ->.
      apply list_elem_of_fmap in Hin as (c & Hc & Hin).
      unfold chunkKey in Hc. cbn [document_id chunk_index] in Hc.
      injection Hc as Hc1 Hc2.
      destruct (Hseen c Hin (eq_sym Hc1)) as (i & Hi & Hci).
      rewrite Hci in Hc2. apply Nat2Z.inj in Hc2 as <-. by apply Hfresh.
    + intros c Hc Hcid. apply elem_of_app in Hc as [Hc|Hc].
      * destruct (Hseen c Hc Hcid) as (i & Hi & Hci).
        exists i. split; [by right|done].
      * apply list_elem_of_singleton in Hc as ->.
        exists (Chunker.index x). split; [by left|done].
  - split; [done|]. split; [done|]. split; [done|]. split; [done|].
    intros c Hc Hcid. destruct (Hseen c Hc Hcid) as (i & Hi & Hci).
    exists i. split; [by right|done].
Qed.

Lemma insertChunks_ok newId cs d (seen : list nat) :
  hasSchema d = true →
  1 ≤ newId ≤ Z.of_nat (length (documents d)) →
  Forall (chunkOk (Z.of_nat (length (documents d)))) (chunks d) →
  NoDup (map chunkKey (chunks d)) →
  (∀ c, c ∈ chunks d → document_id c = newId →
        ∃ i, i ∈ seen ∧ chunk_index c = Z.of_nat i) →
  NoDup (map Chunker.index cs) →
  (∀ i, i ∈ seen → i ∉ map Chunker.index cs) →
  let d' := fold_left (insertChunk newId) cs d in
  hasSchema d' = true ∧ documents d' = documents d ∧
  Forall (chunkOk (Z.of_nat (length (documents d)))) (chunks d') ∧
  NoDup (map chunkKey (chunks d')).
Proof.
  revert d seen. induction cs as [|x cs IH];
    intros d seen Hs Hid Hok Hkeys Hseen Hnd Hfresh; [done|].
  cbn [fold_left]. cbv zeta. cbn [map] in Hnd, Hfresh.
  apply NoDup_cons in Hnd as [Hx Hnd].
  destruct (insertChunk_ok newId x d seen) as (Hs1 & Hd1 & Hok1 & Hk1 & Hseen1);
    try done.
  { intros Hin. apply (Hfresh _ Hin). by left. }
  rewrite <- Hd1 in Hok1, Hid |- *.
  apply (IH (insertChunk newId d x) (Chunker.index x :: seen)); try done.
  intros i Hi. apply elem_of_cons in Hi as [->|Hi]; [done|].
  specialize (Hfresh i Hi). by apply not_elem_of_cons in Hfresh as [_ ?].
Qed.

Lemma processPdf_ok d p ok d' :
  builtOk d →
  process d p = (ok, d') →
  builtOk d' ∧
  length (documents d')
  = (if ok then S (length (documents d)) else length (documents d)).
Proof.
  intros Hok. unfold processPdf.
  destruct (pdf_text p) as [[[text pages] size]|]; [|by intros [= <- <-]].
  destruct (length text <? 100)%nat; [by intros [= <- <-]|].
  destruct (insertDocument _ _ d p pages size) as [[newId d1]|] eqn:E;
    [|by intros [= <- <-]].
  intros [= <- <-].
  apply insertDocument_ok in E as (Hok1 & Hid & Hlen & Hchunks); [|done].
  destruct Hok as (_ & _ & _ & Hold & _).
  destruct Hok1 as (Hs1 & Hids1 & Hnames1 & Hc1 & Hk1).
  destruct (insertChunks_ok newId (Chunker.chunkText text BUILD_OPTIONS) d1 [])
    as (Hs2 & Hd2 & Hc2 & Hk2); try done.
  - lia.
  - intros c Hc Hcid. exfalso. rewrite Hchunks in Hc.
    rewrite Forall_forall in Hold. destruct (Hold c Hc) as (Hrange & _). lia.
  - apply ChunkerMore.chunkText_indexes_NoDup.
  - intros i Hi. by apply elem_of_nil in Hi.
  - split; [|by rewrite Hd2].
    unfold builtOk, sequentialIds. rewrite Hd2. done.
Qed.

Lemma pdfLoop_ok pdfs d ok failed :
  builtOk d → length (documents d) = ok →
  let '(d', ok', failed') := fold_left step pdfs (d, ok, failed) in
  builtOk d' ∧ length (documents d') = ok' ∧
  (ok' + failed' = ok + failed + length pdfs)%nat.
Proof.
  revert d ok failed. induction pdfs as [|p pdfs IH]; intros d ok failed Hok Hlen.
  { simpl. split; [done|]. split; [done|lia]. }
  cbn [fold_left]. unfold pdfStep at 2.
  destruct (processPdf _ _ d p) as [b d1] eqn:E.
  apply processPdf_ok in E as [Hok1 Hlen1]; [|done].
  destruct b.
  - specialize (IH d1 (S ok) failed Hok1 ltac:(lia)).
    destruct (fold_left _ pdfs _) as [[d' ok'] failed'].
    destruct IH as (? & ? & ?). split; [done|]. split; [done|simpl; lia].
  - specialize (IH d1 ok (S failed) Hok1 ltac:(lia)).
    destruct (fold_left _ pdfs _) as [[d' ok'] failed'].
    destruct IH as (? & ? & ?). split; [done|]. split; [done|simpl; lia].
Qed.

Lemma processAll_ok pdfs :
  let '(d, ok, failed) := processAll categorizeDocument generateTitle pdfs in
  builtOk d ∧ length (documents d) = ok ∧ (ok + failed = length pdfs)%nat.
Proof.
  unfold processAll.
  pose proof (pdfLoop_ok pdfs (createSchema emptyDatabase) 0 0 createSchema_ok
                eq_refl) as H.
  destruct (fold_left _ pdfs _) as [[d ok] failed]. exact H.
Qed.

Lemma fullIndex_ok pdfs : builtOk (fullIndex pdfs).
Proof.
  pose proof (processAll_ok pdfs) as H.
  destruct (processAll _ _ pdfs) as [[d ok] failed]. simpl. apply H.
Qed.

(** Every document row carries the name and path of its PDF and the
    classification and title computed from the name. *)
Lemma insertChunks_documents newId cs d :
  documents (fold_left (insertChunk newId) cs d) = documents d.
Proof.
  revert d. induction cs as [|x cs IH]; intros d; simpl; [done|].
  rewrite IH. unfold insertChunk. by destruct (_ <? _)%nat.
Qed.

Lemma processPdf_classified d p :
  Forall (classified categorizeDocument generateTitle) (documents d) →
  Forall (classified categorizeDocument generateTitle)
    (documents (snd (process d p))).
Proof.
  intros H. unfold processPdf.
  destruct (pdf_text p) as [[[text pages] size]|]; [|done].
  destruct (length text <? 100)%nat; [done|].
  unfold insertDocument. destruct (existsb _ (documents d)); [done|].
  cbn [snd]. rewrite insertChunks_documents. cbn [documents].
  apply Forall_app_2; [done|]. constructor; [|constructor]. by repeat split.
Qed.

Lemma fullIndex_classified pdfs :
  Forall (classified categorizeDocument generateTitle)
    (documents (fullIndex pdfs)).
Proof.
  unfold processAll.
  assert (∀ ps st,
            Forall (classified categorizeDocument generateTitle)
              (documents (fst (fst st))) →
            Forall (classified categorizeDocument generateTitle)
              (documents (fst (fst (fold_left step ps st))))) as Hgen.
  { induction ps as [|p ps IH]; intros st H; simpl; [done|].
    apply IH. destruct st as [[d ok] failed]. unfold pdfStep.
    pose proof (processPdf_classified d p H) as H'.
    destruct (processPdf _ _ d p) as [[] d1]; exact H'. }
  apply Hgen. constructor.
Qed.

(** X14.  In the store a builder run assembles, the documents have the
    ids 1, 2, ..., n in the order they were indexed, no two of them
    share a file name, and they are counted right: the number of
    documents is the number of PDFs reported as indexed, and every PDF
    is reported either as indexed or as failed -- a PDF that cannot be
    processed is skipped and never stops the run. *)
Theorem built_store_documents pdfs :
  let d := fullIndex pdfs in
  let ok := snd (fst (processAll categorizeDocument generateTitle pdfs)) in
  let failed := snd (processAll categorizeDocument generateTitle pdfs) in
  hasSchema d = true ∧
  map id (documents d) = map Z.of_nat (seq 1 (length (documents d))) ∧
  NoDup (map file_name (documents d)) ∧
  length (documents d) = ok ∧
  (ok + failed = length pdfs)%nat.
Proof.
  cbv zeta. pose proof (processAll_ok pdfs) as H.
  destruct (processAll _ _ pdfs) as [[d ok] failed]. simpl.
  destruct H as ((Hs & Hids & Hnames & _) & Hlen & Hsum). done.
Qed.

(** X15.  Every chunk row of a built store belongs to exactly one
    document of the store, holds more than 50 characters of content
    with its lower-cased copy beside it, and has a section title that is
    absent or non-empty; no two rows share a (document, chunk index)
    pair, so the [UNIQUE] constraint of the table never fires; and the
    join of chunks and documents the searches use lists every chunk
    once. *)
Theorem built_store_chunks pdfs :
  let d := fullIndex pdfs in
  Forall (λ c, content_lower c = JS.toLowerCase (content c) ∧
               (50 < length (content c))%nat ∧
               section_title c ≠ Some [] ∧
               ∃ doc, List.filter (λ doc, id doc =? document_id c) (documents d)
                      = [doc])
    (chunks d) ∧
  NoDup (map chunkKey (chunks d)) ∧
  map snd (Search.joined d) = chunks d.
Proof.
  cbv zeta. destruct (fullIndex_ok pdfs) as (Hs & Hids & Hnames & Hc & Hk).
  assert (Forall (λ c, ∃ doc,
                    List.filter (λ doc, id doc =? document_id c)
                      (documents (fullIndex pdfs)) = [doc])
            (chunks (fullIndex pdfs))) as Hone.
  { eapply Forall_impl; [exact Hc|]. intros c (Hrange & _).
    apply (filter_id_unique _ 1); [exact Hids|lia]. }
  split; [|split; [done|]].
  - apply Forall_forall. intros c Hin.
    rewrite Forall_forall in Hc, Hone.
    destruct (Hc c Hin) as (_ & H1 & H2 & H3). repeat split; auto.
  - unfold Search.joined. by apply joined_one_each.
Qed.

Lemma build_written env fs stats fs' :
  build env fs = (Built stats, fs') →
  ∃ pdfs notes,
    pdfDir env = Some pdfs ∧ releaseNotesDir env = Some notes ∧
    dbFile fs' = File (fullIndex (pdfs ++ notes)) ∧
    documentsIndexed stats
    = snd (fst (processAll categorizeDocument generateTitle (pdfs ++ notes))) ∧
    documentsFailed stats
    = snd (processAll categorizeDocument generateTitle (pdfs ++ notes)) ∧
    totalChunks stats = length (chunks (fullIndex (pdfs ++ notes))).
Proof.
  unfold buildIndex.
  destruct (negb (dataDir fs) && negb (mkdirOk env)); [done|]. cbv zeta.
  destruct (_ && negb (unlinkOk env)); [done|].
  destruct (negb (sqlLoads env)); [done|].
  destruct (pdfDir env) as [pdfs|]; [|done].
  destruct (releaseNotesDir env) as [notes|]; [|done].
  destruct (processAll _ _ (pdfs ++ notes)) as [[d ok] failed] eqn:E.
  destruct (negb (exportOk env)); [done|].
  destruct (writeOk env); [|done].
  intros [= <- <-]. exists pdfs, notes. rewrite E. simpl.
  repeat split; reflexivity.
Qed.

(** X16.  What a completed run reports is what it wrote: the file
    holds a store with the schema, as many documents as the run counts
    as indexed and as many chunk rows as it counts as chunks; and
    indexed and failed documents add up to the PDFs found in the two
    directories. *)
Theorem build_report env fs stats fs' :
  build env fs = (Built stats, fs') →
  ∃ pdfs notes d,
    pdfDir env = Some pdfs ∧ releaseNotesDir env = Some notes ∧
    dbFile fs' = File d ∧ hasSchema d = true ∧
    documentsIndexed stats = length (documents d) ∧
    totalChunks stats = length (chunks d) ∧
    (documentsIndexed stats + documentsFailed stats
     = length pdfs + length notes)%nat.
Proof.
  intros H.
  apply build_written in H as (pdfs & notes & Hp & Hn & Hf & Hi & Hfa & Hc).
  pose proof (processAll_ok (pdfs ++ notes)) as H.
  rewrite Hi, Hfa, Hc, Hf. clear Hi Hfa Hc Hf.
  destruct (processAll _ _ (pdfs ++ notes)) as [[d ok] failed]. simpl.
  destruct H as ((Hs & _) & Hlen & Hsum). rewrite length_app in Hsum.
  exists pdfs, notes, d. done.
Qed.

(** X17.  A server started on the file a completed run wrote answers
    its searches: the first search loads the store and returns a list,
    and so does every search after it, whatever has become of the file
    -- none fails to load the store or to run its query.  The searches
    are those whose [maxResults] keeps the sample size, at most
    [maxResults * 50], a safe integer; a sample size beyond the 64-bit
    integers does not bind to [LIMIT], and the search fails. *)
Theorem built_index_is_searchable env fs stats fs' senv now q o :
  build env fs = (Built stats, fs') →
  Search.sqlLoads senv = true →
  Search.disk senv = dbFile fs' →
  safeOptions o →
  ∃ r w',
    Search.searchDocuments senv now q o Search.initialWorld
    = (Search.Ok r, w') ∧
    ∀ calls,
      Forall (λ c, safeOptions (c_options c)) calls →
      Forall (λ out, isOk out = true) (fst (searchAll calls w')).
Proof.
  intros Hb Hsql Hdisk Hsafe.
  apply build_written in Hb as (pdfs & notes & _ & _ & Hfile & _).
  destruct (fullIndex_ok (pdfs ++ notes)) as (Hs & _).
  set (d := fullIndex (pdfs ++ notes)) in *.
  rewrite Hfile in Hdisk.
  pose proof (SearchState.searchDocuments_cases senv now q o Search.initialWorld)
    as Hcase.
  assert (Search.getDatabase senv Search.initialWorld
          = (Some d, {| Search.SQL := true; Search.db := Some d;
                        Search.searchCache := []; Search.trace := [Search.LoadStore] |}))
    as Hg.
  { unfold Search.getDatabase. simpl. by rewrite Hsql, Hdisk. }
  destruct (Search.searchDocuments senv now q o Search.initialWorld) as [out w'].
  simpl in Hcase.
  assert (Search.db w' = Some d ∧ ∃ r, out = Search.Ok r) as [Hd (r & ->)].
  { inversion Hcase as [w1 Hdb|d1 w1 cached c Hdb Hget|d1 w1 c Hdb Hget Ht
                       |d1 w1 c Hdb Hget Ht Hs1|d1 w1 c Hdb Hget Ht Hs1];
      subst; rewrite Hg in Hdb; try discriminate; injection Hdb as <- <-;
      [by eauto..|].
    rewrite (SearchMore.safeOptions_runs d q o Hs Hsafe) in Hs1. discriminate. }
  exists r, w'. split; [reflexivity|].
  intros calls Hcalls. by apply (SearchMore.searchAll_resident calls w' d).
Qed.

(** X22.  [isDatabaseIndexed] agrees with the report of the builder: on
    the file a completed run wrote it loads the store and answers
    [true] exactly when the run indexed at least one document; and it
    answers [false], without failing, when sql.js cannot be initialised
    and when the file is absent, unreadable or torn. *)
Theorem indexed_iff_documents senv :
  (∀ env fs stats fs',
     build env fs = (Built stats, fs') →
     Search.sqlLoads senv = true →
     Search.disk senv = dbFile fs' →
     ∃ d, dbFile fs' = File d ∧
          Lookup.isDatabaseIndexed senv Search.initialWorld
          = ((0 <? documentsIndexed stats)%nat,
             {| Search.SQL := true; Search.db := Some d;
                Search.searchCache := [];
                Search.trace := [Search.LoadStore] |})) ∧
  (Search.sqlLoads senv = false ∨ (∀ d, Search.disk senv ≠ File d) →
   fst (Lookup.isDatabaseIndexed senv Search.initialWorld) = false).
Proof.
  split.
  - intros env fs stats fs' Hb Hsql Hdisk.
    apply build_written in Hb as (pdfs & notes & _ & _ & Hfile & Hi & _).
    pose proof (processAll_ok (pdfs ++ notes)) as H.
    rewrite Hi. rewrite Hfile in Hdisk |- *.
    destruct (processAll _ _ (pdfs ++ notes)) as [[d ok] failed].
    simpl in *. destruct H as ((Hs & _) & Hlen & _).
    exists d. split; [reflexivity|].
    unfold Lookup.isDatabaseIndexed, Search.getDatabase. simpl.
    rewrite Hsql, Hdisk, Hs. simpl. f_equal.
    rewrite <- Hlen. destruct (length (documents d)); reflexivity.
  - unfold Lookup.isDatabaseIndexed, Search.getDatabase. simpl.
    intros [->|Hfile]; [done|].
    destruct (Search.sqlLoads senv); [|done].
    destruct (Search.disk senv) as [| | |d]; try done.
    by destruct (Hfile d).
Qed.

End Run.

Lemma build_report_witness :
  ∃ stats fs',
    buildIndex Sample.classify Sample.titleOf buildEnv freshFS
      = (Built stats, fs') ∧
    ∃ pdfs notes d,
      pdfDir buildEnv = Some pdfs ∧ releaseNotesDir buildEnv = Some notes ∧
      dbFile fs' = File d ∧ hasSchema d = true ∧
      documentsIndexed stats = length (documents d) ∧
      totalChunks stats = length (chunks d) ∧
      (documentsIndexed stats + documentsFailed stats
       = length pdfs + length notes)%nat.
Proof.
  eexists _, _. split; [vm_compute; reflexivity|].
  apply (build_report Sample.classify Sample.titleOf buildEnv freshFS).
  vm_compute. reflexivity.
Defined.

Lemma built_index_is_searchable_witness :
  ∃ r w',
    Search.searchDocuments
      {| Search.sqlLoads := true;
         Search.disk :=
           dbFile (snd (buildIndex Sample.classify Sample.titleOf buildEnv
                          freshFS)) |}
      0 (js "apex trigger") Search.noOptions Search.initialWorld
    = (Search.Ok r, w') ∧
    ∀ calls,
      Forall (λ c, safeOptions (c_options c)) calls →
      Forall (λ out, isOk out = true) (fst (searchAll calls w')).
Proof.
  eapply (built_index_is_searchable Sample.classify Sample.titleOf buildEnv
            freshFS).
  - vm_compute. reflexivity.
  - reflexivity.
  - vm_compute. reflexivity.
  - vm_compute. split; discriminate.
Defined.

Lemma indexed_iff_documents_witness :
  fst (Lookup.isDatabaseIndexed
         {| Search.sqlLoads := true;
            Search.disk :=
              dbFile (snd (buildIndex Sample.classify Sample.titleOf buildEnv
                             freshFS)) |}
         Search.initialWorld) = true ∧
  fst (Lookup.isDatabaseIndexed Sample.brokenEnv Search.initialWorld) = false.
Proof.
  split.
  - destruct (proj1 (indexed_iff_documents Sample.classify Sample.titleOf
                       {| Search.sqlLoads := true;
                          Search.disk :=
                            dbFile (snd (buildIndex Sample.classify
                                           Sample.titleOf buildEnv freshFS)) |})
                buildEnv freshFS
                (match fst (buildIndex Sample.classify Sample.titleOf buildEnv
                              freshFS) with
                 | Built stats => stats
                 | _ => {| documentsIndexed := 0; documentsFailed := 0;
                           totalChunks := 0 |}
                 end)
                (snd (buildIndex Sample.classify Sample.titleOf buildEnv freshFS)))
      as (d & _ & H).
    + vm_compute. reflexivity.
    + reflexivity.
    + reflexivity.
    + rewrite H. vm_compute. reflexivity.
  - apply (proj2 (indexed_iff_documents Sample.classify Sample.titleOf
                    Sample.brokenEnv)).
    right. intros d. discriminate.
Defined.

End BuildMore.

(* ================================================================== *)
(** * Document lookups over a resident store *)
(* ================================================================== *)

Module LookupProofs.
Import Store Search Lookup Spec Props SearchState SearchPure ChunkPieces.

Opaque Intent.detectIntent Intent.describeIntent.

Lemma withDatabase_resident {A} env w d (f : Database → A) :
  db w = Some d → hasSchema d = true →
  withDatabase env w f = (Returned (f d), w).
Proof.
  intros Hd Hs. unfold withDatabase.
  by rewrite (getDatabase_resident env w d Hd), Hs.
Qed.

(** ** Lookup by id *)

Lemma sequentialIds_lookup d i doc :
  sequentialIds d → documents d !! i = Some doc → id doc = Z.of_nat i + 1.
Proof.
  unfold sequentialIds. intros Hids Hdoc.
  assert (map id (documents d) !! i = Some (id doc)) as H.
  { rewrite list_lookup_fmap. by rewrite Hdoc. }
  rewrite Hids in H. rewrite list_lookup_fmap in H.
  apply lookup_lt_Some in Hdoc as Hlt.
  rewrite (lookup_seq_lt 1 (length (documents d)) i Hlt) in H.
  simpl in H. injection H as <-. lia.
Qed.

Section Built.
Variable categorizeDocument : str → Build.Classification.
Variable generateTitle : str → str.

Local Abbreviation fullIndex pdfs :=
  (fst (fst (Build.processAll categorizeDocument generateTitle pdfs))).

(** X18.  Round trip through the builder: in a store the builder
    assembled, the i-th document indexed (counting from 0) is the one
    [getDocumentById] returns for the id i + 1, and the lookup of any
    other id returns nothing. *)
Theorem built_document_by_id pdfs env w k :
  db w = Some (fullIndex pdfs) →
  (∀ i doc, documents (fullIndex pdfs) !! i = Some doc → k = Z.of_nat i + 1 →
            getDocumentById env k w = (Returned (Some doc), w)) ∧
  (k < 1 ∨ Z.of_nat (length (documents (fullIndex pdfs))) < k →
   getDocumentById env k w = (Returned None, w)).
Proof.
  intros Hd.
  destruct (BuildMore.fullIndex_ok categorizeDocument generateTitle pdfs)
    as (Hs & Hids & _).
  unfold getDocumentById. rewrite (withDatabase_resident _ _ _ _ Hd Hs).
  split.
  - intros i doc Hdoc ->.
    pose proof (sequentialIds_lookup _ _ _ Hids Hdoc) as Hid.
    apply lookup_lt_Some in Hdoc as Hlt.
    destruct (BuildMore.filter_id_unique (documents (fullIndex pdfs)) 1
                (Z.of_nat i + 1) Hids ltac:(lia)) as [doc' Hf].
    unfold selectById. rewrite Hf. simpl.
    assert (doc ∈ [doc']) as Hin.
    { rewrite <- Hf. apply list_elem_of_In, filter_In.
      split; [by eapply list_elem_of_In, list_elem_of_lookup_2|].
      by apply Z.eqb_eq. }
    apply list_elem_of_singleton in Hin as ->. done.
  - intros Hout. unfold selectById.
    assert (List.filter (λ r, id r =? k) (documents (fullIndex pdfs)) = [])
      as ->; [|done].
    destruct Hout as [Hlow|Hhigh].
    + apply (BuildMore.filter_id_none _ 1); [exact Hids|lia].
    + destruct (List.filter _ _) as [|r rest] eqn:E; [done|]. exfalso.
      assert (In r (List.filter (λ r, id r =? k) (documents (fullIndex pdfs))))
        as Hin by (rewrite E; by left).
      apply filter_In in Hin as [Hin Hk]. apply Z.eqb_eq in Hk.
      apply list_elem_of_In, list_elem_of_lookup in Hin as [i Hi].
      pose proof (sequentialIds_lookup _ _ _ Hids Hi).
      apply lookup_lt_Some in Hi. lia.
Qed.

End Built.

Lemma built_document_by_id_witness :
  ∃ doc w,
    db w = Some (fst (fst (Build.processAll Sample.classify Sample.titleOf
                             [samplePdf; brokenPdf]))) ∧
    getDocumentById Sample.brokenEnv 1 w = (Returned (Some doc), w) ∧
    file_name doc = js "apex_guide.pdf".
Proof.
  eexists _, {| SQL := true;
                db := Some (fst (fst (Build.processAll Sample.classify
                                        Sample.titleOf [samplePdf; brokenPdf])));
                searchCache := []; trace := [LoadStore] |}.
  split; [reflexivity|]. split.
  - eapply (proj1 (built_document_by_id Sample.classify Sample.titleOf
                     [samplePdf; brokenPdf] Sample.brokenEnv
                     {| SQL := true;
                        db := Some (fst (fst (Build.processAll Sample.classify
                                                Sample.titleOf
                                                [samplePdf; brokenPdf])));
                        searchCache := []; trace := [LoadStore] |}
                     1 eq_refl) 0%nat).
    + vm_compute. reflexivity.
    + reflexivity.
  - vm_compute. reflexivity.
Defined.

(** ** Lookup by file name *)

Lemma like_cons_percent p pat s :
  isPercent p = true →
  like (p :: pat) s
  = like pat s || match s with [] => false | _ :: s' => like (p :: pat) s' end.
Proof. intros H. destruct s; cbn [like]; rewrite H; reflexivity. Qed.

Lemma like_cons_literal p pat c s :
  isPercent p = false →
  like (p :: pat) (c :: s)
  = (isUnderscore p || JS.eqChar (sqlFold p) (sqlFold c)) && like pat s.
Proof. intros H. cbn [like]. rewrite H. reflexivity. Qed.

Lemma like_prefix_refl s : like (s ++ js "%") s = true.
Proof.
  induction s as [|c s IH]; [reflexivity|].
  change ((c :: s) ++ js "%") with (c :: (s ++ js "%")).
  destruct (isPercent c) eqn:E.
  - rewrite (like_cons_percent _ _ _ E). apply orb_true_iff. right.
    rewrite (like_cons_percent _ _ _ E). by rewrite IH.
  - rewrite (like_cons_literal _ _ _ _ E). unfold JS.eqChar.
    by rewrite N.eqb_refl, orb_true_r.
Qed.

Lemma like_contains_refl s : like (js "%" ++ s ++ js "%") s = true.
Proof. rewrite SearchMore.like_percent, like_prefix_refl. reflexivity. Qed.

Lemma head_filter_None {A} (f : A → bool) l :
  head (List.filter f l) = None ↔ ∀ x, x ∈ l → f x = false.
Proof.
  induction l as [|y l IH]; simpl.
  - split; [intros _ x Hx; by apply elem_of_nil in Hx|done].
  - destruct (f y) eqn:E; simpl.
    + split; [done|]. intros H. specialize (H y ltac:(by left)). congruence.
    + rewrite IH. split.
      * intros H x Hx. apply elem_of_cons in Hx as [->|Hx]; auto.
      * intros H x Hx. apply H. by right.
Qed.

Lemma head_filter_Some {A} (f : A → bool) l x :
  head (List.filter f l) = Some x → x ∈ l ∧ f x = true.
Proof.
  intros H.
  assert (In x (List.filter f l)) as Hin.
  { destruct (List.filter f l); [done|]. injection H as ->. by left. }
  apply filter_In in Hin as [Hin Hf]. by rewrite list_elem_of_In.
Qed.

Lemma filter_ext_in {A} (f g : A → bool) l :
  (∀ x, f x = g x) → List.filter f l = List.filter g l.
Proof.
  intros H. induction l as [|x l IH]; simpl; [done|]. by rewrite H, IH.
Qed.

(** X19.  [getDocumentByFileName] answers with the first document, in
    table order, whose file name contains the given name in the sense of
    [LIKE] (ASCII letters compared without case, [%] and [_] in the name
    acting as wildcards), and with nothing exactly when no file name
    does.  A document whose file name is the given name guarantees an
    answer: the comparison [file_name = ?] of the statement never adds
    a row. *)
Theorem document_by_file_name env w d fileName :
  db w = Some d → hasSchema d = true →
  ∃ res,
    getDocumentByFileName env fileName w = (Returned res, w) ∧
    res = head (List.filter
                  (λ r, like (js "%" ++ fileName ++ js "%") (file_name r))
                  (documents d)) ∧
    (∀ r, res = Some r →
          r ∈ documents d ∧
          like (js "%" ++ fileName ++ js "%") (file_name r) = true) ∧
    (res = None ↔
     ∀ r, r ∈ documents d →
          like (js "%" ++ fileName ++ js "%") (file_name r) = false) ∧
    ((∃ r, r ∈ documents d ∧ file_name r = fileName) → res ≠ None).
Proof.
  intros Hd Hs. unfold getDocumentByFileName.
  rewrite (withDatabase_resident _ _ _ _ Hd Hs). eexists. split; [reflexivity|].
  assert (∀ r, like (js "%" ++ fileName ++ js "%") (file_name r)
               || bool_decide (file_name r = fileName)
               = like (js "%" ++ fileName ++ js "%") (file_name r)) as Hor.
  { intros r. destruct (bool_decide_reflect (file_name r = fileName)) as [E|E];
      [|apply orb_false_r].
    rewrite E, like_contains_refl. reflexivity. }
  unfold selectByFileName. rewrite (filter_ext_in _ _ _ Hor).
  split; [done|]. split; [|split].
  - intros r Hr. by apply head_filter_Some in Hr as [Hin Hf].
  - by rewrite head_filter_None.
  - intros (r & Hr & Hname) Hnone.
    rewrite head_filter_None in Hnone. specialize (Hnone r Hr).
    rewrite Hname, like_contains_refl in Hnone. done.
Qed.

Lemma document_by_file_name_witness :
  ∃ res,
    getDocumentByFileName Sample.env (js "GUIDE") initialWorld
    = (Returned res, snd (getDatabase Sample.env initialWorld)) ∧
    res ≠ None.
Proof.
  destruct (document_by_file_name Sample.brokenEnv
              (snd (getDatabase Sample.env initialWorld)) Sample.database
              (js "GUIDE") eq_refl eq_refl) as (res & H & _ & _ & Hnone & _).
  exists res. split.
  - rewrite <- H. reflexivity.
  - intros E. pose proof (proj1 Hnone E) as E'.
    specialize (E' (Sample.doc 1 "core_platform" "apex" 9) ltac:(by left)).
    vm_compute in E'. discriminate E'.
Defined.

(** ** The content of a document *)

Lemma infix_join sep l x : x ∈ l → infix x (JS.join sep l).
Proof.
  induction l as [|y l IH]; [intros H; by apply elem_of_nil in H|].
  intros H. apply elem_of_cons in H as [->|H].
  - destruct l as [|z l]; simpl; [apply infix_refl|].
    exists [], (sep ++ JS.join sep (z :: l)). done.
  - specialize (IH H). destruct l as [|z l]; [by apply elem_of_nil in H|].
    destruct IH as (a & b & Hab).
    change (JS.join sep (y :: z :: l)) with (y ++ sep ++ JS.join sep (z :: l)).
    rewrite Hab. exists (y ++ sep ++ a), b. by rewrite <- !app_assoc.
Qed.

Lemma infix_render c : infix (content c) (render c).
Proof.
  unfold render. destruct (section_title c) as [[|t ts]|]; try apply infix_refl.
  exists (js "## " ++ (t :: ts) ++ [JS.LF; JS.LF]), [].
  by rewrite app_nil_r, <- !app_assoc.
Qed.

(** X20.  The content [getDocumentContent] returns for a document
    without a section filter contains the content of every chunk row of
    that document, and it is empty when the document has no chunk. *)
Theorem document_content_complete env w d k :
  db w = Some d → hasSchema d = true →
  ∃ text,
    getDocumentContent env k None w = (Returned text, w) ∧
    (∀ c, c ∈ chunks d → document_id c = k → infix (content c) text) ∧
    ((∀ c, c ∈ chunks d → document_id c ≠ k) → text = []).
Proof.
  intros Hd Hs. unfold getDocumentContent.
  rewrite (withDatabase_resident _ _ _ _ Hd Hs). eexists. split; [reflexivity|].
  cbv beta.
  assert (∀ c, c ∈ selectContent d k None ↔ c ∈ chunks d ∧ document_id c = k)
    as Hsel.
  { intros c. unfold selectContent. rewrite elem_of_sortBy.
    rewrite list_elem_of_In, filter_In, andb_true_r, Z.eqb_eq.
    by rewrite list_elem_of_In. }
  split.
  - intros c Hc Hk.
    assert (c ∈ selectContent d k None) as Hin by (apply Hsel; done).
    destruct (selectContent d k None) as [|r rows] eqn:E;
      [by apply elem_of_nil in Hin|].
    eapply infix_trans; [apply infix_render|].
    apply infix_join. change (render c ∈ render <$> (r :: rows)).
    apply list_elem_of_fmap. by exists c.
  - intros Hnone. destruct (selectContent d k None) as [|r rows] eqn:E; [done|].
    exfalso. destruct (proj1 (Hsel r)) as [Hr Hk]; [rewrite ?E; by left|].
    by apply (Hnone r).
Qed.

Lemma document_content_complete_witness :
  ∃ text,
    getDocumentContent Sample.env 1 None
      (snd (getDatabase Sample.env initialWorld))
    = (Returned text, snd (getDatabase Sample.env initialWorld)) ∧
    infix (js "Apex rocks apex") text.
Proof.
  destruct (document_content_complete Sample.env
              (snd (getDatabase Sample.env initialWorld)) Sample.database 1
              eq_refl eq_refl) as (text & H & Hall & _).
  exists text. split; [exact H|].
  apply (Hall (Sample.chk 1 0 "Apex rocks apex")); [by left|reflexivity].
Defined.

(** ** Documents of a category *)

Lemma priorityGe_trans a b c : priorityGe a b → priorityGe b c → priorityGe a c.
Proof.
  unfold priorityGe.
  destruct (priority a), (priority b), (priority c); try done. lia.
Qed.

Lemma documentBefore_true y x : documentBefore y x = true → priorityGe y x.
Proof.
  unfold documentBefore, priorityGe.
  destruct (priority y) as [py|], (priority x) as [px|]; try done.
  intros H. apply orb_true_iff in H as [H|H]; [apply Z.ltb_lt in H; lia|].
  apply andb_true_iff in H as [H _]. apply Z.eqb_eq in H. lia.
Qed.

Lemma documentBefore_false y x : documentBefore y x = false → priorityGe x y.
Proof.
  unfold documentBefore, priorityGe.
  destruct (priority y) as [py|], (priority x) as [px|]; try done.
  intros H. apply orb_false_iff in H as [H _]. apply Z.ltb_ge in H. lia.
Qed.

Lemma insertBy_priority x l :
  StronglySorted priorityGe l →
  StronglySorted priorityGe (insertBy documentBefore x l).
Proof.
  induction 1 as [|y l Hs IH Hall]; simpl.
  - constructor; constructor.
  - destruct (documentBefore y x) eqn:E.
    + constructor; [exact IH|].
      apply Forall_forall. intros z Hz.
      apply elem_of_insertBy in Hz as [->|Hz].
      * by apply documentBefore_true.
      * rewrite Forall_forall in Hall. by apply Hall.
    + apply documentBefore_false in E.
      constructor; [by constructor|].
      constructor; [exact E|].
      eapply Forall_impl; [exact Hall|]. simpl. intros z Hz.
      by apply priorityGe_trans with y.
Qed.

Lemma sortBy_priority l : StronglySorted priorityGe (sortBy documentBefore l).
Proof.
  induction l as [|x l IH]; simpl; [constructor|]. by apply insertBy_priority.
Qed.

Lemma limit_sorted {A} (R : A → A → Prop) n l :
  StronglySorted R l → StronglySorted R (limit n l).
Proof.
  intros H. unfold limit. destruct (n <? 0); [done|].
  by apply StronglySorted_take.
Qed.

Lemma safeInteger_binds n : safeInteger n → bindsLimit n = true.
Proof.
  unfold safeInteger, MAX_SAFE_INTEGER, bindsLimit. intros H.
  apply andb_true_iff. split; apply Z.ltb_lt; lia.
Qed.

(** X21.  With a limit that is a safe integer (20 when none is
    given), [getDocumentsByCategory] only returns documents of the
    store that lie in the given category, highest priority first
    (documents without a priority last), and no more than the limit
    when the limit is not negative; [getDocumentSummaries] returns no
    more summaries than its limit, each of a document of the store, in
    the category when a non-empty one is given.  With a limit that is
    no 64-bit integer both throw. *)
Theorem category_listing env w d :
  db w = Some d → hasSchema d = true →
  (∀ cat lim,
     safeInteger (default 20 lim) →
     ∃ rows,
       getDocumentsByCategory env cat lim w = (Returned rows, w) ∧
       Forall (λ r, r ∈ documents d ∧ Store.category r = cat) rows ∧
       StronglySorted priorityGe rows ∧
       (0 ≤ default 20 lim → count rows ≤ default 20 lim)) ∧
  (∀ cat lim,
     safeInteger (default 20 lim) →
     ∃ sums,
       getDocumentSummaries env cat lim w = (Returned sums, w) ∧
       Forall (λ s, ∃ r, r ∈ documents d ∧ s = toSummary r ∧
                         (Intent.truthy cat = true → Some (s_category s) = cat))
         sums ∧
       (0 ≤ default 20 lim → count sums ≤ default 20 lim)) ∧
  (∀ cat cat' lim,
     2 ^ 63 ≤ lim ∨ lim ≤ - 2 ^ 63 →
     getDocumentsByCategory env cat (Some lim) w = (Thrown, w) ∧
     getDocumentSummaries env cat' (Some lim) w = (Thrown, w)).
Proof.
  intros Hd Hs.
  assert (∀ {A} n (l : list A), 0 ≤ n → count (limit n l) ≤ n) as Hlim.
  { intros A n l Hn. unfold limit, count.
    destruct (Z.ltb_spec n 0); [lia|]. rewrite length_take. lia. }
  split; [|split]; [intros cat lim Hsafe..|].
  - unfold getDocumentsByCategory, withLimit.
    rewrite (safeInteger_binds _ Hsafe).
    rewrite (withDatabase_resident _ _ _ _ Hd Hs). eexists.
    split; [reflexivity|]. split; [|split; [|apply Hlim]].
    + apply Forall_forall. intros r Hr. apply elem_of_limit in Hr.
      rewrite elem_of_sortBy in Hr.
      apply list_elem_of_In, filter_In in Hr as [Hin Hc].
      apply bool_decide_eq_true in Hc. by rewrite list_elem_of_In.
    + apply limit_sorted, sortBy_priority.
  - unfold getDocumentSummaries, withLimit.
    rewrite (safeInteger_binds _ Hsafe).
    rewrite (withDatabase_resident _ _ _ _ Hd Hs). eexists.
    split; [reflexivity|]. split.
    + apply Forall_forall. intros s Hsum.
      apply list_elem_of_fmap in Hsum as (r & -> & Hr).
      apply elem_of_limit in Hr. rewrite elem_of_sortBy in Hr.
      apply list_elem_of_In, filter_In in Hr as [Hin Hc].
      exists r. split; [by rewrite list_elem_of_In|]. split; [done|].
      destruct cat as [[|c cs]|]; simpl; try done. intros _.
      apply bool_decide_eq_true in Hc. by rewrite Hc.
    + intros Hn. unfold count. rewrite length_map. by apply Hlim.
  - intros cat cat' lim Hout.
    assert (bindsLimit lim = false) as Hb.
    { unfold bindsLimit. apply andb_false_iff.
      destruct Hout; [right|left]; apply Z.ltb_ge; lia. }
    unfold getDocumentsByCategory, getDocumentSummaries, withLimit.
    change (default 20 (Some lim)) with lim. rewrite Hb.
    by rewrite !(withDatabase_resident _ _ _ _ Hd Hs).
Qed.

Lemma category_listing_witness :
  ∃ rows,
    getDocumentsByCategory Sample.env (js "apis") None
      (snd (getDatabase Sample.env initialWorld))
    = (Returned rows, snd (getDatabase Sample.env initialWorld)) ∧
    Forall (λ r, r ∈ documents Sample.database ∧ Store.category r = js "apis")
      rows.
Proof.
  destruct (proj1 (category_listing Sample.env
                     (snd (getDatabase Sample.env initialWorld))
                     Sample.database eq_refl eq_refl) (js "apis") None)
    as (rows & H & Hall & _).
  - vm_compute. split; discriminate.
  - by exists rows.
Defined.

End LookupProofs.

(* ================================================================== *)
(** * The builder's catalogue: what a file name is filed under *)
(* ================================================================== *)

Module CatalogProofs.
Import Regex Catalog Props.

Lemma categorizeDocument_cases name :
  categorizeDocument name = defaultClassification ∨
  ∃ p, p ∈ DOCUMENT_PATTERNS ∧ test (pattern p) name = true ∧
       categorizeDocument name = classification p.
Proof.
  unfold categorizeDocument.
  destruct (List.find _ DOCUMENT_PATTERNS) as [p|] eqn:E; [right|by left].
  apply find_some in E as [Hin Ht]. exists p. by rewrite list_elem_of_In.
Qed.

Lemma catalogue_wellClassified :
  forallb wellClassified
    (defaultClassification :: map classification DOCUMENT_PATTERNS) = true.
Proof. vm_compute. reflexivity. Qed.

Lemma categorizeDocument_wellClassified name :
  wellClassified (categorizeDocument name) = true.
Proof.
  pose proof catalogue_wellClassified as H.
  rewrite forallb_forall in H. apply H.
  destruct (categorizeDocument_cases name) as [->|(p & Hp & _ & ->)];
    [by left|right].
  apply in_map. by apply list_elem_of_In.
Qed.

Lemma wellClassified_spec c :
  wellClassified c = true →
  5 ≤ Build.cl_priority c ≤ 10 ∧ Build.cl_subcategory c ≠ [] ∧
  Build.cl_subcategory c ∉ neverFiled.
Proof.
  unfold wellClassified. intros H.
  apply andb_true_iff in H as [H H4]. apply andb_true_iff in H as [H H3].
  apply andb_true_iff in H as [H1 H2].
  apply Z.leb_le in H1, H2. apply negb_true_iff in H3, H4.
  apply bool_decide_eq_false in H3, H4. done.
Qed.

(** X23.  Whatever the file name, the builder files a document with a
    priority from 5 to 10, so in a built store every document has a
    priority in that range -- within the 1 to 10 the server's schema
    checks -- and a search never falls back to the default priority 1
    for it. *)
Theorem built_priorities generateTitle pdfs r :
  r ∈ Store.documents
        (fst (fst (Build.processAll categorizeDocument generateTitle pdfs))) →
  ∃ p, Store.priority r = Some p ∧ 5 ≤ p ≤ 10 ∧ Search.priorityOf r = p.
Proof.
  intros Hr.
  pose proof (BuildMore.fullIndex_classified categorizeDocument generateTitle
                pdfs) as H.
  rewrite Forall_forall in H. destruct (H r Hr) as (_ & _ & _ & Hp & _).
  destruct (wellClassified_spec _
              (categorizeDocument_wellClassified (Store.file_name r)))
    as (Hrange & _).
  eexists. split; [exact Hp|]. split; [done|].
  unfold Search.priorityOf. rewrite Hp.
  destruct (Z.eqb_spec (Build.cl_priority (categorizeDocument (Store.file_name r)))
              0); [lia|done].
Qed.

Lemma built_priorities_witness :
  ∃ r p,
    r ∈ Store.documents
          (fst (fst (Build.processAll categorizeDocument Sample.titleOf
                       [samplePdf; brokenPdf]))) ∧
    Store.priority r = Some p ∧ 5 ≤ p ≤ 10.
Proof.
  destruct (built_priorities Sample.titleOf [samplePdf; brokenPdf]
              (Store.Build_DocumentRow 1 (js "apex_guide.pdf")
                 (js "docs/pdfs/apex_guide.pdf") (js "core_platform")
                 (Some (js "apex")) (js "developer_guide") (js "apex_guide.pdf")
                 None (Some (jss ["apex"; "class"; "trigger"; "dml"])) None
                 (Some 3) (Some 2048) (Some 9)))
    as (p & Hp & Hrange & _).
  { vm_compute. apply list_elem_of_here. }
  eexists _, p. split; [|split; [exact Hp|exact Hrange]].
  vm_compute. apply list_elem_of_here.
Defined.

(** X24.  The intent classifier detects three subcategories --
    [specialized_apis], [analytics_cloud] and [best_practices] -- that
    the builder never files a document under: in a built store a query
    filtered to one of them selects nothing, whatever the search terms,
    so a search narrowed to such an intent gets its results from the
    fallback stages only. *)
Theorem unfiled_subcategories :
  Forall
    (λ s, (∃ p, p ∈ Intent.INTENT_PATTERNS ∧ Intent.p_subcategory p = s) ∧
          (∀ name, Build.cl_subcategory (categorizeDocument name) ≠ s) ∧
          ∀ generateTitle pdfs ctx cat n,
            Search.executeSearch ctx
              (fst (fst (Build.processAll categorizeDocument generateTitle pdfs)))
              cat (Some s) n = [])
    neverFiled.
Proof.
  apply Forall_forall. intros s Hs.
  assert (∀ name, Build.cl_subcategory (categorizeDocument name) ≠ s) as Hnever.
  { intros name E.
    destruct (wellClassified_spec _ (categorizeDocument_wellClassified name))
      as (_ & _ & Hn). apply Hn. by rewrite E. }
  split; [|split; [exact Hnever|]].
  - assert (existsb (λ p, bool_decide (Intent.p_subcategory p = s))
              Intent.INTENT_PATTERNS = true) as H.
    { unfold neverFiled in Hs. simpl in Hs.
      repeat (apply elem_of_cons in Hs as [->|Hs]; [vm_compute; reflexivity|]).
      by apply elem_of_nil in Hs. }
    apply existsb_exists in H as (p & Hp & Hb).
    exists p. split; [by apply list_elem_of_In|by apply bool_decide_eq_true in Hb].
  - intros generateTitle pdfs ctx cat n.
    destruct (Search.executeSearch ctx _ cat (Some s) n) as [|x xs] eqn:E; [done|].
    exfalso.
    assert (x ∈ Search.executeSearch ctx
                  (fst (fst (Build.processAll categorizeDocument generateTitle
                               pdfs))) cat (Some s) n) as Hx
      by (rewrite E; by left).
    apply SearchMore.executeSearch_selected
      in Hx as (doc & c & Hj & _ & _ & _ & Hsub).
    apply SearchMore.elem_of_joined in Hj as (_ & Hdoc & _).
    pose proof (BuildMore.fullIndex_classified categorizeDocument generateTitle
                  pdfs) as H.
    rewrite Forall_forall in H. destruct (H doc Hdoc) as (_ & Hsc & _).
    assert (Intent.truthy (Some s) = true) as Ht.
    { unfold neverFiled in Hs. simpl in Hs.
      repeat (apply elem_of_cons in Hs as [->|Hs]; [reflexivity|]).
      by apply elem_of_nil in Hs. }
    specialize (Hsub Ht). rewrite Hsc in Hsub. injection Hsub as Hsub.
    by apply (Hnever (Store.file_name doc)).
Qed.

(** ** Case of the file name *)

Lemma literal_i_cons ch t :
  literal_i (ch :: t) = Seq (Cls (ciChar ch)) (literal_i t).
Proof. reflexivity. Qed.

Lemma toLowerChar_asciiLower x :
  JS.toLowerChar (asciiLower x) = JS.toLowerChar x.
Proof. destruct x as [[] [] [] [] [] [] [] []]; reflexivity. Qed.

Lemma ciChar_asciiLower ch x : ciChar ch (asciiLower x) = ciChar ch x.
Proof. unfold ciChar. by rewrite toLowerChar_asciiLower. Qed.

Lemma rmatch_literal_fold t s k i c :
  rmatch (literal_i t) (map asciiLower s) k i c = rmatch (literal_i t) s k i c.
Proof.
  revert i c. induction t as [|ch t IH]; intros i c; [reflexivity|].
  rewrite literal_i_cons. cbn [rmatch].
  change (map asciiLower s) with (asciiLower <$> s) at 1.
  rewrite list_lookup_fmap.
  destruct (s !! i) as [x|]; simpl; [|done].
  rewrite ciChar_asciiLower. destruct (ciChar ch x); [|done]. apply IH.
Qed.

Lemma scan_literal_fold t s n i :
  scan (literal_i t) (map asciiLower s) n i = scan (literal_i t) s n i.
Proof.
  revert i. induction n as [|n IH]; intros i; cbn [scan]; unfold matchAt;
    rewrite rmatch_literal_fold.
  - reflexivity.
  - destruct (rmatch _ s _ i []) as [[e c]|]; [reflexivity|]. apply IH.
Qed.

Lemma test_fold pat s : test pat (map asciiLower s) = test pat s.
Proof.
  unfold test. induction pat as [|a pat IH]; [done|]. cbn [existsb].
  rewrite IH. f_equal. destruct a as [t|t]; unfold testAlternative.
  - unfold exec. rewrite !length_map.
    destruct (length s <? 0)%nat; [done|]. by rewrite scan_literal_fold.
  - unfold matchAt. by rewrite rmatch_literal_fold.
Qed.

(** X25.  The catalogue does not look at the case of the ASCII letters
    of a file name: two names that are the same but for the case of
    their letters A to Z are filed alike. *)
Theorem categorizeDocument_ignores_case a b :
  sameButCase a b →
  categorizeDocument a = categorizeDocument b.
Proof.
  unfold sameButCase. intros H. unfold categorizeDocument.
  assert (∀ s, List.find (λ p, test (pattern p) s) DOCUMENT_PATTERNS
               = List.find (λ p, test (pattern p) (map asciiLower s))
                   DOCUMENT_PATTERNS) as Hlow.
  { intros s. induction DOCUMENT_PATTERNS as [|p ps IH]; [done|].
    cbn [List.find]. by rewrite test_fold, IH. }
  by rewrite (Hlow a), (Hlow b), H.
Qed.

Lemma categorizeDocument_ignores_case_witness :
  categorizeDocument (js "Salesforce_APEX_Guide.PDF")
  = categorizeDocument (js "salesforce_apex_guide.pdf") ∧
  Build.cl_subcategory (categorizeDocument (js "salesforce_apex_guide.pdf"))
  = js "apex".
Proof.
  split; [|vm_compute; reflexivity].
  apply (categorizeDocument_ignores_case (js "Salesforce_APEX_Guide.PDF")
           (js "salesforce_apex_guide.pdf")).
  vm_compute. reflexivity.
Defined.

(** ** Titles *)

Lemma toUpperWordChar_underscore c :
  Search.isUnderscore c = false → Search.isUnderscore (toUpperWordChar c) = false.
Proof. destruct c as [[] [] [] [] [] [] [] []]; intros H; try done. Qed.

Lemma capitalizeFrom_clean b s :
  Forall (λ c, Search.isUnderscore c = false) s →
  Forall (λ c, Search.isUnderscore c = false) (capitalizeFrom b s).
Proof.
  intros H. revert b. induction H as [|c s Hc Hs IH]; intros b; simpl;
    constructor; [|apply IH].
  destruct (isWordChar c && negb b); [by apply toUpperWordChar_underscore|done].
Qed.

Lemma capitalizeFrom_length b s : length (capitalizeFrom b s) = length s.
Proof. revert b. induction s as [|c s IH]; intros b; simpl; [done|]. by rewrite IH. Qed.

(** X26.  A title [generateTitle] makes of a file name holds no
    underscore and neither starts nor ends with white space; the
    builder files "Salesforce_Apex_Guide.pdf" under the title
    "Apex Guide". *)
Theorem generateTitle_clean fileName :
  Forall (λ c, Search.isUnderscore c = false) (generateTitle fileName) ∧
  trimmed (generateTitle fileName) ∧
  generateTitle (js "Salesforce_Apex_Guide.pdf") = js "Apex Guide".
Proof.
  split; [|split; [apply ChunkerMore.trim_trimmed|vm_compute; reflexivity]].
  unfold generateTitle.
  eapply SearchMore.Forall_infix; [apply ChunkPieces.infix_trim|].
  apply capitalizeFrom_clean. apply Forall_forall. intros c Hc.
  apply list_elem_of_fmap in Hc as (x & -> & _).
  destruct (Search.isUnderscore x) eqn:E; [reflexivity|exact E].
Qed.

End CatalogProofs.

(* ================================================================== *)
(** * Intent classifier: the winning pair *)
(* ================================================================== *)

Module IntentMore.
Import Intent Props.

Opaque INTENT_PATTERNS.

Lemma table_positive : positiveWeights INTENT_PATTERNS = true.
Proof. vm_compute. reflexivity. Qed.

Lemma table_keys : keysTellPairs INTENT_PATTERNS = true.
Proof. vm_compute. reflexivity. Qed.

Lemma contribution_pos ql p :
  0 < weight p → (0 < length (matchedKeywords ql p))%nat → 0 < contribution ql p.
Proof. unfold contribution. nia. Qed.

Lemma contribution_zero ql p :
  length (matchedKeywords ql p) = 0%nat → contribution ql p = 0.
Proof. unfold contribution. intros ->. lia. Qed.

Lemma keyWeight_snoc ql ps p k :
  keyWeight ql (ps ++ [p]) k
  = keyWeight ql ps k
    + (if bool_decide (scoreKey p = k) then contribution ql p else 0).
Proof.
  unfold keyWeight. induction ps as [|x ps IH]; simpl; [lia|]. rewrite IH. lia.
Qed.

(** ** [addScore] *)

Lemma addScore_keys key p w scores :
  map fst (addScore key p w scores)
  = if bool_decide (key ∈ map fst scores) then map fst scores
    else map fst scores ++ [key].
Proof.
  induction scores as [|[k sc] rest IH]; cbn [addScore map fst].
  - destruct (bool_decide_reflect (key ∈ @nil str)) as [H|H]; [|done].
    by apply elem_of_nil in H.
  - destruct (bool_decide_reflect (k = key)) as [->|Hne]; cbn [map fst].
    + destruct (bool_decide_reflect (key ∈ key :: map fst rest)) as [H|H];
        [done|]. exfalso. apply H. by left.
    + rewrite IH.
      destruct (bool_decide_reflect (key ∈ map fst rest)) as [Hin|Hout];
        destruct (bool_decide_reflect (key ∈ k :: map fst rest)) as [H|H];
        try done.
      * exfalso. apply H. by right.
      * exfalso. apply elem_of_cons in H as [->|H]; done.
Qed.

Lemma addScore_entries key p w scores k sc :
  NoDup (map fst scores) →
  (k, sc) ∈ addScore key p w scores →
  (k ≠ key ∧ (k, sc) ∈ scores) ∨
  (k = key ∧
   ((∃ sc0, (key, sc0) ∈ scores ∧ s_weight sc = s_weight sc0 + w ∧
            s_category sc = s_category sc0 ∧
            s_subcategory sc = s_subcategory sc0) ∨
    ((key ∉ map fst scores) ∧ s_weight sc = 0 + w ∧
     s_category sc = p_category p ∧ s_subcategory sc = p_subcategory p))).
Proof.
  induction scores as [|[k0 sc0] rest IH]; cbn [addScore map fst]; intros Hnd.
  - intros H. apply list_elem_of_singleton in H as [= -> ->].
    right. split; [done|]. right. split; [apply not_elem_of_nil|]. simpl. done.
  - apply NoDup_cons in Hnd as [Hk0 Hnd].
    destruct (bool_decide_reflect (k0 = key)) as [->|Hne].
    + intros H. apply elem_of_cons in H as [[= -> ->]|H].
      * right. split; [done|]. left. exists sc0. split; [by left|done].
      * left. split; [|by right]. intros ->. apply Hk0.
        change (fst (key, sc) ∈ fst <$> rest). by apply list_elem_of_fmap_2.
    + intros H. apply elem_of_cons in H as [[= -> ->]|H].
      * left. split; [done|by left].
      * specialize (IH Hnd).
        apply IH in H as [[Hk H]|[-> [(sc1 & H1 & H2)|(H1 & H2)]]].
        -- left. split; [done|by right].
        -- right. split; [done|]. left. exists sc1. split; [by right|done].
        -- right. split; [done|]. right. split; [|done].
           intros H. apply elem_of_cons in H as [->|H]; done.
Qed.

Lemma addScore_nonempty key p w scores : addScore key p w scores ≠ [].
Proof.
  destruct scores as [|[k sc] rest]; simpl; [done|].
  by destruct (bool_decide (k = key)).
Qed.

(** ** The scan keeps the invariant *)

Lemma scoresOk_nil ql : scoresOk ql [] [].
Proof.
  split; [constructor|]. split; [|done].
  intros k sc H. by apply elem_of_nil in H.
Qed.

Lemma patternStep_ok ql ps st p :
  0 < weight p →
  scoresOk ql ps (snd st) →
  scoresOk ql (ps ++ [p]) (snd (patternStep ql st p)).
Proof.
  destruct st as [[m t] scores]. intros Hw (Hnd & Hent & Hout).
  unfold patternStep.
  destruct (Nat.ltb_spec 0 (length (matchedKeywords ql p))) as [Hpos|Hzero];
    cbn [snd].
  - fold (contribution ql p).
    pose proof (contribution_pos ql p Hw Hpos) as Hc.
    assert (map fst (addScore (scoreKey p) p (contribution ql p) scores)
            = if bool_decide (scoreKey p ∈ map fst scores) then map fst scores
              else map fst scores ++ [scoreKey p]) as Hkeys
      by apply addScore_keys.
    split; [|split].
    + rewrite Hkeys. destruct (bool_decide_reflect (scoreKey p ∈ map fst scores));
        [done|].
      apply NoDup_app. split; [done|]. split; [|apply NoDup_singleton].
      intros k Hk Hk'. apply list_elem_of_singleton in Hk' as ->. done.
    + intros k sc H. rewrite keyWeight_snoc.
      apply addScore_entries in H
        as [[Hk H]|[-> [(sc0 & H0 & H1 & H2 & H3)|(H0 & H1 & H2 & H3)]]];
        [| | |done].
      * destruct (Hent k sc H) as (E & Hp & p' & Hp' & Hrest).
        rewrite bool_decide_eq_false_2 by done.
        split; [lia|]. split; [done|]. exists p'.
        split; [apply elem_of_app; by left|done].
      * destruct (Hent _ sc0 H0) as (E & Hp & p' & Hp' & Hk' & Hc1 & Hc2).
        rewrite bool_decide_eq_true_2 by done.
        split; [lia|]. split; [lia|]. exists p'.
        split; [apply elem_of_app; by left|]. by rewrite H2, H3.
      * rewrite bool_decide_eq_true_2 by done. rewrite (Hout _ H0).
        split; [lia|]. split; [lia|]. exists p.
        split; [apply elem_of_app; right; by left|done].
    + intros k Hk. rewrite keyWeight_snoc. rewrite Hkeys in Hk.
      destruct (bool_decide_reflect (scoreKey p ∈ map fst scores)) as [Hin|Hnin].
      * rewrite (Hout k Hk). rewrite bool_decide_eq_false_2; [lia|].
        intros E. by rewrite E in Hin.
      * apply not_elem_of_app in Hk as [Hk1 Hk2].
        rewrite (Hout k Hk1). rewrite bool_decide_eq_false_2; [lia|].
        intros E. apply Hk2. rewrite E. by left.
  - assert (contribution ql p = 0) as Hc by (apply contribution_zero; lia).
    assert (∀ k, keyWeight ql (ps ++ [p]) k = keyWeight ql ps k) as Hsame.
    { intros k. rewrite keyWeight_snoc, Hc. destruct (bool_decide _); lia. }
    split; [done|]. split.
    + intros k sc H. destruct (Hent k sc H) as (E & Hp & p' & Hp' & Hrest).
      rewrite Hsame. split; [done|]. split; [done|]. exists p'.
      split; [apply elem_of_app; by left|done].
    + intros k Hk. rewrite Hsame. by apply Hout.
Qed.

Lemma patternLoop_ok ql ps' ps st :
  Forall (λ p, 0 < weight p) ps' →
  scoresOk ql ps (snd st) →
  scoresOk ql (ps ++ ps') (snd (fold_left (patternStep ql) ps' st)).
Proof.
  intros Hw. revert ps st. induction Hw as [|p ps' Hp Hw IH]; intros ps st H; simpl.
  - by rewrite app_nil_r.
  - replace (ps ++ p :: ps') with ((ps ++ [p]) ++ ps') by by rewrite <- app_assoc.
    apply IH. by apply patternStep_ok.
Qed.

Lemma table_weights : Forall (λ p, 0 < weight p) INTENT_PATTERNS.
Proof.
  pose proof table_positive as H. unfold positiveWeights in H.
  rewrite forallb_forall in H. apply Forall_forall. intros p Hp.
  apply Z.ltb_lt, H. by apply list_elem_of_In.
Qed.

Lemma scanPatterns_ok ql :
  scoresOk ql INTENT_PATTERNS (snd (scanPatterns ql)).
Proof.
  unfold scanPatterns.
  apply (patternLoop_ok ql INTENT_PATTERNS [] ([], 0, [])); [|apply scoresOk_nil].
  apply table_weights.
Qed.

(** What the scan has when nothing matched: no score entry, no matched
    phrase, no weight. *)
Lemma patternLoop_quiet ql ps st :
  (snd st = [] → fst (fst st) = [] ∧ snd (fst st) = 0) →
  let st' := fold_left (patternStep ql) ps st in
  snd st' = [] →
  fst (fst st') = [] ∧ snd (fst st') = 0 ∧ snd st = [] ∧
  ∀ p, p ∈ ps → matchedKeywords ql p = [].
Proof.
  revert st. induction ps as [|p ps IH]; intros st Hst; cbv zeta; simpl.
  - intros H. destruct (Hst H) as [H1 H2]. repeat split; try done.
    intros p Hp. by apply elem_of_nil in Hp.
  - intros H.
    assert (snd (patternStep ql st p) = [] →
            fst (fst (patternStep ql st p)) = [] ∧
            snd (fst (patternStep ql st p)) = 0 ∧ snd st = [] ∧
            matchedKeywords ql p = []) as Hstep.
    { destruct st as [[m t] scores]. unfold patternStep.
      destruct (matchedKeywords ql p) as [|kw kws] eqn:E; simpl.
      - intros Hs. destruct (Hst Hs) as [H1 H2]. done.
      - intros Hs. by apply addScore_nonempty in Hs. }
    destruct (IH (patternStep ql st p)) as (H1 & H2 & H3 & H4).
    { intros Hs. destruct (Hstep Hs) as (? & ? & _). done. }
    { exact H. }
    destruct (Hstep H3) as (_ & _ & H5 & H6).
    repeat split; try done.
    intros p' Hp'. apply elem_of_cons in Hp' as [->|Hp']; [done|by apply H4].
Qed.

(** ** The best score *)

Lemma betterLoop l b0 :
  match fold_left betterScore l b0 with
  | None => b0 = None ∧ l = []
  | Some b =>
      (b0 = Some b ∨ b ∈ l) ∧
      (∀ x, x ∈ l → s_weight x ≤ s_weight b) ∧
      (∀ b', b0 = Some b' → s_weight b' ≤ s_weight b)
  end.
Proof.
  revert b0. induction l as [|x l IH]; intros b0; simpl.
  - destruct b0 as [b|]; [|done]. split; [by left|]. split.
    + intros x Hx. by apply elem_of_nil in Hx.
    + by intros b' [= ->].
  - specialize (IH (betterScore b0 x)).
    destruct (fold_left betterScore l (betterScore b0 x)) as [b|].
    + destruct IH as (Hin & Hmax & Hb0).
      assert (∃ y, betterScore b0 x = Some y ∧ s_weight x ≤ s_weight y ∧
                   (y = x ∨ b0 = Some y) ∧
                   ∀ b', b0 = Some b' → s_weight b' ≤ s_weight y)
        as (y & Hy & Hxy & Hwho & Hb').
      { unfold betterScore. destruct b0 as [b1|].
        - destruct (Z.ltb_spec (s_weight b1) (s_weight x)).
          + exists x. repeat split; try lia; [by left|]. intros b' [= ->]. lia.
          + exists b1. repeat split; try lia; [by right|]. by intros b' [= ->].
        - exists x. repeat split; try lia; [by left|]. done. }
      specialize (Hb0 y Hy). split; [|split].
      * destruct Hin as [Hin|Hin]; [|right; by right].
        rewrite Hy in Hin. injection Hin as <-.
        destruct Hwho as [->|Hwho]; [right; by left|by left].
      * intros z Hz. apply elem_of_cons in Hz as [->|Hz]; [lia|by apply Hmax].
      * intros b' Hb1. specialize (Hb' b' Hb1). lia.
    + destruct IH as [IH _]. unfold betterScore in IH.
      destruct b0 as [b1|]; [destruct (_ <? _)|]; done.
Qed.

Lemma bestMatch_spec scores :
  match bestMatch scores with
  | None => scores = []
  | Some b =>
      (∃ k, (k, b) ∈ scores) ∧
      ∀ k sc, (k, sc) ∈ scores → s_weight sc ≤ s_weight b
  end.
Proof.
  unfold bestMatch. pose proof (betterLoop (map snd scores) None) as H.
  destruct (fold_left betterScore (map snd scores) None) as [b|].
  - destruct H as ([H|H] & Hmax & _); [done|]. split.
    + apply list_elem_of_fmap in H as ([k sc] & -> & H). by exists k.
    + intros k sc Hin. apply Hmax.
      change (snd (k, sc) ∈ snd <$> scores). by apply list_elem_of_fmap_2.
  - destruct H as [_ H]. by destruct scores.
Qed.

(** ** Pairs and keys *)

Lemma sum_ext (f g : IntentPattern → Z) l :
  Forall (λ p, f p = g p) l →
  foldr Z.add 0 (map f l) = foldr Z.add 0 (map g l).
Proof. induction 1 as [|p l Hp Hl IH]; simpl; [done|]. by rewrite Hp, IH. Qed.

Lemma pairWeight_key query p0 :
  p0 ∈ INTENT_PATTERNS →
  pairWeight query (p_category p0) (p_subcategory p0)
  = keyWeight (JS.toLowerCase query) INTENT_PATTERNS (scoreKey p0).
Proof.
  intros Hp0. unfold pairWeight, keyWeight. apply sum_ext.
  apply Forall_forall. intros p Hp.
  pose proof table_keys as H. unfold keysTellPairs in H.
  rewrite forallb_forall in H.
  specialize (H p ltac:(by apply list_elem_of_In)).
  rewrite forallb_forall in H.
  specialize (H p0 ltac:(by apply list_elem_of_In)).
  destruct (bool_decide_reflect (scoreKey p = scoreKey p0)) as [Hk|Hk].
  - simpl in H. apply bool_decide_eq_true in H.
    by rewrite bool_decide_eq_true_2.
  - rewrite bool_decide_eq_false_2; [done|]. intros [H1 H2]. apply Hk.
    unfold scoreKey. by rewrite H1, H2.
Qed.

Lemma pairWeight_cases query cat sub :
  pairWeight query cat sub = 0 ∨
  ∃ p, p ∈ INTENT_PATTERNS ∧ p_category p = cat ∧ p_subcategory p = sub.
Proof.
  unfold pairWeight. induction INTENT_PATTERNS as [|p ps IH]; simpl; [by left|].
  destruct (bool_decide_reflect (p_category p = cat ∧ p_subcategory p = sub))
    as [[H1 H2]|Hne].
  - right. exists p. split; [by left|done].
  - destruct IH as [IH|(p' & Hp' & H)].
    + left. lia.
    + right. exists p'. split; [by right|done].
Qed.

Lemma keyWeight_bound ql scores b k :
  scoresOk ql INTENT_PATTERNS scores →
  0 < s_weight b →
  (∀ k sc, (k, sc) ∈ scores → s_weight sc ≤ s_weight b) →
  keyWeight ql INTENT_PATTERNS k ≤ s_weight b.
Proof.
  intros (_ & Hent & Hout) Hpos Hmax.
  destruct (decide (k ∈ map fst scores)) as [Hin|Hnin].
  - apply list_elem_of_fmap in Hin as ([k' sc] & -> & Hin). cbn [fst].
    destruct (Hent _ _ Hin) as (<- & _). by eapply Hmax.
  - rewrite (Hout k Hnin). lia.
Qed.

Lemma detectIntent_winner query :
  match category (detectIntent query), subcategory (detectIntent query) with
  | Some c, Some s =>
      (∃ p, p ∈ INTENT_PATTERNS ∧ p_category p = c ∧ p_subcategory p = s) ∧
      0 < pairWeight query c s ∧
      ∀ c' s', pairWeight query c' s' ≤ pairWeight query c s
  | None, None => ∀ c' s', pairWeight query c' s' = 0
  | _, _ => False
  end.
Proof.
  rewrite IntentProofs.detectIntent_scan. cbv zeta. cbn [category subcategory].
  pose proof (scanPatterns_ok (JS.toLowerCase query)) as Hok.
  pose proof (bestMatch_spec (snd (scanPatterns (JS.toLowerCase query)))) as Hb.
  destruct (bestMatch (snd (scanPatterns (JS.toLowerCase query)))) as [b|];
    simpl.
  - destruct Hb as ([k Hk] & Hmax).
    destruct Hok as (Hnd & Hent & Hout).
    destruct (Hent k b Hk) as (Hw & Hpos & p & Hp & Hkey & Hc & Hs).
    assert (pairWeight query (s_category b) (s_subcategory b) = s_weight b)
      as Hpair.
    { rewrite Hc, Hs, (pairWeight_key query p Hp), Hkey. done. }
    split; [by exists p|]. rewrite Hpair. split; [done|].
    intros c' s'.
    destruct (pairWeight_cases query c' s') as [->|(p' & Hp' & <- & <-)]; [lia|].
    rewrite (pairWeight_key query p' Hp').
    by apply (keyWeight_bound _ (snd (scanPatterns (JS.toLowerCase query)))).
  - intros c' s'.
    destruct (pairWeight_cases query c' s') as [->|(p' & Hp' & <- & <-)]; [done|].
    rewrite (pairWeight_key query p' Hp').
    destruct Hok as (_ & _ & Hout). apply Hout. rewrite Hb.
    apply not_elem_of_nil.
Qed.

(** X27.  The pair [detectIntent] reports is the heaviest: its category
    and subcategory are those of a pattern of the table, the weight the
    matched patterns of that pair add up to is positive, and no pair
    has accumulated more.  When no category is reported no pair has any
    weight; a category is never reported without a subcategory. *)
Theorem winner_is_heaviest query :
  match category (detectIntent query), subcategory (detectIntent query) with
  | Some c, Some s =>
      (∃ p, p ∈ INTENT_PATTERNS ∧ p_category p = c ∧ p_subcategory p = s) ∧
      0 < pairWeight query c s ∧
      ∀ c' s', pairWeight query c' s' ≤ pairWeight query c s
  | None, None => ∀ c' s', pairWeight query c' s' = 0
  | _, _ => False
  end.
Proof. apply detectIntent_winner. Qed.

(** X28.  When [detectIntent] reports no category, nothing of the
    table was found in the query: no trigger phrase of any pattern
    occurs in it, and the intent has no subcategory, no matched
    pattern, total weight 0 and low confidence. *)
Theorem no_category_no_match query :
  category (detectIntent query) = None →
  subcategory (detectIntent query) = None ∧
  matchedPatterns (detectIntent query) = [] ∧
  totalWeight (detectIntent query) = 0 ∧
  confidence (detectIntent query) = low ∧
  ∀ p, p ∈ INTENT_PATTERNS → matchedKeywords (JS.toLowerCase query) p = [].
Proof.
  rewrite IntentProofs.detectIntent_scan. cbv zeta.
  cbn [category subcategory matchedPatterns totalWeight confidence].
  pose proof (bestMatch_spec (snd (scanPatterns (JS.toLowerCase query)))) as Hb.
  destruct (bestMatch (snd (scanPatterns (JS.toLowerCase query)))) as [b|];
    [done|]. intros _.
  pose proof (patternLoop_quiet (JS.toLowerCase query) INTENT_PATTERNS
                ([], 0, []) ltac:(done)) as H.
  cbv zeta in H. fold (scanPatterns (JS.toLowerCase query)) in H.
  destruct (H Hb) as (H1 & H2 & _ & H4).
  rewrite H1, H2. done.
Qed.

Lemma no_category_no_match_witness :
  category (detectIntent (js "hello world")) = None ∧
  confidence (detectIntent (js "hello world")) = low.
Proof.
  split; [vm_compute; reflexivity|].
  apply (no_category_no_match (js "hello world")).
  vm_compute. reflexivity.
Defined.

(** ** The description of an intent *)

Lemma table_labelled : forallb labelled INTENT_PATTERNS = true.
Proof. vm_compute. reflexivity. Qed.

(** X29.  The description of a detected intent is made of labels, never
    of raw identifiers: without a category it is the general message;
    otherwise the category and the subcategory both have a label in the
    label tables and the description is the category label, followed by
    " - " and the subcategory label when the two labels differ. *)
Theorem description_uses_labels query :
  match category (detectIntent query), subcategory (detectIntent query) with
  | Some c, Some s =>
      ∃ cl sl,
        categoryLabels !! c = Some cl ∧ subcategoryLabels !! s = Some sl ∧
        cl ≠ [] ∧ sl ≠ [] ∧
        describeIntent (detectIntent query)
        = if bool_decide (sl = cl) then cl else cl ++ js " - " ++ sl
  | None, _ =>
      describeIntent (detectIntent query)
      = js "General Salesforce documentation search"
  | _, _ => False
  end.
Proof.
  pose proof (detectIntent_winner query) as H.
  unfold describeIntent.
  destruct (category (detectIntent query)) as [c|],
           (subcategory (detectIntent query)) as [s|]; try done.
  destruct H as ((p & Hp & <- & <-) & _).
  pose proof table_labelled as Hl. rewrite forallb_forall in Hl.
  specialize (Hl p ltac:(by apply list_elem_of_In)). unfold labelled in Hl.
  destruct (p_category p) as [|c cs]; [done|].
  destruct (p_subcategory p) as [|s ss]; [done|].
  destruct (categoryLabels !! (c :: cs)) as [[|l ls]|]; try done.
  destruct (subcategoryLabels !! (s :: ss)) as [[|m ms]|]; try done.
  exists (l :: ls), (m :: ms). simpl. done.
Qed.

End IntentMore.
